(** * ecfw: entity manager ([ecfw::world]) -- shallow embedding and properties

    The development follows [include/ecfw/core/world.hpp]: the versioned
    entity table with its free list, one presence bitset ("metabuffer") per
    component type, the component buffers, and the cache of groups keyed by
    a filter bitset.  An assertion failure of the C++ code is the result
    [None]; every operation that can abort returns an [option]. *)

From stdpp Require Import gmap list.
From Stdlib Require Import ZArith Lia.

#[local] Set Warnings "-clear-no-such-hyp".

(** ** Entity identifiers *)

Module Entity.

Definition u32_max : Z := 0xFFFFFFFF%Z.

(** Truncation to [uint32_t]. *)
Definition wrap32 (z : Z) : Z := Z.land z u32_max.

(** Modelled from the spec: [ecfw/detail/entity.hpp] is not among the
    sources.  An identifier is a 64-bit value made of a 32-bit index and a
    32-bit version; [world::create] returns the bare slot number for a
    fresh slot of version 0, so the index is the low word. *)
Definition make_entity (ver idx : Z) : Z := Z.lor (Z.shiftl ver 32) idx.

(** Modelled from the spec: [ecfw/detail/entity.hpp] is not among the
    sources; the low 32 bits of the identifier. *)
Definition index_from_entity (eid : Z) : Z := Z.land eid u32_max.

(** Modelled from the spec: [ecfw/detail/entity.hpp] is not among the
    sources; the high 32 bits of the (64-bit) identifier. *)
Definition version_from_entity (eid : Z) : Z := Z.shiftr eid 32.

End Entity.

(** ** [boost::dynamic_bitset<>] as a list of bits *)

Module Bitset.

Definition size (b : list bool) : nat := length b.

Definition test (b : list bool) (pos : nat) : bool := default false (b !! pos).

Definition set (b : list bool) (pos : nat) : list bool := <[pos := true]> b.

Definition reset (b : list bool) (pos : nat) : list bool := <[pos := false]> b.

(** [resize(n)]: new bits are cleared. *)
Definition resize (b : list bool) (n : nat) : list bool := list.resize n false b.

(** The positions visited by [find_first] / [find_next], in that order. *)
Fixpoint positions_from (i : nat) (b : list bool) : list nat :=
  match b with
  | [] => []
  | x :: r => (if x then [i] else []) ++ positions_from (S i) r
  end.

Definition positions (b : list bool) : list nat := positions_from 0 b.

End Bitset.

(** [detail::contains(bitset, position)] *)
Definition contains (bitset : list bool) (position : nat) : bool :=
  bool_decide (position < Bitset.size bitset) && Bitset.test bitset position.

(** ** Sparse sets of entity identifiers *)

Module SparseSet.

(** Modelled from the spec: [ecfw/detail/sparse_set.hpp] is not among the
    sources.  "An ordered set of unsigned 64-bit entity identifiers
    supporting O(1) insert/erase/contains via an index-into-dense-array
    indirection"; iteration follows the dense array.  The list is the
    dense array. *)
Definition contains (s : list Z) (e : Z) : bool := bool_decide (e ∈ s).

(** Modelled from the spec: [ecfw/detail/sparse_set.hpp] is not among the
    sources.  A new identifier goes to the end of the dense array; an
    identifier already present is not added again. *)
Definition insert (s : list Z) (e : Z) : list Z :=
  if contains s e then s else s ++ [e].

(** Modelled from the spec: [ecfw/detail/sparse_set.hpp] is not among the
    sources.  Constant-time erase of a dense array: the last element is
    moved into the vacated position.  Erasing an absent identifier does
    nothing. *)
Fixpoint erase (s : list Z) (e : Z) : list Z :=
  match s with
  | [] => []
  | x :: t =>
      if bool_decide (x = e)
      then match last t with
           | Some l => l :: removelast t
           | None => []
           end
      else x :: erase t e
  end.

Definition size (s : list Z) : nat := length s.

End SparseSet.

(** ** The world *)

(** [std::type_index]: an opaque key naming a component type. *)
Definition type_index := nat.

(** The component buffers are [std::vector<T>] hidden behind [std::any];
    [V] is the type of the stored values. *)
Record world (V : Type) := World {
  m_free_list : list Z;                      (* stack, top first *)
  m_versions : list Z;
  m_type_positions : gmap type_index nat;
  m_metabuffers : list (list bool);
  m_buffers : list (list V);
  m_groups : gmap (list bool) (list Z);
}.
Arguments World {V}.
Arguments m_free_list {V}.
Arguments m_versions {V}.
Arguments m_type_positions {V}.
Arguments m_metabuffers {V}.
Arguments m_buffers {V}.
Arguments m_groups {V}.

(** [assert(b)]: the program aborts when [b] is false. *)
Definition cassert (b : bool) : option unit := if b then Some () else None.

Definition empty_world {V} : world V :=
  World [] [] ∅ [] [] ∅.

(** The slot of an identifier, as a subscript. *)
Definition slot (eid : Z) : nat := Z.to_nat (Entity.index_from_entity eid).

(** [m_metabuffers[i]]; the subscript is in range wherever the code uses it
    (see [wf_filters_in_range]), the empty bitset stands for the rest. *)
Definition metabuffer_at (mbs : list (list bool)) (i : nat) : list bool :=
  default [] (mbs !! i).

(** The body of the loop over [m_metabuffers] in [world::orphan]. *)
Definition clear_slot (idx : nat) (metabuffer : list bool) : list bool :=
  if contains metabuffer idx then Bitset.reset metabuffer idx else metabuffer.

(** [world::assign] on the presence bitset of the type: make room for the
    slot when it lies past the end, then set its bit. *)
Definition mark_slot (idx : nat) (metabuffer : list bool) : list bool :=
  let metabuffer :=
    if bool_decide (Bitset.size metabuffer ≤ idx)
    then Bitset.resize metabuffer (idx + 1) else metabuffer in
  Bitset.set metabuffer idx.

Section Operations.
Context {V : Type} `{!Inhabited V}.
Implicit Types (w : world V) (eid : Z) (T : type_index).

(** [world::valid] *)
Definition valid w eid : bool :=
  let idx := Entity.index_from_entity eid in
  let ver := Entity.version_from_entity eid in
  bool_decide (idx < Z.of_nat (length (m_versions w)))%Z
  && bool_decide (m_versions w !! Z.to_nat idx = Some ver).

(** [world::contains<T>] *)
Definition world_contains w T : bool :=
  bool_decide (is_Some (m_type_positions w !! T)).

(** [world::has<T>]: [None] stands for a failing [at] or subscript. *)
Definition has w T eid : option bool :=
  if negb (valid w eid) || negb (world_contains w T) then Some false
  else
    type_position ← m_type_positions w !! T;
    metabuffer ← m_metabuffers w !! type_position;
    Some (contains metabuffer (slot eid)).

(** [world::accommodate<T>] *)
Definition accommodate w T : option (world V * nat) :=
  match m_type_positions w !! T with
  | Some type_position => Some (w, type_position)
  | None =>
      let type_position := size (m_type_positions w) in
      let w' :=
        World (m_free_list w) (m_versions w)
              (<[T := type_position]> (m_type_positions w))
              (m_metabuffers w ++ [[]])
              (m_buffers w ++ [[]])
              (m_groups w) in
      cassert (bool_decide (size (m_type_positions w') = length (m_buffers w')));;
      cassert (bool_decide (size (m_type_positions w') = length (m_metabuffers w')));;
      Some (w', type_position)
  end.

(** The scan over a filter's set bits in [world::assign]. *)
Definition filter_has_all (mbs : list (list bool)) (filter : list bool)
    (idx : nat) : bool :=
  forallb (λ i, contains (metabuffer_at mbs i) idx) (Bitset.positions filter).

(** The body of the loop over [m_groups] in [world::assign]. *)
Definition assign_group (mbs : list (list bool)) (type_position idx : nat)
    eid (filter : list bool) (group : list Z) : list Z :=
  if SparseSet.contains group eid then group
  else if negb (contains filter type_position) then group
  else if filter_has_all mbs filter idx then SparseSet.insert group eid
  else group.

(** [buffer.resize(idx + 1)] when needed, then [buffer[idx] = v]. *)
Definition buffer_store (buffer : list V) (idx : nat) (v : V) : list V :=
  let buffer :=
    if bool_decide (length buffer ≤ idx) then list.resize (idx + 1) inhabitant buffer
    else buffer in
  <[idx := v]> buffer.

(** [world::assign<T>(eid, args...)]; [v] is the component that
    [T(std::forward<Args>(args)...)] constructs.  The arguments are read
    after [buffer.resize(idx + 1)]: what [v] is when an argument refers into
    the vector of [T] is the matter of [assign_forwarded] below; the
    bookkeeping (versions, free list, presence bits, groups, lengths) does
    not depend on [v]. *)
Definition assign w T eid (v : V) : option (world V) :=
  cassert (valid w eid);;
  b ← has w T eid;
  cassert (negb b);;
  '(w1, type_position) ← accommodate w T;
  let idx := slot eid in
  metabuffer ← m_metabuffers w1 !! type_position;
  let mbs := <[type_position := mark_slot idx metabuffer]> (m_metabuffers w1) in
  let groups :=
    map_imap (λ filter group,
              Some (assign_group mbs type_position idx eid filter group))
             (m_groups w1) in
  buffer ← m_buffers w1 !! type_position;
  Some (World (m_free_list w1) (m_versions w1) (m_type_positions w1) mbs
              (<[type_position := buffer_store buffer idx v]> (m_buffers w1))
              groups).

(** [(assign<Ts>(entity), ...)]: default-constructed components. *)
Fixpoint assign_defaults w (Ts : list type_index) eid : option (world V) :=
  match Ts with
  | [] => Some w
  | T :: Ts' => w1 ← assign w T eid inhabitant; assign_defaults w1 Ts' eid
  end.

(** [world::create<>()], the part before the components are assigned. *)
Definition create_entity w : option (world V * Z) :=
  match m_free_list w with
  | idx :: free =>
      ver ← m_versions w !! Z.to_nat idx;
      Some (World free (m_versions w) (m_type_positions w) (m_metabuffers w)
                  (m_buffers w) (m_groups w),
            Entity.make_entity ver idx)
  | [] =>
      let size := Z.of_nat (length (m_versions w)) in
      cassert (bool_decide (size < Entity.u32_max)%Z);;
      Some (World [] (m_versions w ++ [0%Z]) (m_type_positions w)
                  (m_metabuffers w) (m_buffers w) (m_groups w),
            size)
  end.

(** [world::create<Ts...>()]; the [static_assert] on duplicate types
    rejects the call. *)
Definition create w (Ts : list type_index) : option (world V * Z) :=
  cassert (bool_decide (NoDup Ts));;
  '(w1, entity) ← create_entity w;
  w2 ← assign_defaults w1 Ts entity;
  Some (w2, entity).

(** [world::orphan] *)
Definition orphan w eid : option (world V) :=
  cassert (valid w eid);;
  let idx := slot eid in
  Some (World (m_free_list w) (m_versions w) (m_type_positions w)
              (clear_slot idx <$> m_metabuffers w)
              (m_buffers w)
              ((λ group, SparseSet.erase group eid) <$> m_groups w)).

(** [world::destroy] *)
Definition destroy w eid : option (world V) :=
  w1 ← orphan w eid;
  let idx := Entity.index_from_entity eid in
  let ver := Entity.version_from_entity eid in
  cassert (bool_decide (ver < Entity.u32_max)%Z);;
  Some (World (idx :: m_free_list w1)
              (<[Z.to_nat idx := Entity.wrap32 (ver + 1)]> (m_versions w1))
              (m_type_positions w1) (m_metabuffers w1) (m_buffers w1)
              (m_groups w1)).

(** [world::remove<T>] for one type.  The last assertion is the one of
    [dynamic_bitset::reset] on its position. *)
Definition remove1 w T eid : option (world V) :=
  cassert (valid w eid);;
  b ← has w T eid;
  cassert b;;
  type_position ← m_type_positions w !! T;
  metabuffer ← m_metabuffers w !! type_position;
  cassert (bool_decide (slot eid < Bitset.size metabuffer));;
  Some (World (m_free_list w) (m_versions w) (m_type_positions w)
              (<[type_position := Bitset.reset metabuffer (slot eid)]>
                 (m_metabuffers w))
              (m_buffers w)
              (map_imap (λ filter group,
                         Some (if contains filter type_position
                               then SparseSet.erase group eid else group))
                        (m_groups w))).

Fixpoint remove_each w (Ts : list type_index) eid : option (world V) :=
  match Ts with
  | [] => Some w
  | T :: Ts' => w1 ← remove1 w T eid; remove_each w1 Ts' eid
  end.

(** [world::remove<T, Ts...>] *)
Definition remove w (Ts : list type_index) eid : option (world V) :=
  match Ts with
  | [] => None
  | [T] => remove1 w T eid
  | _ => cassert (bool_decide (NoDup Ts));; remove_each w Ts eid
  end.

(** [world::get<T>] for one type: the stored component. *)
Definition get w T eid : option V :=
  b ← has w T eid;
  cassert b;;
  type_position ← m_type_positions w !! T;
  buffer ← m_buffers w !! type_position;
  buffer !! slot eid.

(** [world::assign_or_replace<T>] *)
Definition assign_or_replace w T eid (v : V) : option (world V) :=
  cassert (valid w eid);;
  b ← has w T eid;
  if negb b then assign w T eid v
  else
    _ ← get w T eid;
    type_position ← m_type_positions w !! T;
    buffer ← m_buffers w !! type_position;
    Some (World (m_free_list w) (m_versions w) (m_type_positions w)
                (m_metabuffers w)
                (<[type_position := <[slot eid := v]> buffer]> (m_buffers w))
                (m_groups w)).

(** [(assign<T>(entity, get<T>(original)), ...)] of [world::clone].  The
    code hands the reference [get<T>(original)] to [assign], which reads it
    after resizing the vector of [T]; [v] is the component of the original
    when the call is made, which is what the code stores as long as that
    vector is not reallocated (see [dangles]).  Where it is reallocated the
    code has no defined behaviour; the step below then still does the
    bookkeeping of the call, so that the runs of the model include every
    defined run of the code, and nothing is stated about the values a clone
    holds. *)
Fixpoint clone_each w (Ts : list type_index) (entity original : Z)
    : option (world V) :=
  match Ts with
  | [] => Some w
  | T :: Ts' =>
      v ← get w T original;
      w1 ← assign w T entity v;
      clone_each w1 Ts' entity original
  end.

(** [world::clone<T, Ts...>(original)] *)
Definition clone w (Ts : list type_index) (original : Z) : option (world V * Z) :=
  cassert (bool_decide (Ts ≠ [] ∧ NoDup Ts));;
  '(w1, entity) ← create_entity w;
  w2 ← clone_each w1 Ts entity original;
  Some (w2, entity).

(** [accommodate<T>(), accommodate<Ts>()...], the arguments of
    [std::make_tuple] in [world::view].  C++ leaves the order in which they
    are evaluated open; they are taken left to right here. *)
Fixpoint accommodate_all w (Ts : list type_index) : option (world V * list nat) :=
  match Ts with
  | [] => Some (w, [])
  | T :: Ts' =>
      '(w1, type_position) ← accommodate w T;
      '(w2, type_positions) ← accommodate_all w1 Ts';
      Some (w2, type_position :: type_positions)
  end.

(** [world::reserve<T, Ts...>(n)]: capacities are not part of the model,
    the registration of the types is. *)
Definition reserve w (Ts : list type_index) : option (world V) :=
  cassert (bool_decide (Ts ≠ [] ∧ NoDup Ts));;
  fst <$> accommodate_all w Ts.

(** The filter of [world::group_by]: a bitset of size [largest + 1] with
    the requested positions set. *)
Definition make_filter (type_positions : list nat) : list bool :=
  let largest_type_position := max_list type_positions in
  foldl Bitset.set (replicate (largest_type_position + 1) false) type_positions.

(** The scan of [world::group_by] over [m_versions]. *)
Fixpoint build_group (mbs : list (list bool)) (type_positions : list nat)
    (versions : list Z) (index : Z) (group : list Z) : list Z :=
  match versions with
  | [] => group
  | version :: rest =>
      let has_all :=
        forallb (λ type_position,
                 contains (metabuffer_at mbs type_position) (Z.to_nat index))
                type_positions in
      let entity := Entity.make_entity version index in
      build_group mbs type_positions rest (Entity.wrap32 (index + 1))
                  (if has_all then SparseSet.insert group entity else group)
  end.

(** [world::group_by]; the result is the key of the group in [m_groups],
    which is what the returned reference designates. *)
Definition group_by w (type_positions : list nat) : option (world V * list bool) :=
  let largest_type_position := max_list type_positions in
  cassert (bool_decide (largest_type_position < size (m_type_positions w)));;
  cassert (bool_decide (largest_type_position < length (m_metabuffers w)));;
  cassert (bool_decide (largest_type_position < length (m_buffers w)));;
  let filter := make_filter type_positions in
  match m_groups w !! filter with
  | Some _ => Some (w, filter)
  | None =>
      let group :=
        build_group (m_metabuffers w) type_positions (m_versions w) 0 [] in
      Some (World (m_free_list w) (m_versions w) (m_type_positions w)
                  (m_metabuffers w) (m_buffers w)
                  (<[filter := group]> (m_groups w)),
            filter)
  end.

(** [world::view<T, Ts...>()].  A view keeps a reference to its group; the
    key of the group plays that role. *)
Definition view w (Ts : list type_index) : option (world V * list bool) :=
  cassert (bool_decide (Ts ≠ [] ∧ NoDup Ts));;
  '(w1, type_positions) ← accommodate_all w Ts;
  group_by w1 type_positions.

(** What a view shows: the entities of its group, in iteration order. *)
Definition view_entities w (handle : list bool) : list Z :=
  default [] (m_groups w !! handle).

(** [view::size] *)
Definition view_size w (handle : list bool) : nat :=
  SparseSet.size (view_entities w handle).

End Operations.

(** ** Runs of the public interface *)

Inductive op (V : Type) :=
  | OpCreate (Ts : list type_index)
  | OpDestroy (eid : Z)
  | OpOrphan (eid : Z)
  | OpAssign (T : type_index) (eid : Z) (v : V)
  | OpAssignOrReplace (T : type_index) (eid : Z) (v : V)
  | OpRemove (Ts : list type_index) (eid : Z)
  | OpView (Ts : list type_index)
  | OpReserve (Ts : list type_index)
  | OpClone (Ts : list type_index) (original : Z).
Arguments OpCreate {V}.
Arguments OpDestroy {V}.
Arguments OpOrphan {V}.
Arguments OpAssign {V}.
Arguments OpAssignOrReplace {V}.
Arguments OpRemove {V}.
Arguments OpView {V}.
Arguments OpReserve {V}.
Arguments OpClone {V}.

Definition step {V} `{!Inhabited V} (w : world V) (o : op V) : option (world V) :=
  match o with
  | OpCreate Ts => fst <$> create w Ts
  | OpDestroy eid => destroy w eid
  | OpOrphan eid => orphan w eid
  | OpAssign T eid v => assign w T eid v
  | OpAssignOrReplace T eid v => assign_or_replace w T eid v
  | OpRemove Ts eid => remove w Ts eid
  | OpView Ts => fst <$> view w Ts
  | OpReserve Ts => reserve w Ts
  | OpClone Ts original => fst <$> clone w Ts original
  end.

Definition run {V} `{!Inhabited V} (w : world V) (ops : list (op V)) : option (world V) :=
  foldl (λ r o, w' ← r; step w' o) (Some w) ops.

(** The states a program can bring a world into. *)
Inductive reachable {V} `{!Inhabited V} : world V → Prop :=
  | reachable_empty : reachable empty_world
  | reachable_step w o w' :
      reachable w → step w o = Some w' → reachable w'.

(** ** Ranges of entities and concrete runs *)

(** [world::create(first, last)]: [n] entities without components, in
    creation order. *)
Fixpoint create_n {V} `{!Inhabited V} (w : world V) (n : nat)
    : option (world V * list Z) :=
  match n with
  | 0 => Some (w, [])
  | S n' =>
      '(w1, entity) ← create w [];
      '(w2, entities) ← create_n w1 n';
      Some (w2, entity :: entities)
  end.

(** [world::assign<T>(first, last)] *)
Fixpoint assign_range {V} `{!Inhabited V} (w : world V) (T : type_index)
    (entities : list Z) : option (world V) :=
  match entities with
  | [] => Some w
  | e :: rest => w1 ← assign w T e inhabitant; assign_range w1 T rest
  end.

(** [world::remove<T>(first, last)] *)
Fixpoint remove_range {V} `{!Inhabited V} (w : world V) (T : type_index)
    (entities : list Z) : option (world V) :=
  match entities with
  | [] => Some w
  | e :: rest => w1 ← remove w [T] e; remove_range w1 T rest
  end.

Module Scenario.

Definition C0 : type_index := 0.
Definition C1 : type_index := 1.

(** What the three views show at one moment: the sizes of the views of
    [{C0}], [{C1}] and [{C0,C1}]. *)
Definition observe (w : world Z) (v0 v1 v01 : list bool) : nat * nat * nat :=
  (view_size w v0, view_size w v1, view_size w v01).

(** Three views first, then 100 entities without components, then [C0] for
    all of them, [C1] for the first 50, and [C0] removed from the first
    25.  The views are observed after each stage; after the second stage the
    entities of the [{C0,C1}] view are recorded too. *)
Definition views_then_components
    : option (list Z * (nat * nat * nat) * (nat * nat * nat)
              * (nat * nat * nat) * list Z * (nat * nat * nat)) :=
  '(w, v0) ← view (empty_world (V:=Z)) [C0];
  '(w, v1) ← view w [C1];
  '(w, v01) ← view w [C0; C1];
  '(w, entities) ← create_n w 100;
  let created := observe w v0 v1 v01 in
  w ← assign_range w C0 entities;
  let with_c0 := observe w v0 v1 v01 in
  w ← assign_range w C1 (take 50 entities);
  let with_c1 := observe w v0 v1 v01 in
  let both := view_entities w v01 in
  w ← remove_range w C0 (take 25 entities);
  let without_c0 := observe w v0 v1 v01 in
  Some (entities, created, with_c0, with_c1, both, without_c0).

(** One slot through two destructions: the identifiers handed out and the
    world at the end. *)
Definition recycle_twice : option (Z * Z * world Z) :=
  '(w, e0) ← create (empty_world (V:=Z)) [];
  w ← destroy w e0;
  '(w, e1) ← create w [];
  w ← destroy w e1;
  Some (e0, e1, w).

(** A world with two component types, three entities and two views, one
    of them requested before and one after the components were assigned. *)
Definition demo_ops : list (op Z) :=
  [OpView [C0]; OpCreate [C0]; OpCreate []; OpAssign C1 1%Z 5%Z;
   OpCreate [C0; C1]; OpView [C0; C1]; OpAssign C0 1%Z 7%Z].

Definition demo_world : world Z :=
  default empty_world (run empty_world demo_ops).

(** A world with one view and one entity, and what follows when the entity
    is destroyed and a component is assigned to the identifier that
    [valid] accepts for its freed slot. *)
Definition freed_ops : list (op Z) := [OpView [C0]; OpCreate []].

Definition freed_world : world Z :=
  default empty_world (run empty_world freed_ops).

Definition freed_destroyed : world Z :=
  default empty_world (destroy freed_world 0%Z).

Definition freed_id : Z :=
  Entity.make_entity (Entity.version_from_entity 0 + 1)
                     (Entity.index_from_entity 0).

Definition freed_assigned : world Z :=
  default empty_world (assign freed_destroyed C0 freed_id 9%Z).

Definition freed_recreated : world Z :=
  default empty_world (fst <$> create freed_assigned []).

(** A world without components whose slot 0 has been recycled until its
    version is [ver]; [rest] are the versions of the other slots. *)
Definition cycled_world (ver : Z) (rest : list Z) : world Z :=
  World [] (ver :: rest) ∅ [] [] ∅.

(** Slot 0 at the last version a 32-bit counter can hold. *)
Definition last_version_world : world Z := cycled_world Entity.u32_max [].

(** The same with a second, fresh entity in slot 1. *)
Definition last_version_pair : world Z := cycled_world Entity.u32_max [0%Z].

Definition last_version_id : Z := Entity.make_entity Entity.u32_max 0.

(** An entity that owns a component holding 42. *)
Definition owner_ops : list (op Z) :=
  [OpCreate []; OpAssign C0 0%Z 42%Z].

Definition owner_world : world Z :=
  default empty_world (run empty_world owner_ops).

Definition owner_destroyed : world Z :=
  default empty_world (destroy owner_world 0%Z).

End Scenario.

(** ** Well-formed worlds *)

(** The presence bit of type position [t] at slot [i]. *)
Definition presence {V} (w : world V) (t i : nat) : bool :=
  contains (metabuffer_at (m_metabuffers w) t) i.

(** Slot [i] has a component for every position of the filter. *)
Definition filter_matches (mbs : list (list bool)) (filter : list bool) (i : nat) : Prop :=
  ∀ t, filter !! t = Some true → contains (metabuffer_at mbs t) i = true.

Record wf {V} `{!Inhabited V} (w : world V) : Prop := {
  wf_versions_range :
    Forall (λ v, 0 ≤ v ≤ Entity.u32_max)%Z (m_versions w);
  wf_versions_length :
    (Z.of_nat (length (m_versions w)) ≤ Entity.u32_max)%Z;
  wf_free_range :
    Forall (λ i, 0 ≤ i < Z.of_nat (length (m_versions w)))%Z (m_free_list w);
  wf_metabuffers_size :
    length (m_metabuffers w) = size (m_type_positions w);
  wf_buffers_size :
    length (m_buffers w) = size (m_type_positions w);
  wf_positions :
    ∀ T p, m_type_positions w !! T = Some p → p < size (m_type_positions w);
  wf_bits_range :
    Forall (λ mb, length mb ≤ length (m_versions w)) (m_metabuffers w);
  wf_filter_nonempty :
    ∀ F g, m_groups w !! F = Some g → ∃ t, F !! t = Some true;
  wf_filters_in_range :
    ∀ F g, m_groups w !! F = Some g → length F ≤ length (m_metabuffers w);
  wf_group_nodup :
    ∀ F g, m_groups w !! F = Some g → NoDup g;
  wf_group_members :
    ∀ F g, m_groups w !! F = Some g →
      ∀ id, id ∈ g ↔ valid w id = true ∧ filter_matches (m_metabuffers w) F (slot id);
}.

(** ** The rest of the interface of [world] *)

(** [INT_MAX]: the counter of [world::count] is an [int]. *)
Definition int_max : Z := 0x7FFFFFFF%Z.

Section Queries.
Context {V : Type} `{!Inhabited V}.
Implicit Types (w : world V) (eid : Z) (T : type_index).

(** [world::num_entities] *)
Definition num_entities w : nat := length (m_versions w).

(** [world::num_reusable] *)
Definition num_reusable w : nat := length (m_free_list w).

(** [world::num_alive] *)
Definition num_alive w : option nat :=
  cassert (bool_decide (num_reusable w ≤ num_entities w));;
  Some (num_entities w - num_reusable w).

(** [world::num_contained_types] *)
Definition num_contained_types w : nat := size (m_type_positions w).

(** [(has<T>(eid) && ... && has<Ts>(eid))], left to right. *)
Fixpoint has_each w (Ts : list type_index) eid : option bool :=
  match Ts with
  | [] => Some true
  | T :: Ts' =>
      match has w T eid with
      | Some true => has_each w Ts' eid
      | r => r
      end
  end.

(** [world::has<T, Ts...>] *)
Definition has_all w (Ts : list type_index) eid : option bool :=
  match Ts with
  | [] => None
  | [T] => has w T eid
  | _ => cassert (bool_decide (NoDup Ts));; has_each w Ts eid
  end.

(** The [std::count_if] of [world::count] with its counting predicate: the
    counter [i] is an [int] incremented at every slot. *)
Fixpoint count_from w (Ts : list type_index) (versions : list Z) (i : Z)
    : option nat :=
  match versions with
  | [] => Some 0
  | v :: rest =>
      cassert (bool_decide (i < int_max)%Z);;
      b ← has_all w Ts (Entity.make_entity v i);
      n ← count_from w Ts rest (i + 1);
      Some (if (b : bool) then S n else n)
  end.

(** The identifiers [make_entity(v, i++)] that [world::count] builds, one
    per slot, from slot [i] on. *)
Fixpoint slot_entities (versions : list Z) (i : nat) : list Z :=
  match versions with
  | [] => []
  | v :: rest => Entity.make_entity v (Z.of_nat i) :: slot_entities rest (S i)
  end.

(** [world::count<T, Ts...>] *)
Definition count w (Ts : list type_index) : option nat :=
  count_from w Ts (m_versions w) 0.

(** [world::size<T>]: the length of the buffer of [T]. *)
Definition size_of w T : option nat :=
  cassert (world_contains w T);;
  type_position ← m_type_positions w !! T;
  buffer ← m_buffers w !! type_position;
  Some (length buffer).

(** [world::valid(first, last)] *)
Definition valid_range w (entities : list Z) : bool := forallb (valid w) entities.

(** [world::destroy(first, last)] *)
Fixpoint destroy_range w (entities : list Z) : option (world V) :=
  match entities with
  | [] => Some w
  | e :: rest => w1 ← destroy w e; destroy_range w1 rest
  end.

(** [world::orphan(first, last)] *)
Fixpoint orphan_range w (entities : list Z) : option (world V) :=
  match entities with
  | [] => Some w
  | e :: rest => w1 ← orphan w e; orphan_range w1 rest
  end.

(** [view::contains] *)
Definition view_contains w (handle : list bool) eid : bool :=
  SparseSet.contains (view_entities w handle) eid.

(** [Args&&] of [assign] and [assign_or_replace] is a forwarding reference:
    the argument is an object of its own, or a reference to a stored
    component, as [get<T>(original)] in [world::clone]. *)
Inductive argument :=
  | ByValue (v : V)
  | ByReference (T : type_index) (eid : Z).

(** What the argument designates when the call is made; [get<T>(eid)]
    asserts [has<T>(eid)]. *)
Definition argument_value w (a : argument) : option V :=
  match a with
  | ByValue v => Some v
  | ByReference T eid => get w T eid
  end.

(** [if (idx >= buffer.size()) buffer.resize(idx + 1)] of [world::assign]
    reallocates the vector of [T] when [idx + 1] exceeds its capacity.
    [capacity] is what [capacity<T>()] returns when the call is made: the
    record of the world holds no capacities. *)
Definition reallocates w T eid (capacity : nat) : bool :=
  match m_type_positions w !! T with
  | Some type_position =>
      match m_buffers w !! type_position with
      | Some buffer =>
          bool_decide (length buffer ≤ slot eid)
          && bool_decide (capacity < slot eid + 1)
      | None => false
      end
  | None => false
  end.

(** A reference into the vector of [T] dangles once that vector is
    reallocated; the vectors of the other types stay where they are. *)
Definition dangles w T eid (capacity : nat) (a : argument) : bool :=
  match a with
  | ByValue _ => false
  | ByReference T' _ => bool_decide (T' = T) && reallocates w T eid capacity
  end.

(** [world::assign<T>(eid, args...)] with the argument as it is passed.
    The argument expression is evaluated, then [assign] runs and constructs
    the component from the argument after the resize: reading a dangling
    reference there has no defined result. *)
Definition assign_forwarded w T eid (capacity : nat) (a : argument)
    : option (world V) :=
  v ← argument_value w a;
  cassert (negb (dangles w T eid capacity a));;
  assign w T eid v.

(** [world::assign_or_replace<T>(eid, args...)] with the argument as it is
    passed.  Without the component the argument is forwarded to [assign];
    with it, [T replacement(args...)] reads the argument while no vector
    changes. *)
Definition assign_or_replace_forwarded w T eid (capacity : nat) (a : argument)
    : option (world V) :=
  v ← argument_value w a;
  cassert (valid w eid);;
  b ← has w T eid;
  if negb b then assign_forwarded w T eid capacity a
  else assign_or_replace w T eid v.

End Queries.
Arguments argument : clear implicits.
Arguments ByValue {V}.
Arguments ByReference {V}.

(** What the operations keep besides [wf]: a presence bitset is never longer
    than the buffer of its type, and the registered types occupy the
    positions [0 .. n-1], one each. *)
Record wf_storage {V} (w : world V) : Prop := {
  wfs_buffers_cover :
    ∀ tp mb buf, m_metabuffers w !! tp = Some mb → m_buffers w !! tp = Some buf →
                 length mb ≤ length buf;
  wfs_positions_inj :
    ∀ T1 T2 p, m_type_positions w !! T1 = Some p →
               m_type_positions w !! T2 = Some p → T1 = T2;
  wfs_positions_dense :
    ∀ p, p < size (m_type_positions w) →
         ∃ T, m_type_positions w !! T = Some p;
}.

(** Nothing is taken back: slots stay, versions only grow, registered types
    keep their position. *)
Record extends {V} (w w' : world V) : Prop := {
  ext_versions :
    ∀ i v, m_versions w !! i = Some v →
           ∃ v', m_versions w' !! i = Some v' ∧ (v ≤ v')%Z;
  ext_type_positions :
    ∀ T p, m_type_positions w !! T = Some p → m_type_positions w' !! T = Some p;
}.

(** What every operation does to a well-formed world. *)
Definition keeps {V} (w w' : world V) : Prop :=
  extends w w' ∧ (wf_storage w → wf_storage w').

(** ** [hana]-style [index_of] of [view.hpp] *)

Fixpoint drop_while {A} (p : A → bool) (l : list A) : list A :=
  match l with
  | [] => []
  | x :: r => if p x then drop_while p r else l
  end.

(** [detail::index_of(element, iterable)]: the size of the sequence minus
    the size of what is left after dropping the leading elements different
    from [element]. *)
Definition index_of {A} `{EqDecision A} (element : A) (iterable : list A) : nat :=
  length iterable
  - length (drop_while (λ x, negb (bool_decide (x = element))) iterable).

(** ** [detail::chunked_buffer] of [buffer.hpp] *)

Module ChunkedBuffer.

(** A block is null ([None]) or an array of bytes of the recorded length.
    The destructor pointer only matters for being null or not. *)
Record chunked_buffer := Buffer {
  m_blocks : list (option Z);
  m_object_destructor : bool;
  m_object_size : Z;
  m_chunk_size : Z;
}.

(** [chunked_buffer(object_size, chunk_size, object_destructor)] *)
Definition make (object_size chunk_size : Z) : chunked_buffer :=
  Buffer [] true object_size chunk_size.

(** [block(index)]; a division by zero has no result. *)
Definition block (b : chunked_buffer) (index : Z) : option Z :=
  cassert (negb (bool_decide (m_chunk_size b = 0%Z)));;
  Some (index / m_chunk_size b)%Z.

(** [offset(index)] *)
Definition offset (b : chunked_buffer) (index : Z) : option Z :=
  cassert (negb (bool_decide (m_chunk_size b = 0%Z)));;
  Some (Entity.wrap32 ((index mod m_chunk_size b) * m_object_size b)).

(** [data(index)]: the address is the block and the byte offset in it. *)
Definition data (b : chunked_buffer) (index : Z) : option (Z * Z) :=
  block_i ← block b index;
  cassert (bool_decide (block_i < Z.of_nat (length (m_blocks b)))%Z
           && bool_decide (is_Some (mjoin (m_blocks b !! Z.to_nat block_i))));;
  off ← offset b index;
  Some (block_i, off).

(** [accommodate(index)] *)
Definition accommodate (b : chunked_buffer) (index : Z) : option chunked_buffer :=
  block_i ← block b index;
  let blocks :=
    if bool_decide (Z.of_nat (length (m_blocks b)) ≤ block_i)%Z
    then list.resize (Z.to_nat (Entity.wrap32 (block_i + 1))) None (m_blocks b)
    else m_blocks b in
  entry ← blocks !! Z.to_nat block_i;
  let blocks :=
    match entry with
    | Some _ => blocks
    | None =>
        let size_in_bytes := Entity.wrap32 (m_object_size b * m_chunk_size b) in
        <[Z.to_nat block_i := Some size_in_bytes]> blocks
    end in
  Some (Buffer blocks (m_object_destructor b) (m_object_size b) (m_chunk_size b)).

(** The loop of [reserve] over the blocks [0 .. block_n - 1]. *)
Fixpoint allocate_below (size_in_bytes : Z) (block_n : nat)
    (blocks : list (option Z)) : list (option Z) :=
  match block_n, blocks with
  | S n, entry :: rest =>
      (match entry with Some _ => entry | None => Some size_in_bytes end)
        :: allocate_below size_in_bytes n rest
  | _, _ => blocks
  end.

(** [reserve(n)].  The loop reads [m_blocks[block_i]] for every
    [block_i] below [block_n]; the assertion stands for these subscripts
    being in range. *)
Definition reserve (b : chunked_buffer) (n : Z) : option chunked_buffer :=
  block_n ← block b n;
  let blocks :=
    if bool_decide (Z.of_nat (length (m_blocks b)) ≤ block_n)%Z
    then list.resize (Z.to_nat (Entity.wrap32 (block_n + 1))) None (m_blocks b)
    else m_blocks b in
  let size_in_bytes := Entity.wrap32 (m_object_size b * m_chunk_size b) in
  cassert (bool_decide (Z.to_nat block_n ≤ length blocks));;
  Some (Buffer (allocate_below size_in_bytes (Z.to_nat block_n) blocks)
               (m_object_destructor b) (m_object_size b) (m_chunk_size b)).

(** [size()] *)
Definition size (b : chunked_buffer) : Z :=
  Entity.wrap32 (Entity.wrap32 (Z.of_nat (length (m_blocks b))) * m_chunk_size b).

(** The buffers a program can build: constructed empty, then grown by
    [accommodate] and [reserve], the two members that allocate. *)
Inductive built : chunked_buffer → Prop :=
  | built_make object_size chunk_size : built (make object_size chunk_size)
  | built_accommodate b index b' :
      built b → accommodate b index = Some b' → built b'
  | built_reserve b n b' :
      built b → reserve b n = Some b' → built b'.

End ChunkedBuffer.

(** * Properties *)

(** ** Identifiers *)

Module EntityFacts.
Import Entity.

Lemma index_from_entity_mod eid : index_from_entity eid = (eid mod 2 ^ 32)%Z.
Proof. unfold index_from_entity, u32_max. by rewrite <- (Z.land_ones eid 32). Qed.

Lemma version_from_entity_div eid : version_from_entity eid = (eid / 2 ^ 32)%Z.
Proof. unfold version_from_entity. by rewrite Z.shiftr_div_pow2. Qed.

Lemma index_from_entity_range eid :
  (0 ≤ index_from_entity eid < 2 ^ 32)%Z.
Proof. rewrite index_from_entity_mod. apply Z.mod_pos_bound. lia. Qed.

Lemma wrap32_small z : (0 ≤ z ≤ u32_max)%Z → wrap32 z = z.
Proof.
  intros Hz. unfold wrap32, u32_max in *.
  change (Z.land z (Z.ones 32) = z).
  rewrite Z.land_ones by lia. apply Z.mod_small. lia.
Qed.

Lemma land_high_low ver idx :
  (0 ≤ idx < 2 ^ 32)%Z → Z.land (ver * 2 ^ 32) idx = 0%Z.
Proof.
  intros Hidx. apply Z.bits_inj'. intros n Hn.
  rewrite Z.land_spec, Z.bits_0.
  destruct (decide (n < 32)%Z).
  - by rewrite Z.mul_pow2_bits_low by lia.
  - rewrite (Z.bits_above_log2 idx n); [by rewrite andb_false_r|lia|].
    destruct (decide (idx = 0)%Z) as [->|]; [simpl; lia|].
    apply Z.lt_le_trans with 32%Z; [|lia].
    apply Z.log2_lt_pow2; lia.
Qed.

Lemma make_entity_sum ver idx :
  (0 ≤ idx < 2 ^ 32)%Z → make_entity ver idx = (ver * 2 ^ 32 + idx)%Z.
Proof.
  intros Hidx. unfold make_entity.
  rewrite Z.shiftl_mul_pow2 by lia.
  pose proof (land_high_low ver idx Hidx) as Hland.
  by rewrite <- Z.lxor_lor, <- Z.add_nocarry_lxor.
Qed.

Lemma index_make_entity ver idx :
  (0 ≤ idx < 2 ^ 32)%Z → index_from_entity (make_entity ver idx) = idx.
Proof.
  intros Hidx. rewrite index_from_entity_mod, make_entity_sum by done.
  rewrite Z.add_comm, Z.mod_add by lia. apply Z.mod_small. lia.
Qed.

Lemma version_make_entity ver idx :
  (0 ≤ idx < 2 ^ 32)%Z → version_from_entity (make_entity ver idx) = ver.
Proof.
  intros Hidx. rewrite version_from_entity_div, make_entity_sum by done.
  rewrite Z.add_comm, Z.div_add by lia. rewrite Z.div_small by lia. lia.
Qed.

(** An identifier is determined by its index and its version. *)
Lemma entity_eq e1 e2 :
  index_from_entity e1 = index_from_entity e2 →
  version_from_entity e1 = version_from_entity e2 →
  e1 = e2.
Proof.
  rewrite !index_from_entity_mod, !version_from_entity_div. intros Hi Hv.
  rewrite (Z.div_mod e1 (2 ^ 32)), (Z.div_mod e2 (2 ^ 32)) by lia. congruence.
Qed.

Lemma make_entity_split eid :
  make_entity (version_from_entity eid) (index_from_entity eid) = eid.
Proof.
  pose proof (index_from_entity_range eid).
  apply entity_eq; [by apply index_make_entity|by apply version_make_entity].
Qed.

End EntityFacts.

(** ** Sparse sets *)

Module SparseSetFacts.

Lemma erase_absent s e : e ∉ s → SparseSet.erase s e = s.
Proof.
  induction s as [|x t IH]; simpl; [done|].
  intros [Hx Ht]%not_elem_of_cons.
  rewrite bool_decide_false by congruence. by rewrite IH.
Qed.

Lemma erase_perm s e : e ∈ s → s ≡ₚ e :: SparseSet.erase s e.
Proof.
  induction s as [|x t IH]; intros Hin; [by apply elem_of_nil in Hin|].
  simpl. case_bool_decide as Hx.
  - subst x. destruct (last t) as [l|] eqn:Hl.
    + apply last_Some in Hl as [t' ->]. rewrite removelast_last.
      apply Permutation_skip. symmetry. apply Permutation_cons_append.
    + by apply last_None in Hl as ->.
  - apply elem_of_cons in Hin as [?|Hin]; [congruence|].
    rewrite (IH Hin) at 1. apply Permutation_swap.
Qed.

Lemma erase_NoDup s e : NoDup s → NoDup (SparseSet.erase s e).
Proof.
  destruct (decide (e ∈ s)) as [Hin|Hout].
  - rewrite (erase_perm s e Hin) at 1. by intros [_ ?]%NoDup_cons.
  - by rewrite erase_absent.
Qed.

Lemma elem_of_erase s e x :
  NoDup s → x ∈ SparseSet.erase s e ↔ x ∈ s ∧ x ≠ e.
Proof.
  destruct (decide (e ∈ s)) as [Hin|Hout].
  - pose proof (erase_perm s e Hin) as Hp.
    remember (SparseSet.erase s e) as r eqn:Hr. rewrite Hp.
    intros [Hne _]%NoDup_cons. rewrite elem_of_cons. naive_solver.
  - rewrite erase_absent by done. naive_solver.
Qed.

Lemma not_elem_of_erase s e : NoDup s → e ∉ SparseSet.erase s e.
Proof. intros Hnd [_ ?]%elem_of_erase; done. Qed.

Lemma size_erase s e :
  e ∈ s → SparseSet.size s = S (SparseSet.size (SparseSet.erase s e)).
Proof.
  intros Hin. unfold SparseSet.size.
  by rewrite (erase_perm s e Hin) at 1.
Qed.

Lemma contains_true s e : SparseSet.contains s e = true ↔ e ∈ s.
Proof. unfold SparseSet.contains. by rewrite bool_decide_eq_true. Qed.

Lemma elem_of_insert s e x : x ∈ SparseSet.insert s e ↔ x = e ∨ x ∈ s.
Proof.
  unfold SparseSet.insert, SparseSet.contains.
  case_bool_decide; [naive_solver|].
  rewrite elem_of_app, list_elem_of_singleton. naive_solver.
Qed.

Lemma insert_NoDup s e : NoDup s → NoDup (SparseSet.insert s e).
Proof.
  unfold SparseSet.insert, SparseSet.contains. intros Hnd.
  case_bool_decide; [done|].
  apply NoDup_app. split_and!; [done| |apply NoDup_singleton].
  intros x Hx ->%list_elem_of_singleton. done.
Qed.

End SparseSetFacts.

(** ** Bitsets *)

Module BitsetFacts.

Lemma contains_lookup b i : contains b i = true ↔ b !! i = Some true.
Proof.
  unfold contains, Bitset.test, Bitset.size. split.
  - intros [_ Hb]%andb_true_iff. by destruct (b !! i) as [[]|].
  - intros Hb. rewrite Hb. simpl. apply lookup_lt_Some in Hb.
    by rewrite bool_decide_true.
Qed.

Lemma contains_false b i : contains b i = false ↔ b !! i ≠ Some true.
Proof. rewrite <- contains_lookup. by destruct (contains b i). Qed.

Lemma elem_of_positions_from i b t :
  t ∈ Bitset.positions_from i b ↔ i ≤ t ∧ b !! (t - i) = Some true.
Proof.
  revert i. induction b as [|x r IH]; intros i; simpl.
  - rewrite elem_of_nil. naive_solver.
  - rewrite elem_of_app, IH. destruct (decide (t = i)) as [->|Hne].
    + replace (i - i) with 0 by lia. simpl.
      destruct x; [rewrite list_elem_of_singleton|rewrite elem_of_nil];
        split; try naive_solver lia.
    + assert ((if x then [i] else []) = [i] ∨ (if x then [i] else []) = [])
        as [->| ->] by (destruct x; auto).
      * rewrite list_elem_of_singleton. split.
        -- intros [?|[? Hl]]; [done|]. split; [lia|].
           by replace (t - i) with (S (t - S i)) by lia.
        -- intros [? Hl]. right. split; [lia|].
           by replace (t - i) with (S (t - S i)) in Hl by lia.
      * rewrite elem_of_nil. split.
        -- intros [?|[? Hl]]; [done|]. split; [lia|].
           by replace (t - i) with (S (t - S i)) by lia.
        -- intros [? Hl]. right. split; [lia|].
           by replace (t - i) with (S (t - S i)) in Hl by lia.
Qed.

Lemma elem_of_positions b t : t ∈ Bitset.positions b ↔ b !! t = Some true.
Proof.
  unfold Bitset.positions. rewrite elem_of_positions_from.
  replace (t - 0) with t by lia. naive_solver lia.
Qed.

End BitsetFacts.

(** ** The operations preserve well-formedness *)

Lemma cassert_Some b : cassert b = Some () ↔ b = true.
Proof. by destruct b. Qed.

Lemma cassert_bind_Some {A} b (k : option A) y :
  (cassert b ;; k) = Some y ↔ b = true ∧ k = Some y.
Proof. destruct b; simpl; naive_solver. Qed.

Lemma metabuffer_at_app_nil mbs t :
  metabuffer_at (mbs ++ [[]]) t = metabuffer_at mbs t.
Proof.
  unfold metabuffer_at. destruct (decide (t < length mbs)) as [Hlt|Hge].
  - by rewrite lookup_app_l.
  - rewrite (lookup_ge_None_2 mbs) by lia.
    destruct (decide (t = length mbs)) as [->|].
    + by rewrite list_lookup_middle.
    + rewrite lookup_ge_None_2; [done|]. rewrite length_app. simpl. lia.
Qed.

Lemma filter_matches_ext mbs mbs' F i :
  (∀ t, F !! t = Some true →
        contains (metabuffer_at mbs' t) i = contains (metabuffer_at mbs t) i) →
  filter_matches mbs' F i ↔ filter_matches mbs F i.
Proof.
  intros Hext. unfold filter_matches.
  split; intros Hm t Ht; specialize (Hm t Ht); specialize (Hext t Ht); congruence.
Qed.

(** Projections out of an explicit [World]. *)
Ltac fields :=
  cbn [m_free_list m_versions m_type_positions m_metabuffers m_buffers
       m_groups andb].

Section WorldFacts.
Context {V : Type} `{!Inhabited V}.
Implicit Types (w : world V) (eid : Z) (T : type_index).

Lemma valid_lookup w eid :
  valid w eid = true ↔
  m_versions w !! slot eid = Some (Entity.version_from_entity eid).
Proof.
  unfold valid. rewrite andb_true_iff, !bool_decide_eq_true. fold (slot eid).
  split; [by intros [_ ?]|]. intros Hl. split; [|done].
  apply lookup_lt_Some in Hl. unfold slot in Hl.
  pose proof (EntityFacts.index_from_entity_range eid). lia.
Qed.

Lemma valid_ext w w' eid :
  m_versions w' = m_versions w → valid w' eid = valid w eid.
Proof. unfold valid. by intros ->. Qed.

Lemma slot_index eid : Z.of_nat (slot eid) = Entity.index_from_entity eid.
Proof.
  unfold slot. pose proof (EntityFacts.index_from_entity_range eid). lia.
Qed.

(** Two valid identifiers of the same slot are the same identifier. *)
Lemma valid_same_slot w e1 e2 :
  valid w e1 = true → valid w e2 = true → slot e1 = slot e2 → e1 = e2.
Proof.
  rewrite !valid_lookup. intros H1 H2 Hs. apply EntityFacts.entity_eq.
  - by rewrite <- !slot_index, Hs.
  - rewrite Hs in H1. congruence.
Qed.

Lemma slot_make_entity ver (i : nat) :
  (Z.of_nat i < 2 ^ 32)%Z → slot (Entity.make_entity ver (Z.of_nat i)) = i.
Proof.
  intros Hi. unfold slot. rewrite EntityFacts.index_make_entity by lia. lia.
Qed.

Lemma valid_make_entity w ver (i : nat) :
  (Z.of_nat i < 2 ^ 32)%Z →
  valid w (Entity.make_entity ver (Z.of_nat i)) = true ↔
  m_versions w !! i = Some ver.
Proof.
  intros Hi. rewrite valid_lookup, slot_make_entity by done.
  by rewrite EntityFacts.version_make_entity by lia.
Qed.

Lemma accommodate_spec w T w' p :
  accommodate w T = Some (w', p) →
  m_type_positions w' !! T = Some p
  ∧ m_versions w' = m_versions w
  ∧ m_free_list w' = m_free_list w
  ∧ m_groups w' = m_groups w
  ∧ (∀ t, metabuffer_at (m_metabuffers w') t = metabuffer_at (m_metabuffers w) t)
  ∧ (∀ T' p', m_type_positions w !! T' = Some p' →
              m_type_positions w' !! T' = Some p')
  ∧ (∀ T', T' ≠ T → m_type_positions w' !! T' = m_type_positions w !! T').
Proof.
  unfold accommodate. destruct (m_type_positions w !! T) as [q|] eqn:HT.
  - intros [= <- <-]. naive_solver.
  - rewrite !cassert_bind_Some. intros (_ & _ & [= <- <-]). simpl.
    split_and!; try done.
    + apply lookup_insert_eq.
    + apply metabuffer_at_app_nil.
    + intros T' p' HT'. rewrite lookup_insert_ne; [done|congruence].
    + intros T' Hne. by rewrite lookup_insert_ne.
Qed.

Lemma accommodate_wf w T w' p :
  wf w → accommodate w T = Some (w', p) → wf w'.
Proof.
  intros Hwf. unfold accommodate.
  destruct (m_type_positions w !! T) as [q|] eqn:HT; [by intros [= <- <-]|].
  rewrite !cassert_bind_Some. intros (_ & _ & [= <- <-]).
  destruct Hwf. split; simpl; try done.
  - rewrite length_app, map_size_insert_None by done. simpl. lia.
  - rewrite length_app, map_size_insert_None by done. simpl. lia.
  - intros T' p'. rewrite map_size_insert_None by done.
    destruct (decide (T = T')) as [->|Hne].
    + rewrite lookup_insert_eq. intros [= <-]. lia.
    + rewrite lookup_insert_ne by done. intros Hp%wf_positions0. lia.
  - apply Forall_app. split; [done|]. apply Forall_singleton. simpl. lia.
  - intros F g HF. rewrite length_app. specialize (wf_filters_in_range0 F g HF). lia.
  - intros F g HF id. rewrite (wf_group_members0 F g HF id).
    by rewrite (filter_matches_ext (m_metabuffers w) (m_metabuffers w ++ [[]]))
      by (intros; by rewrite metabuffer_at_app_nil).
Qed.

(** On a well-formed world [accommodate] passes its assertions. *)
Lemma accommodate_total w T :
  wf w → ∃ w' p, accommodate w T = Some (w', p).
Proof.
  intros Hwf. unfold accommodate.
  destruct (m_type_positions w !! T) as [q|] eqn:HT; [by eauto|].
  simpl. rewrite !length_app, map_size_insert_None by done. simpl.
  rewrite (wf_buffers_size w Hwf), (wf_metabuffers_size w Hwf).
  rewrite !bool_decide_true by lia. simpl. eauto.
Qed.

Lemma presence_in_range w t i :
  wf w → contains (metabuffer_at (m_metabuffers w) t) i = true →
  i < length (m_versions w).
Proof.
  intros Hwf Hc%BitsetFacts.contains_lookup. apply lookup_lt_Some in Hc.
  unfold metabuffer_at in Hc.
  destruct (m_metabuffers w !! t) as [mb|] eqn:Hmb; simpl in Hc; [|lia].
  pose proof (wf_bits_range w Hwf) as Hr.
  rewrite Forall_lookup in Hr. specialize (Hr t mb Hmb). simpl in Hr. lia.
Qed.

(** A member of a cached group owns a component, so its slot exists. *)
Lemma filter_matches_in_range w F g i :
  wf w → m_groups w !! F = Some g →
  filter_matches (m_metabuffers w) F i → i < length (m_versions w).
Proof.
  intros Hwf HF Hm. destruct (wf_filter_nonempty w Hwf F g HF) as [t Ht].
  eapply presence_in_range; eauto.
Qed.

Lemma create_entity_wf w w' entity :
  wf w → create_entity w = Some (w', entity) → wf w'.
Proof.
  intros Hwf. unfold create_entity.
  destruct (m_free_list w) as [|idx free] eqn:Hfree.
  - rewrite cassert_bind_Some, bool_decide_eq_true.
    intros [Hsize [= <- <-]]. pose proof Hwf as Hwf0.
    destruct Hwf. split; simpl; try done.
    + apply Forall_app. split; [done|]. apply Forall_singleton.
      unfold Entity.u32_max. lia.
    + rewrite length_app. simpl. lia.
    + eapply Forall_impl; [done|]. intros mb Hmb. simpl in *.
      rewrite length_app. lia.
    + intros F g HF id. rewrite (wf_group_members0 F g HF id).
      unfold valid at 2. simpl. fold (slot id).
      split.
      * intros [Hv Hm]. split; [|done]. apply valid_lookup in Hv.
        rewrite andb_true_iff, !bool_decide_eq_true.
        pose proof (lookup_lt_Some _ _ _ Hv). rewrite length_app.
        rewrite <- slot_index, lookup_app_l by done. split; [lia|done].
      * intros [Hv Hm]. split; [|done].
        pose proof (filter_matches_in_range w F g _ Hwf0 HF Hm) as Hlt.
        apply valid_lookup. apply andb_true_iff in Hv as [_ Hv].
        apply bool_decide_eq_true in Hv. by rewrite lookup_app_l in Hv.
  - intros (ver & Hver & [= <- <-])%bind_Some.
    destruct Hwf. split; simpl; try done.
    rewrite Hfree in wf_free_range0. by apply Forall_cons in wf_free_range0 as [_ ?].
Qed.

Lemma clear_slot_length idx mb : length (clear_slot idx mb) = length mb.
Proof.
  unfold clear_slot, Bitset.reset. destruct (contains mb idx); [|done].
  apply length_insert.
Qed.

Lemma clear_slot_contains idx mb i :
  contains (clear_slot idx mb) i =
  if decide (i = idx) then false else contains mb i.
Proof.
  unfold clear_slot. destruct (contains mb idx) eqn:Hc.
  - case_decide as Hi.
    + subst i. apply BitsetFacts.contains_false. unfold Bitset.reset.
      apply BitsetFacts.contains_lookup, lookup_lt_Some in Hc.
      by rewrite list_lookup_insert_eq.
    + destruct (contains mb i) eqn:Hci.
      * apply BitsetFacts.contains_lookup. unfold Bitset.reset.
        rewrite list_lookup_insert_ne by done.
        by apply BitsetFacts.contains_lookup.
      * apply BitsetFacts.contains_false. unfold Bitset.reset.
        rewrite list_lookup_insert_ne by done.
        by apply BitsetFacts.contains_false.
  - case_decide; [by subst|done].
Qed.

Lemma metabuffer_at_clear_slot idx mbs t :
  metabuffer_at (clear_slot idx <$> mbs) t = clear_slot idx (metabuffer_at mbs t).
Proof.
  unfold metabuffer_at. rewrite list_lookup_fmap.
  by destruct (mbs !! t).
Qed.

Lemma orphan_fields w eid w' :
  orphan w eid = Some w' →
  valid w eid = true
  ∧ m_free_list w' = m_free_list w
  ∧ m_versions w' = m_versions w
  ∧ m_type_positions w' = m_type_positions w
  ∧ m_metabuffers w' = clear_slot (slot eid) <$> m_metabuffers w
  ∧ m_buffers w' = m_buffers w
  ∧ m_groups w' = (λ group, SparseSet.erase group eid) <$> m_groups w.
Proof.
  unfold orphan. rewrite cassert_bind_Some. by intros [Hv [= <-]].
Qed.

Lemma orphan_presence w eid w' t :
  orphan w eid = Some w' → presence w' t (slot eid) = false.
Proof.
  intros (_ & _ & _ & _ & Hmb & _)%orphan_fields. unfold presence.
  rewrite Hmb, metabuffer_at_clear_slot, clear_slot_contains.
  by rewrite decide_True.
Qed.

Lemma orphan_wf w eid w' : wf w → orphan w eid = Some w' → wf w'.
Proof.
  intros Hwf Ho. pose proof (orphan_presence w eid w') as Hclear.
  specialize (λ t, Hclear t Ho). unfold presence in Hclear.
  apply orphan_fields in Ho as (Hv & Hfree & Hver & Htp & Hmb & Hbuf & Hgr).
  pose proof Hwf as Hwf0. destruct Hwf.
  split; rewrite ?Hfree, ?Hver, ?Htp, ?Hbuf; try done.
  - by rewrite Hmb, length_fmap.
  - rewrite Hmb, Forall_fmap. eapply Forall_impl; [done|].
    intros mb Hlen. simpl. by rewrite clear_slot_length.
  - intros F g'. rewrite Hgr, lookup_fmap.
    intros (g & HF & _)%fmap_Some. eauto.
  - intros F g'. rewrite Hgr, lookup_fmap, Hmb, length_fmap.
    intros (g & HF & _)%fmap_Some. eauto.
  - intros F g'. rewrite Hgr, lookup_fmap.
    intros (g & HF & ->)%fmap_Some. apply SparseSetFacts.erase_NoDup. eauto.
  - intros F g'. rewrite Hgr, lookup_fmap.
    intros (g & HF & ->)%fmap_Some id.
    rewrite SparseSetFacts.elem_of_erase by eauto.
    rewrite (wf_group_members0 F g HF id), (valid_ext w w') by done.
    destruct (decide (slot id = slot eid)) as [Hs|Hs].
    + split.
      * intros [[Hvid _] Hne]. destruct Hne. by eapply valid_same_slot.
      * intros [_ Hm]. destruct (wf_filter_nonempty0 F g HF) as [t Ht].
        specialize (Hm t Ht). rewrite Hs, Hclear in Hm. done.
    + rewrite (filter_matches_ext (m_metabuffers w) (m_metabuffers w')).
      * split; [naive_solver|]. intros [? ?]. split; [done|]. congruence.
      * intros t _. rewrite Hmb, metabuffer_at_clear_slot, clear_slot_contains.
        by rewrite decide_False.
Qed.

Lemma destroy_fields w eid w' :
  destroy w eid = Some w' →
  ∃ w1, orphan w eid = Some w1
  ∧ (Entity.version_from_entity eid < Entity.u32_max)%Z
  ∧ m_free_list w' = Entity.index_from_entity eid :: m_free_list w1
  ∧ m_versions w' =
      <[slot eid := Entity.wrap32 (Entity.version_from_entity eid + 1)]>
        (m_versions w1)
  ∧ m_type_positions w' = m_type_positions w1
  ∧ m_metabuffers w' = m_metabuffers w1
  ∧ m_buffers w' = m_buffers w1
  ∧ m_groups w' = m_groups w1.
Proof.
  unfold destroy. intros (w1 & Ho & Hrest)%bind_Some. exists w1.
  apply cassert_bind_Some in Hrest as [Hver%bool_decide_eq_true [= <-]].
  done.
Qed.

Lemma valid_version_range w eid :
  wf w → valid w eid = true →
  (0 ≤ Entity.version_from_entity eid ≤ Entity.u32_max)%Z.
Proof.
  intros Hwf Hv%valid_lookup. pose proof (wf_versions_range w Hwf) as Hr.
  rewrite Forall_lookup in Hr. exact (Hr _ _ Hv).
Qed.

Lemma destroy_wf w eid w' : wf w → destroy w eid = Some w' → wf w'.
Proof.
  intros Hwf (w1 & Ho & Hlt & Hfree & Hver & Htp & Hmb & Hbuf & Hgr)%destroy_fields.
  pose proof (orphan_wf w eid w1 Hwf Ho) as Hwf1.
  pose proof (λ t, orphan_presence w eid w1 t Ho) as Hclear.
  unfold presence in Hclear.
  apply orphan_fields in Ho as (Hv & _ & Hver1 & _).
  pose proof (valid_version_range w eid Hwf Hv) as Hrange.
  apply valid_lookup in Hv. pose proof (lookup_lt_Some _ _ _ Hv) as Hslot.
  rewrite <- Hver1 in Hslot.
  destruct Hwf1.
  split; rewrite ?Hfree, ?Hver, ?Htp, ?Hmb, ?Hbuf, ?Hgr, ?length_insert;
    try done.
  - apply Forall_insert; [done|].
    rewrite EntityFacts.wrap32_small by lia. lia.
  - apply Forall_cons. split; [|done]. rewrite <- slot_index. lia.
  - intros F g HF id. rewrite (wf_group_members0 F g HF id).
    assert (filter_matches (m_metabuffers w1) F (slot id) →
            slot id ≠ slot eid) as Hne.
    { intros Hm Hs. destruct (wf_filter_nonempty0 F g HF) as [t Ht].
      specialize (Hm t Ht). rewrite Hs, Hclear in Hm. done. }
    rewrite !valid_lookup, Hver.
    split; intros [Hvid Hm]; (split; [|done]); specialize (Hne Hm).
    + by rewrite list_lookup_insert_ne.
    + by rewrite list_lookup_insert_ne in Hvid.
Qed.

Lemma metabuffer_at_insert mbs tp mb mb' t :
  mbs !! tp = Some mb →
  metabuffer_at (<[tp := mb']> mbs) t =
  if decide (t = tp) then mb' else metabuffer_at mbs t.
Proof.
  intros Hmb. unfold metabuffer_at. case_decide as Ht.
  - subst t. by rewrite list_lookup_insert_eq by (by eapply lookup_lt_Some).
  - by rewrite list_lookup_insert_ne.
Qed.

Lemma has_true w T eid :
  has w T eid = Some true ↔
  valid w eid = true
  ∧ ∃ tp mb, m_type_positions w !! T = Some tp
             ∧ m_metabuffers w !! tp = Some mb
             ∧ contains mb (slot eid) = true.
Proof.
  unfold has. destruct (valid w eid); simpl; [|naive_solver].
  unfold world_contains. case_bool_decide as Hc; simpl.
  - destruct Hc as [tp HT]. rewrite HT. simpl.
    destruct (m_metabuffers w !! tp) as [mb|] eqn:Hmb; simpl.
    + split; [intros [= Hc]; eauto 10|]. intros (_ & ? & ? & [= <-] & ? & ?).
      congruence.
    + split; [done|]. intros (_ & ? & ? & [= <-] & ? & ?). congruence.
  - apply eq_None_not_Some in Hc. rewrite Hc. simpl.
    split; [done|]. by intros (_ & ? & ? & ? & _).
Qed.

Lemma has_false w T eid :
  has w T eid = Some false ↔
  valid w eid = false
  ∨ m_type_positions w !! T = None
  ∨ ∃ tp mb, m_type_positions w !! T = Some tp
             ∧ m_metabuffers w !! tp = Some mb
             ∧ contains mb (slot eid) = false.
Proof.
  unfold has. destruct (valid w eid); simpl; [|naive_solver].
  unfold world_contains. case_bool_decide as Hc; simpl.
  - destruct Hc as [tp HT]. rewrite HT. simpl.
    destruct (m_metabuffers w !! tp) as [mb|] eqn:Hmb; simpl.
    + split; [intros [= Hc]; eauto 10|].
      intros [?|[?|(? & ? & [= <-] & ? & ?)]]; congruence.
    + split; [done|]. intros [?|[?|(? & ? & [= <-] & ? & ?)]]; congruence.
  - apply eq_None_not_Some in Hc. rewrite Hc. simpl. split; eauto.
Qed.

(** On a well-formed world [has] answers. *)
Lemma has_total w T eid : wf w → is_Some (has w T eid).
Proof.
  intros Hwf. unfold has.
  destruct (valid w eid); simpl; [|by eauto].
  unfold world_contains. case_bool_decide as Hc; simpl; [|by eauto].
  destruct Hc as [tp HT]. rewrite HT. simpl.
  pose proof (wf_positions w Hwf T tp HT) as Hlt.
  rewrite <- (wf_metabuffers_size w Hwf) in Hlt.
  apply lookup_lt_is_Some_2 in Hlt as [mb ->]. simpl. eauto.
Qed.

Lemma remove1_fields w T eid w' :
  remove1 w T eid = Some w' →
  ∃ tp mb,
    valid w eid = true
    ∧ m_type_positions w !! T = Some tp
    ∧ m_metabuffers w !! tp = Some mb
    ∧ contains mb (slot eid) = true
    ∧ m_free_list w' = m_free_list w
    ∧ m_versions w' = m_versions w
    ∧ m_type_positions w' = m_type_positions w
    ∧ m_metabuffers w' =
        <[tp := Bitset.reset mb (slot eid)]> (m_metabuffers w)
    ∧ m_buffers w' = m_buffers w
    ∧ m_groups w' =
        map_imap (λ filter group,
                  Some (if contains filter tp
                        then SparseSet.erase group eid else group))
                 (m_groups w).
Proof.
  unfold remove1. rewrite cassert_bind_Some. intros [Hv Hrest].
  apply bind_Some in Hrest as (b & Hhas & Hrest).
  apply cassert_bind_Some in Hrest as [-> Hrest].
  apply has_true in Hhas as (_ & tp & mb & HT & Hmb & Hc).
  rewrite HT in Hrest. simpl in Hrest. rewrite Hmb in Hrest. simpl in Hrest.
  apply cassert_bind_Some in Hrest as [_ [= <-]].
  exists tp, mb. done.
Qed.

Lemma reset_contains mb idx i :
  contains (Bitset.reset mb idx) i =
  if decide (i = idx) then false else contains mb i.
Proof.
  destruct (contains mb idx) eqn:Hc.
  - pose proof (clear_slot_contains idx mb i) as Hcs.
    unfold clear_slot in Hcs. by rewrite Hc in Hcs.
  - case_decide as Hi.
    + subst i. apply BitsetFacts.contains_false. unfold Bitset.reset.
      intros Hl. pose proof (lookup_lt_Some _ _ _ Hl) as Hlt.
      rewrite length_insert in Hlt.
      by rewrite list_lookup_insert_eq in Hl.
    + destruct (contains mb i) eqn:Hci.
      * apply BitsetFacts.contains_lookup. unfold Bitset.reset.
        rewrite list_lookup_insert_ne by done.
        by apply BitsetFacts.contains_lookup.
      * apply BitsetFacts.contains_false. unfold Bitset.reset.
        rewrite list_lookup_insert_ne by done.
        by apply BitsetFacts.contains_false.
Qed.

Lemma remove1_wf w T eid w' : wf w → remove1 w T eid = Some w' → wf w'.
Proof.
  intros Hwf (tp & mb & Hv & HT & Hmbtp & Hc & Hfree & Hver & Htp & Hmb & Hbuf & Hgr)
    %remove1_fields.
  assert (∀ t i, contains (metabuffer_at (m_metabuffers w') t) i =
                 if decide (t = tp ∧ i = slot eid) then false
                 else contains (metabuffer_at (m_metabuffers w) t) i) as Hbits.
  { intros t i. rewrite Hmb, (metabuffer_at_insert _ _ mb) by done.
    destruct (decide (t = tp)) as [->|Ht].
    - rewrite reset_contains. unfold metabuffer_at. rewrite Hmbtp. simpl.
      repeat case_decide; naive_solver.
    - rewrite decide_False by naive_solver. done. }
  pose proof Hwf as Hwf0. destruct Hwf.
  split; rewrite ?Hfree, ?Hver, ?Htp, ?Hbuf; try done.
  - by rewrite Hmb, length_insert.
  - rewrite Hmb. apply Forall_insert; [done|].
    unfold Bitset.reset. rewrite length_insert.
    rewrite Forall_lookup in wf_bits_range0. by apply (wf_bits_range0 tp).
  - intros F g'. rewrite Hgr, map_lookup_imap.
    intros (g & HF & _)%bind_Some. eauto.
  - intros F g'. rewrite Hgr, map_lookup_imap, Hmb, length_insert.
    intros (g & HF & _)%bind_Some. eauto.
  - intros F g'. rewrite Hgr, map_lookup_imap.
    intros (g & HF & [= <-])%bind_Some.
    destruct (contains F tp); [apply SparseSetFacts.erase_NoDup|]; eauto.
  - intros F g'. rewrite Hgr, map_lookup_imap.
    intros (g & HF & [= <-])%bind_Some. intros id.
    rewrite (valid_ext w w') by done.
    destruct (contains F tp) eqn:HFtp.
    + apply BitsetFacts.contains_lookup in HFtp.
      rewrite SparseSetFacts.elem_of_erase by eauto.
      rewrite (wf_group_members0 F g HF id).
      destruct (decide (slot id = slot eid)) as [Hs|Hs].
      * split.
        -- intros [[Hvid _] Hne]. destruct Hne. by eapply valid_same_slot.
        -- intros [_ Hm]. specialize (Hm tp HFtp).
           rewrite Hbits, decide_True in Hm; done.
      * rewrite (filter_matches_ext (m_metabuffers w) (m_metabuffers w')).
        -- split; [naive_solver|]. intros [? ?]. split; [done|]. congruence.
        -- intros t _. rewrite Hbits, decide_False; naive_solver.
    + apply BitsetFacts.contains_false in HFtp.
      rewrite (wf_group_members0 F g HF id).
      rewrite (filter_matches_ext (m_metabuffers w) (m_metabuffers w')); [done|].
      intros t Ht. rewrite Hbits, decide_False; [done|]. naive_solver.
Qed.

Lemma mark_slot_length idx mb :
  length (mark_slot idx mb) = length mb `max` (idx + 1).
Proof.
  unfold mark_slot, Bitset.set, Bitset.resize, Bitset.size.
  rewrite length_insert. case_bool_decide; [rewrite length_resize|]; lia.
Qed.

Lemma mark_slot_contains idx mb i :
  contains (mark_slot idx mb) i =
  if decide (i = idx) then true else contains mb i.
Proof.
  unfold mark_slot, Bitset.set, Bitset.resize, Bitset.size.
  case_decide as Hi.
  - subst i. apply BitsetFacts.contains_lookup.
    apply list_lookup_insert_eq.
    case_bool_decide; [rewrite length_resize|]; lia.
  - destruct (contains mb i) eqn:Hc.
    + apply BitsetFacts.contains_lookup.
      apply BitsetFacts.contains_lookup in Hc.
      rewrite list_lookup_insert_ne by done.
      pose proof (lookup_lt_Some _ _ _ Hc).
      case_bool_decide; [|done]. rewrite lookup_resize by lia. done.
    + apply BitsetFacts.contains_false.
      apply BitsetFacts.contains_false in Hc.
      rewrite list_lookup_insert_ne by done.
      case_bool_decide; [|done].
      destruct (decide (i < length mb)).
      * by rewrite lookup_resize by lia.
      * destruct (decide (i < idx + 1)).
        -- by rewrite lookup_resize_new by lia.
        -- by rewrite lookup_resize_old by lia.
Qed.

Lemma assign_fields w T eid v w' :
  assign w T eid v = Some w' →
  ∃ w1 tp mb buffer,
    valid w eid = true
    ∧ has w T eid = Some false
    ∧ accommodate w T = Some (w1, tp)
    ∧ m_metabuffers w1 !! tp = Some mb
    ∧ m_buffers w1 !! tp = Some buffer
    ∧ m_free_list w' = m_free_list w1
    ∧ m_versions w' = m_versions w1
    ∧ m_type_positions w' = m_type_positions w1
    ∧ m_metabuffers w' = <[tp := mark_slot (slot eid) mb]> (m_metabuffers w1)
    ∧ m_buffers w' =
        <[tp := buffer_store buffer (slot eid) v]> (m_buffers w1)
    ∧ m_groups w' =
        map_imap (λ filter group,
                  Some (assign_group (m_metabuffers w') tp (slot eid) eid
                                     filter group))
                 (m_groups w1).
Proof.
  unfold assign. rewrite cassert_bind_Some. intros [Hv Hrest].
  apply bind_Some in Hrest as (b & Hhas & Hrest).
  apply cassert_bind_Some in Hrest as [Hb Hrest].
  destruct b; [done|].
  apply bind_Some in Hrest as ([w1 tp] & Hacc & Hrest).
  apply bind_Some in Hrest as (mb & Hmb & Hrest).
  apply bind_Some in Hrest as (buffer & Hbuf & [= <-]).
  exists w1, tp, mb, buffer. done.
Qed.

Lemma filter_has_all_spec mbs F idx :
  filter_has_all mbs F idx = true ↔ filter_matches mbs F idx.
Proof.
  unfold filter_has_all, filter_matches. rewrite forallb_forall.
  split; intros Hall t Ht; apply Hall.
  - by apply list_elem_of_In, BitsetFacts.elem_of_positions.
  - by apply BitsetFacts.elem_of_positions, list_elem_of_In.
Qed.

(** Before [assign<T>] the bit it is about to set is clear. *)
Lemma assign_bit_clear w T eid w1 tp :
  wf w → has w T eid = Some false → valid w eid = true →
  accommodate w T = Some (w1, tp) →
  contains (metabuffer_at (m_metabuffers w1) tp) (slot eid) = false.
Proof.
  intros Hwf Hhas Hv Hacc. unfold accommodate in Hacc.
  destruct (m_type_positions w !! T) as [q|] eqn:HT.
  - injection Hacc as <- <-.
    apply has_false in Hhas as [?|[?|(tp & mb & HT' & Hmb & Hc)]];
      [congruence..|].
    unfold metabuffer_at. rewrite HT in HT'. injection HT' as <-.
    by rewrite Hmb.
  - apply cassert_bind_Some in Hacc as [_ Hacc].
    apply cassert_bind_Some in Hacc as [_ [= <- <-]]. simpl.
    rewrite metabuffer_at_app_nil. unfold metabuffer_at.
    rewrite lookup_ge_None_2; [done|].
    by rewrite (wf_metabuffers_size w Hwf).
Qed.

Lemma assign_wf w T eid v w' : wf w → assign w T eid v = Some w' → wf w'.
Proof.
  intros Hwf (w1 & tp & mb & buffer & Hv & Hhas & Hacc & Hmbtp & Hbuftp
              & Hfree & Hver & Htp & Hmb & Hbuf & Hgr)%assign_fields.
  pose proof (accommodate_wf w T w1 tp Hwf Hacc) as Hwf1.
  pose proof (assign_bit_clear w T eid w1 tp Hwf Hhas Hv Hacc) as Hclear.
  apply accommodate_spec in Hacc as (_ & Hver1 & _).
  rewrite <- (valid_ext w w1) in Hv by done.
  assert (∀ t i, contains (metabuffer_at (m_metabuffers w') t) i =
                 if decide (t = tp ∧ i = slot eid) then true
                 else contains (metabuffer_at (m_metabuffers w1) t) i) as Hbits.
  { intros t i. rewrite Hmb, (metabuffer_at_insert _ _ mb) by done.
    destruct (decide (t = tp)) as [->|Ht].
    - rewrite mark_slot_contains. unfold metabuffer_at. rewrite Hmbtp. simpl.
      repeat case_decide; naive_solver.
    - rewrite decide_False by naive_solver. done. }
  assert (∀ F i, filter_matches (m_metabuffers w1) F i →
                 filter_matches (m_metabuffers w') F i) as Hmono.
  { intros F i Hm t Ht. rewrite Hbits. case_decide; [done|]. by apply Hm. }
  assert (∀ F i, i ≠ slot eid →
                 filter_matches (m_metabuffers w') F i ↔
                 filter_matches (m_metabuffers w1) F i) as Hother.
  { intros F i Hi. apply filter_matches_ext. intros t _.
    rewrite Hbits, decide_False; naive_solver. }
  pose proof Hwf1 as Hwf0. destruct Hwf1.
  split; rewrite ?Hfree, ?Hver, ?Htp; try done.
  - by rewrite Hmb, length_insert.
  - by rewrite Hbuf, length_insert.
  - rewrite Hmb. apply Forall_insert; [done|].
    rewrite mark_slot_length. rewrite Forall_lookup in wf_bits_range0.
    specialize (wf_bits_range0 tp mb Hmbtp). simpl in wf_bits_range0.
    apply valid_lookup, lookup_lt_Some in Hv. lia.
  - intros F g'. rewrite Hgr, map_lookup_imap.
    intros (g & HF & _)%bind_Some. eauto.
  - intros F g'. rewrite Hgr, map_lookup_imap.
    intros (g & HF & _)%bind_Some.
    rewrite Hmb, length_insert. eauto.
  - intros F g'. rewrite Hgr, map_lookup_imap.
    intros (g & HF & [= <-])%bind_Some. unfold assign_group.
    repeat case_match; eauto using SparseSetFacts.insert_NoDup.
  - intros F g'. rewrite Hgr, map_lookup_imap.
    intros (g & HF & [= <-])%bind_Some. intros id.
    rewrite (valid_ext w1 w') by done.
    pose proof (wf_group_members0 F g HF) as Hmem.
    assert (eid ∈ assign_group (m_metabuffers w') tp (slot eid) eid F g ↔
            filter_matches (m_metabuffers w') F (slot eid)) as Heid.
    { unfold assign_group.
      destruct (SparseSet.contains g eid) eqn:Hin.
      - apply SparseSetFacts.contains_true in Hin.
        split; [|done]. intros _. apply Hmono. by apply Hmem.
      - assert (eid ∉ g) as Hout.
        { intros ?%SparseSetFacts.contains_true. congruence. }
        destruct (contains F tp) eqn:HFtp; simpl.
        + destruct (filter_has_all (m_metabuffers w') F (slot eid)) eqn:Hall.
          * apply filter_has_all_spec in Hall.
            rewrite SparseSetFacts.elem_of_insert. naive_solver.
          * split; [done|]. intros Hall'%filter_has_all_spec. congruence.
        + split; [done|]. intros Hm. destruct Hout. apply Hmem.
          split; [done|].
          apply BitsetFacts.contains_false in HFtp.
          eapply filter_matches_ext; [|exact Hm].
          intros t Ht. rewrite Hbits, decide_False; [done|]. naive_solver. }
    destruct (decide (slot id = slot eid)) as [Hs|Hs].
    + rewrite Hs. split.
      * intros Hin. assert (id = eid) as ->.
        { unfold assign_group in Hin.
          assert (id ∈ g ∨ id = eid) as [Hg| ->]; [|
            apply Hmem in Hg as [Hvid _]; by eapply valid_same_slot|done].
          repeat case_match; auto.
          apply SparseSetFacts.elem_of_insert in Hin. naive_solver. }
        split; [done|]. by apply Heid.
      * intros [Hvid Hm]. assert (id = eid) as -> by (by eapply valid_same_slot).
        by apply Heid.
    + rewrite Hother by done. rewrite <- Hmem.
      unfold assign_group. repeat case_match; try done.
      rewrite SparseSetFacts.elem_of_insert. split; [|by auto].
      intros [->|?]; done.
Qed.

Lemma foldl_set_length tps b : length (foldl Bitset.set b tps) = length b.
Proof.
  revert b. induction tps as [|a tps IH]; intros b; simpl; [done|].
  rewrite IH. apply length_insert.
Qed.

Lemma foldl_set_lookup tps b t :
  foldl Bitset.set b tps !! t = Some true ↔
  b !! t = Some true ∨ (t ∈ tps ∧ t < length b).
Proof.
  revert b. induction tps as [|a tps IH]; intros b; simpl.
  - rewrite elem_of_nil. naive_solver.
  - rewrite IH, elem_of_cons. unfold Bitset.set. rewrite length_insert.
    destruct (decide (t = a)) as [->|Hne].
    + destruct (decide (a < length b)).
      * rewrite list_lookup_insert_eq by done. naive_solver.
      * rewrite list_insert_ge by lia. naive_solver lia.
    + rewrite list_lookup_insert_ne by done. naive_solver.
Qed.

Lemma make_filter_length tps : length (make_filter tps) = max_list tps + 1.
Proof. unfold make_filter. by rewrite foldl_set_length, length_replicate. Qed.

(** The filter has exactly the requested positions set. *)
Lemma make_filter_lookup tps t : make_filter tps !! t = Some true ↔ t ∈ tps.
Proof.
  unfold make_filter. rewrite foldl_set_lookup, length_replicate. split.
  - intros [Hr|[? _]]; [|done]. by apply lookup_replicate in Hr as [? _].
  - intros Ht. right. split; [done|].
    pose proof (max_list_elem_of_le _ _ Ht). lia.
Qed.

Lemma build_group_spec mbs tps vs (k : nat) g id :
  (Z.of_nat (k + length vs) ≤ Entity.u32_max)%Z →
  id ∈ build_group mbs tps vs (Z.of_nat k) g ↔
  id ∈ g
  ∨ ∃ j v, vs !! j = Some v
           ∧ id = Entity.make_entity v (Z.of_nat (k + j))
           ∧ ∀ tp, tp ∈ tps → contains (metabuffer_at mbs tp) (k + j) = true.
Proof.
  revert k g. induction vs as [|v vs IH]; intros k g Hk; simpl.
  - split; [by auto|]. by intros [?|(j & ? & ? & _)].
  - simpl in Hk. rewrite EntityFacts.wrap32_small by lia.
    replace (Z.of_nat k + 1)%Z with (Z.of_nat (S k)) by lia.
    rewrite IH by lia. rewrite Nat2Z.id.
    set (has_all := forallb _ tps).
    assert (has_all = true ↔
            ∀ tp, tp ∈ tps → contains (metabuffer_at mbs tp) k = true) as Hall.
    { unfold has_all. rewrite forallb_forall.
      by setoid_rewrite list_elem_of_In. }
    split.
    + intros [Hin|(j & v' & Hj & -> & Hbits)].
      * destruct has_all eqn:Hh; [|by auto].
        apply SparseSetFacts.elem_of_insert in Hin as [->|?]; [|by auto].
        right. exists 0, v. rewrite Nat.add_0_r. split_and!; [done..|].
        by apply Hall.
      * right. exists (S j), v'. replace (k + S j) with (S k + j) by lia.
        done.
    + intros [Hin|(j & v' & Hj & -> & Hbits)].
      * left. destruct has_all; [|done].
        apply SparseSetFacts.elem_of_insert. auto.
      * destruct j as [|j]; simpl in Hj.
        -- injection Hj as <-. rewrite Nat.add_0_r in *. left.
           rewrite (proj2 Hall Hbits).
           apply SparseSetFacts.elem_of_insert. auto.
        -- right. exists j, v'. replace (S k + j) with (k + S j) by lia.
           done.
Qed.

Lemma build_group_NoDup mbs tps vs (k : nat) g :
  (Z.of_nat (k + length vs) ≤ Entity.u32_max)%Z →
  NoDup g → NoDup (build_group mbs tps vs (Z.of_nat k) g).
Proof.
  revert k g. induction vs as [|v vs IH]; intros k g Hk Hnd; simpl; [done|].
  simpl in Hk. rewrite EntityFacts.wrap32_small by lia.
  replace (Z.of_nat k + 1)%Z with (Z.of_nat (S k)) by lia.
  apply IH; [lia|]. case_match; [|done].
  by apply SparseSetFacts.insert_NoDup.
Qed.

Lemma group_by_fields w tps w' F :
  group_by w tps = Some (w', F) →
  F = make_filter tps
  ∧ max_list tps < length (m_metabuffers w)
  ∧ m_free_list w' = m_free_list w
  ∧ m_versions w' = m_versions w
  ∧ m_type_positions w' = m_type_positions w
  ∧ m_metabuffers w' = m_metabuffers w
  ∧ m_buffers w' = m_buffers w
  ∧ ((is_Some (m_groups w !! F) ∧ w' = w)
     ∨ (m_groups w !! F = None
        ∧ m_groups w' =
            <[F := build_group (m_metabuffers w) tps (m_versions w) 0 []]>
              (m_groups w))).
Proof.
  unfold group_by. rewrite !cassert_bind_Some, !bool_decide_eq_true.
  intros (_ & Hmb & _ & Hrest).
  destruct (m_groups w !! make_filter tps) as [g|] eqn:Hg.
  - injection Hrest as <- <-. split_and!; try done. left. by rewrite Hg.
  - injection Hrest as <- <-. simpl. split_and!; try done. by right.
Qed.

Lemma group_by_wf w tps w' F :
  wf w → tps ≠ [] → group_by w tps = Some (w', F) → wf w'.
Proof.
  intros Hwf Hne (-> & Hmax & Hfree & Hver & Htp & Hmb & Hbuf & Hcase)
    %group_by_fields.
  destruct Hcase as [[_ ->]|[Hnew Hgr]]; [done|].
  pose proof Hwf as Hwf0. destruct Hwf.
  assert (Z.of_nat (0 + length (m_versions w)) ≤ Entity.u32_max)%Z as Hlen
    by (simpl; lia).
  split; rewrite ?Hfree, ?Hver, ?Htp, ?Hmb, ?Hbuf; try done.
  - intros F g. rewrite Hgr. destruct (decide (make_filter tps = F)) as [<-|HF].
    + intros _. destruct tps as [|tp tps]; [done|]. exists tp.
      apply make_filter_lookup. by left.
    + rewrite lookup_insert_ne by done. eauto.
  - intros F g. rewrite Hgr. destruct (decide (make_filter tps = F)) as [<-|HF].
    + intros _. rewrite make_filter_length. lia.
    + rewrite lookup_insert_ne by done. eauto.
  - intros F g. rewrite Hgr. destruct (decide (make_filter tps = F)) as [<-|HF].
    + rewrite lookup_insert_eq. intros [= <-].
      apply (build_group_NoDup _ _ _ 0); [done|]. constructor.
    + rewrite lookup_insert_ne by done. eauto.
  - intros F g. rewrite Hgr. destruct (decide (make_filter tps = F)) as [<-|HF].
    + rewrite lookup_insert_eq. intros [= <-] id.
      rewrite (valid_ext w w') by done.
      rewrite (build_group_spec _ _ _ 0) by done. rewrite elem_of_nil.
      split.
      * intros [[]|(j & v & Hj & -> & Hbits)]. simpl in *.
        pose proof (lookup_lt_Some _ _ _ Hj) as Hjlt.
        assert (Z.of_nat j < 2 ^ 32)%Z as Hj32
          by (unfold Entity.u32_max in *; lia).
        rewrite valid_make_entity, slot_make_entity by done.
        split; [done|]. intros t Ht%make_filter_lookup. auto.
      * intros [Hv Hm]. right. exists (slot id), (Entity.version_from_entity id).
        simpl. split_and!.
        -- by apply valid_lookup.
        -- by rewrite slot_index, EntityFacts.make_entity_split.
        -- intros tp Htp'. by apply Hm, make_filter_lookup.
    + rewrite lookup_insert_ne by done. intros Hg id.
      rewrite (valid_ext w w') by done. eauto.
Qed.

Lemma accommodate_all_wf w Ts w' tps :
  wf w → accommodate_all w Ts = Some (w', tps) →
  wf w' ∧ length tps = length Ts.
Proof.
  revert w w' tps. induction Ts as [|T Ts IH]; intros w w' tps Hwf; simpl.
  - by intros [= <- <-].
  - intros ([w1 tp] & Hacc & Hrest)%bind_Some.
    apply bind_Some in Hrest as ([w2 tps'] & Hall & [= <- <-]).
    apply accommodate_wf in Hacc; [|done].
    destruct (IH _ _ _ Hacc Hall) as [? ?]. simpl. auto.
Qed.

Lemma assign_defaults_wf w Ts eid w' :
  wf w → assign_defaults w Ts eid = Some w' → wf w'.
Proof.
  revert w. induction Ts as [|T Ts IH]; intros w Hwf; simpl.
  - by intros [= <-].
  - intros (w1 & Hassign & Hrest)%bind_Some.
    eauto using assign_wf.
Qed.

Lemma create_wf w Ts w' entity :
  wf w → create w Ts = Some (w', entity) → wf w'.
Proof.
  intros Hwf. unfold create. rewrite cassert_bind_Some. intros [_ Hrest].
  apply bind_Some in Hrest as ([w1 e] & Hcreate & Hrest).
  apply bind_Some in Hrest as (w2 & Hassign & [= <- <-]).
  eauto using create_entity_wf, assign_defaults_wf.
Qed.

Lemma remove_each_wf w Ts eid w' :
  wf w → remove_each w Ts eid = Some w' → wf w'.
Proof.
  revert w. induction Ts as [|T Ts IH]; intros w Hwf; simpl.
  - by intros [= <-].
  - intros (w1 & Hrem & Hrest)%bind_Some. eauto using remove1_wf.
Qed.

Lemma remove_wf w Ts eid w' : wf w → remove w Ts eid = Some w' → wf w'.
Proof.
  intros Hwf. unfold remove. destruct Ts as [|T [|T' Ts]]; [done|..].
  - by apply remove1_wf.
  - rewrite cassert_bind_Some. intros [_ Hrem]. by eapply remove_each_wf.
Qed.

Lemma assign_or_replace_wf w T eid v w' :
  wf w → assign_or_replace w T eid v = Some w' → wf w'.
Proof.
  intros Hwf. unfold assign_or_replace. rewrite cassert_bind_Some.
  intros [_ (b & Hhas & Hrest)%bind_Some]. destruct b; simpl in Hrest.
  - apply bind_Some in Hrest as (_ & _ & Hrest).
    apply bind_Some in Hrest as (tp & _ & Hrest).
    apply bind_Some in Hrest as (buffer & _ & [= <-]).
    destruct Hwf. split; simpl; try done. by rewrite length_insert.
  - by eapply assign_wf.
Qed.

Lemma clone_each_wf w Ts entity original w' :
  wf w → clone_each w Ts entity original = Some w' → wf w'.
Proof.
  revert w. induction Ts as [|T Ts IH]; intros w Hwf; simpl.
  - by intros [= <-].
  - intros (v & _ & Hrest)%bind_Some.
    apply bind_Some in Hrest as (w1 & Hassign & Hrest).
    eauto using assign_wf.
Qed.

Lemma clone_wf w Ts original w' entity :
  wf w → clone w Ts original = Some (w', entity) → wf w'.
Proof.
  intros Hwf. unfold clone. rewrite cassert_bind_Some. intros [_ Hrest].
  apply bind_Some in Hrest as ([w1 e] & Hcreate & Hrest).
  apply bind_Some in Hrest as (w2 & Hclone & [= <- <-]).
  eauto using create_entity_wf, clone_each_wf.
Qed.

Lemma reserve_wf w Ts w' : wf w → reserve w Ts = Some w' → wf w'.
Proof.
  intros Hwf. unfold reserve. rewrite cassert_bind_Some. intros [_ Hrest].
  apply fmap_Some in Hrest as ([w1 tps] & Hall & ->).
  by destruct (accommodate_all_wf _ _ _ _ Hwf Hall).
Qed.

Lemma view_wf w Ts w' handle :
  wf w → view w Ts = Some (w', handle) → wf w'.
Proof.
  intros Hwf. unfold view.
  rewrite cassert_bind_Some, bool_decide_eq_true. intros [[HTs _] Hrest].
  apply bind_Some in Hrest as ([w1 tps] & Hall & Hgroup).
  destruct (accommodate_all_wf _ _ _ _ Hwf Hall) as [Hwf1 Hlen].
  eapply group_by_wf; [done| |done].
  intros ->. by destruct Ts.
Qed.

Lemma empty_world_wf : wf (empty_world (V:=V)).
Proof.
  split; simpl; done.
Qed.

Lemma step_wf w o w' : wf w → step w o = Some w' → wf w'.
Proof.
  intros Hwf. destruct o; simpl.
  - intros ([w1 e] & Hc & ->)%fmap_Some. by eapply create_wf.
  - by apply destroy_wf.
  - by apply orphan_wf.
  - by apply assign_wf.
  - by apply assign_or_replace_wf.
  - by apply remove_wf.
  - intros ([w1 h] & Hc & ->)%fmap_Some. by eapply view_wf.
  - by apply reserve_wf.
  - intros ([w1 e] & Hc & ->)%fmap_Some. by eapply clone_wf.
Qed.

(** Every state a program can reach is well formed. *)
Lemma reachable_wf w : reachable w → wf w.
Proof.
  induction 1 as [|w o w' _ IH Hstep];
    [apply empty_world_wf|by eapply step_wf].
Qed.

Lemma run_reachable w ops w' :
  reachable w → run w ops = Some w' → reachable w'.
Proof.
  unfold run. revert w. induction ops as [|o ops IH]; intros w Hr; simpl.
  - by intros [= <-].
  - destruct (step w o) as [w1|] eqn:Hstep.
    + apply IH. by eapply reachable_step.
    + intros Hnone. exfalso. clear -Hnone.
      induction ops as [|o' ops IH']; simpl in *; [done|auto].
Qed.

(** [destroy] goes through exactly when its two assertions hold. *)
Lemma destroy_total w eid :
  valid w eid = true →
  (Entity.version_from_entity eid < Entity.u32_max)%Z →
  is_Some (destroy w eid).
Proof.
  intros Hv Hlt. unfold destroy, orphan. rewrite Hv.
  cbn [cassert mbind option_bind]. rewrite bool_decide_true by done.
  by eexists.
Qed.

Lemma destroy_invalid w eid : valid w eid = false → destroy w eid = None.
Proof. intros Hv. unfold destroy, orphan. by rewrite Hv. Qed.

Lemma max_list_subseteq (l1 l2 : list nat) :
  (∀ t, t ∈ l1 → t ∈ l2) → max_list l1 ≤ max_list l2.
Proof.
  induction l1 as [|a l1 IH]; intros Hsub; simpl; [lia|].
  apply Nat.max_lub.
  - apply max_list_elem_of_le, Hsub. by left.
  - apply IH. intros t Ht. apply Hsub. by right.
Qed.

(** The filter is a function of the set of requested positions. *)
Lemma make_filter_ext tps1 tps2 :
  (∀ t, t ∈ tps1 ↔ t ∈ tps2) → make_filter tps1 = make_filter tps2.
Proof.
  intros Hset.
  assert (max_list tps1 = max_list tps2) as Hmax.
  { apply Nat.le_antisymm; apply max_list_subseteq; intros t; apply Hset. }
  apply list_eq. intros t.
  destruct (make_filter tps1 !! t) as [b1|] eqn:H1;
    destruct (make_filter tps2 !! t) as [b2|] eqn:H2.
  - f_equal. destruct b1, b2; try done.
    + apply make_filter_lookup, Hset, make_filter_lookup in H1. congruence.
    + apply make_filter_lookup, Hset, make_filter_lookup in H2. congruence.
  - apply lookup_lt_Some in H1. apply lookup_ge_None in H2.
    rewrite make_filter_length in *. lia.
  - apply lookup_lt_Some in H2. apply lookup_ge_None in H1.
    rewrite make_filter_length in *. lia.
  - done.
Qed.

Lemma accommodate_registered w T tp :
  m_type_positions w !! T = Some tp → accommodate w T = Some (w, tp).
Proof. intros HT. unfold accommodate. by rewrite HT. Qed.

Lemma create_no_components w : create w [] = create_entity w.
Proof.
  unfold create. rewrite bool_decide_true by constructor.
  cbn [cassert mbind option_bind assign_defaults].
  by destruct (create_entity w) as [[w1 e]|].
Qed.

Lemma create_entity_pop w idx free ver :
  m_free_list w = idx :: free →
  m_versions w !! Z.to_nat idx = Some ver →
  create_entity w =
  Some (World free (m_versions w) (m_type_positions w) (m_metabuffers w)
              (m_buffers w) (m_groups w),
        Entity.make_entity ver idx).
Proof. intros Hfree Hver. unfold create_entity. by rewrite Hfree, Hver. Qed.

(** The world after [destroy], field by field, in terms of the world
    before. *)
Lemma destroy_result w eid w' :
  wf w → destroy w eid = Some w' →
  valid w eid = true
  ∧ m_free_list w' = Entity.index_from_entity eid :: m_free_list w
  ∧ m_versions w' =
      <[slot eid := (Entity.version_from_entity eid + 1)%Z]> (m_versions w)
  ∧ m_type_positions w' = m_type_positions w
  ∧ m_metabuffers w' = clear_slot (slot eid) <$> m_metabuffers w
  ∧ m_buffers w' = m_buffers w
  ∧ m_groups w' = (λ group, SparseSet.erase group eid) <$> m_groups w.
Proof.
  intros Hwf (w1 & Ho & Hlt & Hfree & Hver & Htp & Hmb & Hbuf & Hgr)
    %destroy_fields.
  apply orphan_fields in Ho as (Hv & Hfree1 & Hver1 & Htp1 & Hmb1 & Hbuf1 & Hgr1).
  pose proof (valid_version_range w eid Hwf Hv).
  rewrite EntityFacts.wrap32_small in Hver by lia.
  split_and!; congruence.
Qed.

Lemma presence_after_destroy w eid w' t :
  wf w → destroy w eid = Some w' → presence w' t (slot eid) = false.
Proof.
  intros Hwf (_ & _ & _ & _ & Hmb & _)%destroy_result; [|done].
  unfold presence. rewrite Hmb, metabuffer_at_clear_slot, clear_slot_contains.
  by rewrite decide_True.
Qed.

Lemma has_presence w T eid tp :
  wf w → m_type_positions w !! T = Some tp →
  has w T eid = Some (valid w eid && presence w tp (slot eid)).
Proof.
  intros Hwf HT. destruct (has_total w T eid Hwf) as [[] Hhas]; rewrite Hhas.
  - apply has_true in Hhas as (-> & tp' & mb & HT' & Hmb & Hc).
    assert (tp' = tp) as -> by congruence.
    unfold presence, metabuffer_at. rewrite Hmb. simpl. by rewrite Hc.
  - apply has_false in Hhas as [->|[?|(tp' & mb & HT' & Hmb & Hc)]];
      [done|congruence|].
    assert (tp' = tp) as -> by congruence.
    unfold presence, metabuffer_at. rewrite Hmb. simpl. rewrite Hc.
    by rewrite andb_false_r.
Qed.

Lemma has_unregistered w T eid :
  m_type_positions w !! T = None → has w T eid = Some false.
Proof. intros HT. apply has_false. auto. Qed.

Lemma has_invalid w T eid : valid w eid = false → has w T eid = Some false.
Proof. intros Hv. apply has_false. auto. Qed.

Lemma remove1_total w T id :
  has w T id = Some true → is_Some (remove1 w T id).
Proof.
  intros Hhas. unfold remove1. rewrite Hhas.
  apply has_true in Hhas as (Hv & tp & mb & HT & Hmb & Hc).
  rewrite Hv. cbn [cassert mbind option_bind]. rewrite HT.
  cbn [mbind option_bind]. rewrite Hmb. cbn [mbind option_bind].
  apply BitsetFacts.contains_lookup, lookup_lt_Some in Hc.
  rewrite bool_decide_true by done. by eexists.
Qed.

Lemma max_list_lt (l : list nat) n :
  l ≠ [] → (∀ t, t ∈ l → t < n) → max_list l < n.
Proof.
  induction l as [|a l IH]; intros Hne Hall; [done|]. simpl.
  assert (a < n) by (apply Hall; by left).
  destruct l as [|b l]; [simpl; lia|].
  apply Nat.max_lub_lt; [done|]. apply IH; [done|].
  intros t Ht. apply Hall. by right.
Qed.

(** On a well-formed world [group_by] passes its assertions when the
    positions are registered; a cached group is returned as it is. *)
Lemma group_by_run w tps :
  wf w → tps ≠ [] →
  (∀ t, t ∈ tps → t < size (m_type_positions w)) →
  ∃ w', group_by w tps = Some (w', make_filter tps)
        ∧ is_Some (m_groups w' !! make_filter tps)
        ∧ m_type_positions w' = m_type_positions w
        ∧ (is_Some (m_groups w !! make_filter tps) → w' = w).
Proof.
  intros Hwf Hne Hall. pose proof (max_list_lt tps _ Hne Hall) as Hmax.
  unfold group_by.
  rewrite (bool_decide_true (_ < size _)) by done.
  rewrite (bool_decide_true (_ < length (m_metabuffers w)))
    by (by rewrite (wf_metabuffers_size w Hwf)).
  rewrite (bool_decide_true (_ < length (m_buffers w)))
    by (by rewrite (wf_buffers_size w Hwf)).
  cbn [cassert mbind option_bind].
  destruct (m_groups w !! make_filter tps) as [g|] eqn:Hg.
  - exists w. rewrite Hg. eauto.
  - eexists. split; [done|]. fields. rewrite lookup_insert_eq.
    split_and!; [by eauto|done|]. by intros [? ?].
Qed.

End WorldFacts.

(** ** Concrete worlds are reachable *)

Lemma demo_world_reachable : reachable Scenario.demo_world.
Proof.
  apply (run_reachable empty_world Scenario.demo_ops); [constructor|].
  by vm_compute.
Qed.

Lemma owner_world_reachable : reachable Scenario.owner_world.
Proof.
  apply (run_reachable empty_world Scenario.owner_ops); [constructor|].
  by vm_compute.
Qed.

Lemma world_eq {V} (w : world V) fl vs tps mbs bufs grs :
  m_free_list w = fl → m_versions w = vs → m_type_positions w = tps →
  m_metabuffers w = mbs → m_buffers w = bufs → m_groups w = grs →
  w = World fl vs tps mbs bufs grs.
Proof. destruct w. simpl. by intros -> -> -> -> -> ->. Qed.

(** One more round of [destroy] and [create] on slot 0. *)
Lemma cycled_world_step ver rest :
  (0 ≤ ver < Entity.u32_max)%Z →
  reachable (Scenario.cycled_world ver rest) →
  reachable (Scenario.cycled_world (ver + 1) rest).
Proof.
  intros Hver Hr. pose proof (reachable_wf _ Hr) as Hwf.
  set (w := Scenario.cycled_world ver rest) in *.
  set (e := Entity.make_entity ver 0).
  assert (valid w e = true) as Hv.
  { apply (valid_make_entity w ver 0); [lia|done]. }
  assert (Entity.version_from_entity e = ver) as He
    by (by apply EntityFacts.version_make_entity).
  assert (Entity.index_from_entity e = 0%Z) as Hi
    by (by apply EntityFacts.index_make_entity).
  assert (slot e = 0) as Hs by (unfold slot; by rewrite Hi).
  destruct (destroy_total w e) as [w1 Hd]; [done|lia|].
  pose proof (destroy_result w e w1 Hwf Hd)
    as (_ & Hfree & Hvers & Htp & Hmb & Hbuf & Hgr).
  rewrite Hi in Hfree. rewrite Hs, He in Hvers.
  apply (reachable_step w1 (OpCreate [])
           (Scenario.cycled_world (ver + 1) rest)).
  { by apply (reachable_step w (OpDestroy e)). }
  cbn [step]. rewrite create_no_components.
  rewrite (create_entity_pop w1 0%Z [] (ver + 1)%Z); [|done|by rewrite Hvers].
  cbn [fmap option_fmap option_map fst]. f_equal. symmetry.
  apply world_eq; fields; done.
Qed.

Lemma cycled_world_reachable ver rest :
  (0 ≤ ver ≤ Entity.u32_max)%Z →
  reachable (Scenario.cycled_world 0 rest) →
  reachable (Scenario.cycled_world ver rest).
Proof.
  intros [Hpos Hmax] Hbase. revert Hmax.
  pattern ver. apply natlike_ind; [done| |done].
  intros x Hx IH Hmax. replace (Z.succ x) with (x + 1)%Z by lia.
  apply cycled_world_step; [lia|]. apply IH. lia.
Qed.

Lemma last_version_world_reachable : reachable Scenario.last_version_world.
Proof.
  apply cycled_world_reachable; [done|].
  apply (run_reachable empty_world [OpCreate []]); [constructor|].
  by vm_compute.
Qed.

Lemma last_version_pair_reachable : reachable Scenario.last_version_pair.
Proof.
  apply cycled_world_reachable; [done|].
  apply (run_reachable empty_world [OpCreate []; OpCreate []]); [constructor|].
  by vm_compute.
Qed.

(** * The properties of the specification *)

Section Claims.
Context {V : Type} `{!Inhabited V}.
Implicit Types (w : world V) (eid : Z) (T : type_index).

(** C1 -- Group correctness.  In every state a program can reach, each
    cached group [F ↦ g] holds exactly the identifiers that are valid and
    whose slot has the presence bit of every position of [F] set.  The
    state is any state reached through the public interface, so the group
    may have been requested before or after the components were
    assigned. *)
Theorem group_correctness w (F : list bool) (g : list Z) (id : Z) :
  reachable w →
  m_groups w !! F = Some g →
  id ∈ g ↔
  valid w id = true
  ∧ ∀ t, contains F t = true → presence w t (slot id) = true.
Proof.
  intros Hwf%reachable_wf HF.
  rewrite (wf_group_members w Hwf F g HF id). unfold filter_matches, presence.
  by setoid_rewrite BitsetFacts.contains_lookup at 2.
Qed.

(** C9 -- [has<T>(id)] always answers; the answer is [true] exactly when
    [id] is valid and the presence bit of [T] at its slot is set, that is,
    the bitset stored for [T] in [m_metabuffers] reaches the index of [id]
    and holds a set bit there; the answer is [false] for an invalid
    identifier and for a type the world has not registered. *)
Theorem has_is_valid_and_present w T id :
  reachable w →
  ∃ b, has w T id = Some b
       ∧ (b = true ↔
          valid w id = true
          ∧ ∃ tp mb, m_type_positions w !! T = Some tp
                     ∧ m_metabuffers w !! tp = Some mb
                     ∧ mb !! slot id = Some true)
       ∧ (valid w id = false → b = false)
       ∧ (m_type_positions w !! T = None → b = false).
Proof.
  intros Hwf%reachable_wf.
  destruct (has_total w T id Hwf) as [b Hhas]. exists b.
  split; [done|]. split_and!.
  - split.
    + intros ->. apply has_true in Hhas as (Hv & tp & mb & HT & Hmb & Hc).
      split; [done|]. exists tp, mb. split_and!; [done..|].
      by apply BitsetFacts.contains_lookup.
    + intros (Hv & tp & mb & HT & Hmb & Hbit).
      assert (has w T id = Some true) as Htrue.
      { apply has_true. split; [done|]. exists tp, mb. split_and!; [done..|].
        by apply BitsetFacts.contains_lookup. }
      congruence.
  - intros Hv. rewrite (has_invalid w T id Hv) in Hhas. congruence.
  - intros HT. rewrite (has_unregistered w T id HT) in Hhas. congruence.
Qed.

(** C2 (as the code has it) -- Round-trip recycling.  For a valid entity
    whose version is below [0xFFFFFFFF], the bound [destroy] asserts,
    [destroy(e)] followed at once by [create()] returns an identifier with
    the index of [e] and the version of [e] plus one; [e] is no longer
    valid, the new identifier is, and the new identifier has no component
    of any type. *)
Theorem destroy_create_recycles w e :
  reachable w →
  valid w e = true →
  (Entity.version_from_entity e < Entity.u32_max)%Z →
  ∃ w1 w2 e',
    destroy w e = Some w1
    ∧ create w1 [] = Some (w2, e')
    ∧ Entity.index_from_entity e' = Entity.index_from_entity e
    ∧ Entity.version_from_entity e' = (Entity.version_from_entity e + 1)%Z
    ∧ valid w2 e = false
    ∧ valid w2 e' = true
    ∧ ∀ T, has w2 T e' = Some false.
Proof.
  intros Hwf%reachable_wf Hv Hlt.
  destruct (destroy_total w e Hv Hlt) as [w1 Hd].
  pose proof (destroy_wf w e w1 Hwf Hd) as Hwf1.
  pose proof (λ t, presence_after_destroy w e w1 t Hwf Hd) as Hclear.
  apply destroy_result in Hd as Hres; [|done].
  destruct Hres as (_ & Hfree & Hver & Htp & Hmb & Hbuf & Hgr).
  pose proof (EntityFacts.index_from_entity_range e) as Hidx.
  apply valid_lookup in Hv. pose proof (lookup_lt_Some _ _ _ Hv) as Hslot.
  assert (m_versions w1 !! slot e = Some (Entity.version_from_entity e + 1)%Z)
    as Hnew by (by rewrite Hver, list_lookup_insert_eq).
  set (e' := Entity.make_entity (Entity.version_from_entity e + 1)
                                (Entity.index_from_entity e)).
  assert (slot e' = slot e) as Hslot'.
  { unfold slot, e'. by rewrite EntityFacts.index_make_entity. }
  eexists w1, _, e'. split; [done|]. split.
  { rewrite create_no_components. by apply create_entity_pop. }
  assert (valid (World (m_free_list w) (m_versions w1) (m_type_positions w1)
                       (m_metabuffers w1) (m_buffers w1) (m_groups w1)) e'
          = true) as Hv'.
  { apply valid_lookup. fields. rewrite Hslot'. unfold e'.
    by rewrite EntityFacts.version_make_entity. }
  split_and!.
  - by apply EntityFacts.index_make_entity.
  - by apply EntityFacts.version_make_entity.
  - apply not_true_is_false. rewrite valid_lookup. fields. rewrite Hnew.
    intros [= ?]. lia.
  - done.
  - intros T.
    assert (wf (World (m_free_list w) (m_versions w1) (m_type_positions w1)
                      (m_metabuffers w1) (m_buffers w1) (m_groups w1))) as Hwf2.
    { eapply create_entity_wf; [exact Hwf1|]. by apply create_entity_pop. }
    destruct (m_type_positions w1 !! T) as [tp|] eqn:HT.
    + rewrite (has_presence _ T e' tp) by done. rewrite Hv'. fields.
      unfold presence at 1. fields. rewrite Hslot'. f_equal. apply Hclear.
    + by apply has_unregistered.
Qed.

(** C6 (as the code has it) -- The free list is a stack.  For two distinct
    valid entities whose versions are below [0xFFFFFFFF], the bound
    [destroy] asserts, after [destroy(e1)] and [destroy(e2)] the next
    [create()] reuses the index of [e2] and the one after it reuses the
    index of [e1]. *)
Theorem free_list_is_lifo w e1 e2 :
  reachable w →
  valid w e1 = true →
  valid w e2 = true →
  e1 ≠ e2 →
  (Entity.version_from_entity e1 < Entity.u32_max)%Z →
  (Entity.version_from_entity e2 < Entity.u32_max)%Z →
  ∃ w1 w2 w3 w4 id1 id2,
    destroy w e1 = Some w1
    ∧ destroy w1 e2 = Some w2
    ∧ create w2 [] = Some (w3, id1)
    ∧ create w3 [] = Some (w4, id2)
    ∧ Entity.index_from_entity id1 = Entity.index_from_entity e2
    ∧ Entity.index_from_entity id2 = Entity.index_from_entity e1.
Proof.
  intros Hwf%reachable_wf Hv1 Hv2 Hne Hlt1 Hlt2.
  assert (slot e1 ≠ slot e2) as Hslots.
  { intros Hs. apply Hne. by eapply valid_same_slot. }
  pose proof (EntityFacts.index_from_entity_range e1) as Hidx1.
  pose proof (EntityFacts.index_from_entity_range e2) as Hidx2.
  destruct (destroy_total w e1 Hv1 Hlt1) as [w1 Hd1].
  pose proof (destroy_wf w e1 w1 Hwf Hd1) as Hwf1.
  pose proof (destroy_result w e1 w1 Hwf Hd1)
    as (_ & Hfree1 & Hver1 & _).
  apply valid_lookup in Hv1, Hv2.
  pose proof (lookup_lt_Some _ _ _ Hv1) as Hlen1.
  pose proof (lookup_lt_Some _ _ _ Hv2) as Hlen2.
  assert (valid w1 e2 = true) as Hv2'.
  { apply valid_lookup. by rewrite Hver1, list_lookup_insert_ne. }
  destruct (destroy_total w1 e2 Hv2' Hlt2) as [w2 Hd2].
  pose proof (destroy_result w1 e2 w2 Hwf1 Hd2)
    as (_ & Hfree2 & Hver2 & _).
  assert (m_versions w2 !! slot e2 =
          Some (Entity.version_from_entity e2 + 1)%Z) as Hnew2.
  { rewrite Hver2, list_lookup_insert_eq; [done|].
    by rewrite Hver1, length_insert. }
  assert (m_versions w2 !! slot e1 =
          Some (Entity.version_from_entity e1 + 1)%Z) as Hnew1.
  { rewrite Hver2, list_lookup_insert_ne by done.
    by rewrite Hver1, list_lookup_insert_eq. }
  rewrite Hfree1 in Hfree2.
  eexists w1, w2, _, _, _, _. split_and!; [done|done|..].
  - rewrite create_no_components. by eapply create_entity_pop.
  - rewrite create_no_components. by eapply create_entity_pop.
  - by apply EntityFacts.index_make_entity.
  - by apply EntityFacts.index_make_entity.
Qed.

(** C3 (as the code has it) -- [destroy] on an identifier that is not valid
    fails its assertion.  On a valid entity whose version is below
    [0xFFFFFFFF] it erases the entity from every cached group, once
    per group, so that no group contains it afterwards; it clears the
    presence bit of every type at the entity's slot; it leaves the component
    buffers as they are, the stored values are removed logically only; it
    bumps the version of the slot and pushes the index on the free list. *)
Theorem destroy_effects w e :
  reachable w →
  (valid w e = false → destroy w e = None)
  ∧ (valid w e = true →
     (Entity.version_from_entity e < Entity.u32_max)%Z →
     ∃ w', destroy w e = Some w'
           ∧ (∀ F g, m_groups w !! F = Some g →
                     m_groups w' !! F = Some (SparseSet.erase g e))
           ∧ (∀ F g', m_groups w' !! F = Some g' → e ∉ g')
           ∧ (∀ t, presence w' t (slot e) = false)
           ∧ m_buffers w' = m_buffers w
           ∧ m_versions w' !! slot e =
               Some (Entity.version_from_entity e + 1)%Z
           ∧ m_free_list w' = Entity.index_from_entity e :: m_free_list w).
Proof.
  intros Hwf%reachable_wf. split; [apply destroy_invalid|].
  intros Hv Hlt. destruct (destroy_total w e Hv Hlt) as [w' Hd].
  exists w'. split; [done|].
  pose proof (destroy_result w e w' Hwf Hd)
    as (_ & Hfree & Hver & _ & _ & Hbuf & Hgr).
  split_and!; try done.
  - intros F g HF. by rewrite Hgr, lookup_fmap, HF.
  - intros F g'. rewrite Hgr, lookup_fmap.
    intros (g & HF & ->)%fmap_Some.
    apply SparseSetFacts.not_elem_of_erase. by eapply wf_group_nodup.
  - intros t. by eapply presence_after_destroy.
  - rewrite Hver. apply list_lookup_insert_eq.
    apply valid_lookup in Hv. by eapply lookup_lt_Some.
Qed.

(** C4 -- [remove<T>] and what it leaves alone.  When [has<T>(id)] holds,
    [remove<T>(id)] clears the presence bit of [T] at the slot of [id] and
    erases [id] from every cached group whose filter contains the position
    of [T], whatever the other positions of the filter say; every other
    group keeps its entities, no group appears, and every other presence
    bit (of another type, or of [T] at another slot) keeps its value. *)
Theorem remove_frame w T id :
  reachable w →
  has w T id = Some true →
  ∃ w' tp,
    m_type_positions w !! T = Some tp
    ∧ remove w [T] id = Some w'
    ∧ presence w' tp (slot id) = false
    ∧ (∀ F g, m_groups w !! F = Some g →
              m_groups w' !! F =
              Some (if contains F tp then SparseSet.erase g id else g))
    ∧ (∀ F g', m_groups w' !! F = Some g' → contains F tp = true → id ∉ g')
    ∧ (∀ F, m_groups w !! F = None → m_groups w' !! F = None)
    ∧ (∀ t i, t ≠ tp ∨ i ≠ slot id → presence w' t i = presence w t i).
Proof.
  intros Hwf%reachable_wf Hhas.
  destruct (remove1_total w T id Hhas) as [w' Hrem].
  pose proof (remove1_fields w T id w' Hrem)
    as (tp & mb & Hv & HT & Hmb & Hc & _ & _ & _ & Hmbs & _ & Hgr).
  exists w', tp. split_and!; try done.
  - unfold presence.
    rewrite Hmbs, (metabuffer_at_insert _ _ mb) by done.
    rewrite decide_True by done. rewrite reset_contains.
    by rewrite decide_True.
  - intros F g HF. by rewrite Hgr, map_lookup_imap, HF.
  - intros F g'. rewrite Hgr, map_lookup_imap.
    intros (g & HF & [= <-])%bind_Some Hin. rewrite Hin.
    apply SparseSetFacts.not_elem_of_erase. by eapply wf_group_nodup.
  - intros F HF. by rewrite Hgr, map_lookup_imap, HF.
  - intros t i Hother. unfold presence.
    rewrite Hmbs, (metabuffer_at_insert _ _ mb) by done.
    destruct (decide (t = tp)) as [->|Ht]; [|done].
    rewrite reset_contains. destruct Hother as [?|Hi]; [done|].
    rewrite decide_False by done. unfold metabuffer_at. by rewrite Hmb.
Qed.

(** C5 -- The order of the requested types does not matter.  The filter is
    a function of the set of requested positions; and when [view<A,B>()] is
    followed by [view<B,A>()], the second request returns the very group
    entry of the first (the same key of [m_groups]) and leaves the world as
    it is, so both views show the same entities and the same size. *)
Theorem view_order_insensitive w A B :
  reachable w →
  A ≠ B →
  (∀ tps1 tps2 : list nat,
     (∀ t, t ∈ tps1 ↔ t ∈ tps2) → make_filter tps1 = make_filter tps2)
  ∧ ∃ w1 h1 w2 h2,
      view w [A; B] = Some (w1, h1)
      ∧ view w1 [B; A] = Some (w2, h2)
      ∧ h2 = h1
      ∧ w2 = w1
      ∧ is_Some (m_groups w2 !! h1)
      ∧ view_entities w2 h2 = view_entities w2 h1
      ∧ view_size w2 h2 = view_size w2 h1.
Proof.
  intros Hwf%reachable_wf Hne. split; [apply make_filter_ext|].
  destruct (accommodate_total w A Hwf) as (wa & pa & Ha).
  pose proof (accommodate_wf w A wa pa Hwf Ha) as Hwfa.
  destruct (accommodate_total wa B Hwfa) as (wab & pb & Hb).
  pose proof (accommodate_wf wa B wab pb Hwfa Hb) as Hwfab.
  pose proof (accommodate_spec w A wa pa Ha) as (HA & _).
  pose proof (accommodate_spec wa B wab pb Hb) as (HB & _ & _ & _ & _ & Hmono & _).
  apply Hmono in HA.
  pose proof (wf_positions wab Hwfab A pa HA) as Hpa.
  pose proof (wf_positions wab Hwfab B pb HB) as Hpb.
  destruct (group_by_run wab [pa; pb] Hwfab) as (w1 & Hg1 & Hsome & Htp1 & _);
    [done| |].
  { intros t [->|[->|[]%elem_of_nil]%elem_of_cons]%elem_of_cons; done. }
  assert (view w [A; B] = Some (w1, make_filter [pa; pb])) as Hview1.
  { unfold view. rewrite bool_decide_true.
    - cbn [cassert mbind option_bind accommodate_all]. rewrite Ha.
      cbn [mbind option_bind]. rewrite Hb. by cbn [mbind option_bind].
    - split; [done|]. apply NoDup_cons. split; [|apply NoDup_singleton].
      by intros ->%list_elem_of_singleton. }
  pose proof (view_wf w [A; B] w1 _ Hwf Hview1) as Hwf1.
  rewrite <- Htp1 in HA, HB, Hpa, Hpb.
  assert (make_filter [pb; pa] = make_filter [pa; pb]) as Hsame.
  { apply make_filter_ext. intros t. rewrite !elem_of_cons. tauto. }
  destruct (group_by_run w1 [pb; pa] Hwf1) as (w2 & Hg2 & _ & _ & Hcached);
    [done| |].
  { intros t [->|[->|[]%elem_of_nil]%elem_of_cons]%elem_of_cons; done. }
  rewrite Hsame in Hg2, Hcached. specialize (Hcached Hsome). subst w2.
  exists w1, (make_filter [pa; pb]), w1, (make_filter [pa; pb]).
  split_and!; try done.
  unfold view. rewrite bool_decide_true.
  - cbn [cassert mbind option_bind accommodate_all].
    rewrite (accommodate_registered w1 B pb HB). cbn [mbind option_bind].
    rewrite (accommodate_registered w1 A pa HA). by cbn [mbind option_bind].
  - split; [done|]. apply NoDup_cons. split; [|apply NoDup_singleton].
    by intros ->%list_elem_of_singleton.
Qed.

End Claims.

(** Witness of C1: the group of [{C0}] in the demonstration world. *)
Lemma group_correctness_witness :
  2%Z ∈ [0; 2; 1]%Z ↔
  valid Scenario.demo_world 2%Z = true
  ∧ ∀ t, contains [true] t = true →
         presence Scenario.demo_world t (slot 2%Z) = true.
Proof.
  apply (group_correctness Scenario.demo_world [true] [0; 2; 1]%Z 2%Z).
  - apply demo_world_reachable.
  - vm_compute. reflexivity.
Defined.

(** Witness of C9: entity 1 and component type [C1] in the demonstration
    world. *)
Lemma has_is_valid_and_present_witness :
  ∃ b, has Scenario.demo_world Scenario.C1 1%Z = Some b
       ∧ (b = true ↔
          valid Scenario.demo_world 1%Z = true
          ∧ ∃ tp mb,
              m_type_positions Scenario.demo_world !! Scenario.C1 = Some tp
              ∧ m_metabuffers Scenario.demo_world !! tp = Some mb
              ∧ mb !! slot 1%Z = Some true)
       ∧ (valid Scenario.demo_world 1%Z = false → b = false)
       ∧ (m_type_positions Scenario.demo_world !! Scenario.C1 = None → b = false).
Proof.
  apply (has_is_valid_and_present Scenario.demo_world Scenario.C1 1%Z).
  apply demo_world_reachable.
Defined.

(** Witness of C2: entity 2 of the demonstration world, which owns both
    component types. *)
Lemma destroy_create_recycles_witness :
  ∃ w1 w2 e',
    destroy Scenario.demo_world 2%Z = Some w1
    ∧ create w1 [] = Some (w2, e')
    ∧ Entity.index_from_entity e' = Entity.index_from_entity 2%Z
    ∧ Entity.version_from_entity e' = (Entity.version_from_entity 2%Z + 1)%Z
    ∧ valid w2 2%Z = false
    ∧ valid w2 e' = true
    ∧ ∀ T, has w2 T e' = Some false.
Proof.
  apply (destroy_create_recycles Scenario.demo_world 2%Z).
  - apply demo_world_reachable.
  - vm_compute. reflexivity.
  - vm_compute. reflexivity.
Defined.

(** Counterexample to C2 as stated: slot 0 has been recycled up to version
    [0xFFFFFFFF].  Its entity is valid, and [destroy] fails the assertion
    [ver < 0xFFFFFFFF]: no [create()] follows and no identifier of the next
    version exists. *)
Lemma destroy_create_stops_at_last_version :
  reachable Scenario.last_version_world
  ∧ valid Scenario.last_version_world Scenario.last_version_id = true
  ∧ Entity.version_from_entity Scenario.last_version_id = Entity.u32_max
  ∧ destroy Scenario.last_version_world Scenario.last_version_id = None.
Proof.
  split; [apply last_version_world_reachable|]. split_and!; by vm_compute.
Qed.

(** Counterexample to C6 as stated: two valid entities, the first at version
    [0xFFFFFFFF]; [destroy] of the first fails its assertion, so nothing is
    pushed on the free list and nothing is reused. *)
Lemma free_list_stops_at_last_version :
  reachable Scenario.last_version_pair
  ∧ valid Scenario.last_version_pair Scenario.last_version_id = true
  ∧ valid Scenario.last_version_pair 1%Z = true
  ∧ Scenario.last_version_id ≠ 1%Z
  ∧ destroy Scenario.last_version_pair Scenario.last_version_id = None.
Proof.
  split; [apply last_version_pair_reachable|]. split_and!; by vm_compute.
Qed.

(** Witness of C6: entities 0 and 2 of the demonstration world. *)
Lemma free_list_is_lifo_witness :
  ∃ w1 w2 w3 w4 id1 id2,
    destroy Scenario.demo_world 0%Z = Some w1
    ∧ destroy w1 2%Z = Some w2
    ∧ create w2 [] = Some (w3, id1)
    ∧ create w3 [] = Some (w4, id2)
    ∧ Entity.index_from_entity id1 = Entity.index_from_entity 2%Z
    ∧ Entity.index_from_entity id2 = Entity.index_from_entity 0%Z.
Proof.
  apply (free_list_is_lifo Scenario.demo_world 0%Z 2%Z).
  - apply demo_world_reachable.
  - vm_compute. reflexivity.
  - vm_compute. reflexivity.
  - discriminate.
  - vm_compute. reflexivity.
  - vm_compute. reflexivity.
Defined.

(** Witness of the amended C3: entity 2 of the demonstration world, a
    member of both cached groups. *)
Lemma destroy_effects_witness :
  (valid Scenario.demo_world 2%Z = false → destroy Scenario.demo_world 2%Z = None)
  ∧ (valid Scenario.demo_world 2%Z = true →
     (Entity.version_from_entity 2%Z < Entity.u32_max)%Z →
     ∃ w', destroy Scenario.demo_world 2%Z = Some w'
           ∧ (∀ F g, m_groups Scenario.demo_world !! F = Some g →
                     m_groups w' !! F = Some (SparseSet.erase g 2%Z))
           ∧ (∀ F g', m_groups w' !! F = Some g' → 2%Z ∉ g')
           ∧ (∀ t, presence w' t (slot 2%Z) = false)
           ∧ m_buffers w' = m_buffers Scenario.demo_world
           ∧ m_versions w' !! slot 2%Z =
               Some (Entity.version_from_entity 2%Z + 1)%Z
           ∧ m_free_list w' =
               Entity.index_from_entity 2%Z :: m_free_list Scenario.demo_world).
Proof.
  apply (destroy_effects Scenario.demo_world 2%Z).
  apply demo_world_reachable.
Defined.

(** Counterexample to C3 as stated, in two parts.  Entity 0 owns a
    component holding 42; [destroy] goes through and the buffer of the type
    still holds 42 at the slot of the entity: no component value is
    destructed, [orphan] clears presence bits and nothing else.  And a valid
    entity at version [0xFFFFFFFF] is not destroyed at all: [destroy] fails
    the assertion on the version, which is not bumped. *)
Lemma destroy_keeps_component_values :
  (reachable Scenario.owner_world
   ∧ valid Scenario.owner_world 0%Z = true
   ∧ has Scenario.owner_world Scenario.C0 0%Z = Some true
   ∧ get Scenario.owner_world Scenario.C0 0%Z = Some 42%Z
   ∧ destroy Scenario.owner_world 0%Z = Some Scenario.owner_destroyed
   ∧ m_buffers Scenario.owner_destroyed = m_buffers Scenario.owner_world
   ∧ m_buffers Scenario.owner_destroyed !! 0 = Some [42%Z])
  ∧ (reachable Scenario.last_version_world
     ∧ valid Scenario.last_version_world Scenario.last_version_id = true
     ∧ orphan Scenario.last_version_world Scenario.last_version_id
         = Some Scenario.last_version_world
     ∧ destroy Scenario.last_version_world Scenario.last_version_id = None).
Proof.
  split.
  - split; [apply owner_world_reachable|]. split_and!; by vm_compute.
  - split; [apply last_version_world_reachable|]. split_and!; by vm_compute.
Qed.

(** Witness of C4: entity 1 and component type [C0] in the demonstration
    world. *)
Lemma remove_frame_witness :
  ∃ w' tp,
    m_type_positions Scenario.demo_world !! Scenario.C0 = Some tp
    ∧ remove Scenario.demo_world [Scenario.C0] 1%Z = Some w'
    ∧ presence w' tp (slot 1%Z) = false
    ∧ (∀ F g, m_groups Scenario.demo_world !! F = Some g →
              m_groups w' !! F =
              Some (if contains F tp then SparseSet.erase g 1%Z else g))
    ∧ (∀ F g', m_groups w' !! F = Some g' → contains F tp = true → 1%Z ∉ g')
    ∧ (∀ F, m_groups Scenario.demo_world !! F = None → m_groups w' !! F = None)
    ∧ (∀ t i, t ≠ tp ∨ i ≠ slot 1%Z →
              presence w' t i = presence Scenario.demo_world t i).
Proof.
  apply (remove_frame Scenario.demo_world Scenario.C0 1%Z).
  - apply demo_world_reachable.
  - vm_compute. reflexivity.
Defined.

(** Witness of C5: the two component types of the demonstration world. *)
Lemma view_order_insensitive_witness :
  (∀ tps1 tps2 : list nat,
     (∀ t, t ∈ tps1 ↔ t ∈ tps2) → make_filter tps1 = make_filter tps2)
  ∧ ∃ w1 h1 w2 h2,
      view Scenario.demo_world [Scenario.C0; Scenario.C1] = Some (w1, h1)
      ∧ view w1 [Scenario.C1; Scenario.C0] = Some (w2, h2)
      ∧ h2 = h1
      ∧ w2 = w1
      ∧ is_Some (m_groups w2 !! h1)
      ∧ view_entities w2 h2 = view_entities w2 h1
      ∧ view_size w2 h2 = view_size w2 h1.
Proof.
  apply (view_order_insensitive Scenario.demo_world Scenario.C0 Scenario.C1).
  - apply demo_world_reachable.
  - discriminate.
Defined.

(** C7 -- The scenario of the specification.  With the views of [{C0}],
    [{C1}] and [{C0,C1}] requested first and 100 entities created without
    components: once [C0] is assigned to all of them the [{C0}] view has
    100 entities and the [{C0,C1}] view none; once [C1] is assigned to the
    first 50 the [{C1}] view has 50 entities and the [{C0,C1}] view has the
    first 50 entities, in creation order; once [C0] is removed from the
    first 25 the [{C0,C1}] view has 25 entities and the [{C0}] view 75. *)
Theorem views_follow_components :
  Scenario.views_then_components =
  Some (Z.of_nat <$> seq 0 100,
        (0, 0, 0),
        (100, 0, 0),
        (100, 50, 50),
        take 50 (Z.of_nat <$> seq 0 100),
        (75, 50, 25)).
Proof. by vm_compute. Qed.

(** C8 -- One slot, destroyed twice.  The first identifier has index 0 and
    version 0, the second index 0 and version 1; after the second [destroy]
    index 0 is on the free list, neither of the two identifiers is valid,
    and the identifier of index 0 and version 2 is the only valid one. *)
Theorem valid_follows_the_version :
  ∃ w, Scenario.recycle_twice =
       Some (Entity.make_entity 0 0, Entity.make_entity 1 0, w)
       ∧ m_free_list w = [0%Z]
       ∧ m_versions w = [2%Z]
       ∧ valid w (Entity.make_entity 0 0) = false
       ∧ valid w (Entity.make_entity 1 0) = false
       ∧ valid w (Entity.make_entity 2 0) = true
       ∧ ∀ id, valid w id = true → id = Entity.make_entity 2 0.
Proof.
  exists (World [0%Z] [2%Z] ∅ [] [] ∅).
  do 6 (split; [by vm_compute|]).
  intros id Hv. apply valid_lookup in Hv. fields.
  pose proof (lookup_lt_Some _ _ _ Hv) as Hslot. simpl in Hslot.
  assert (slot id = 0) as Hs by lia. rewrite Hs in Hv. injection Hv as Hver.
  apply EntityFacts.entity_eq.
  - rewrite <- slot_index, Hs. by vm_compute.
  - rewrite <- Hver. by vm_compute.
Qed.

(** C10 -- A component on a freed slot.  In a reachable world with a view
    of [{C0}], entity 0 is destroyed.  The identifier of its index with the
    bumped version passes the two assertions of [assign<C0>] although its
    index is on the free list; [assign] sets the presence bit and puts the
    identifier in the group while the index stays on the free list; the
    next [create()] returns this identifier, which then already has [C0]
    and already belongs to the group. *)
Theorem assign_reaches_freed_slot :
  reachable Scenario.freed_world
  ∧ valid Scenario.freed_world 0%Z = true
  ∧ destroy Scenario.freed_world 0%Z = Some Scenario.freed_destroyed
  ∧ m_free_list Scenario.freed_destroyed
      = [Entity.index_from_entity Scenario.freed_id]
  ∧ valid Scenario.freed_destroyed Scenario.freed_id = true
  ∧ has Scenario.freed_destroyed Scenario.C0 Scenario.freed_id = Some false
  ∧ assign Scenario.freed_destroyed Scenario.C0 Scenario.freed_id 9%Z
      = Some Scenario.freed_assigned
  ∧ m_free_list Scenario.freed_assigned
      = [Entity.index_from_entity Scenario.freed_id]
  ∧ presence Scenario.freed_assigned 0 (slot Scenario.freed_id) = true
  ∧ view_entities Scenario.freed_assigned [true] = [Scenario.freed_id]
  ∧ create Scenario.freed_assigned []
      = Some (Scenario.freed_recreated, Scenario.freed_id)
  ∧ has Scenario.freed_recreated Scenario.C0 Scenario.freed_id = Some true
  ∧ get Scenario.freed_recreated Scenario.C0 Scenario.freed_id = Some 9%Z
  ∧ m_free_list Scenario.freed_recreated = []
  ∧ view_entities Scenario.freed_recreated [true] = [Scenario.freed_id].
Proof.
  split.
  { apply (run_reachable empty_world Scenario.freed_ops); [constructor|].
    by vm_compute. }
  split_and!; by vm_compute.
Qed.

(** * More properties of the code *)

(** ** What the operations keep *)

Section Keeps.
Context {V : Type} `{!Inhabited V}.
Implicit Types (w : world V) (eid : Z) (T : type_index).

Lemma extends_refl w : extends w w.
Proof. split; [|done]. intros i v Hv. exists v. split; [done|lia]. Qed.

Lemma extends_trans w1 w2 w3 : extends w1 w2 → extends w2 w3 → extends w1 w3.
Proof.
  intros [Hv12 Ht12] [Hv23 Ht23]. split.
  - intros i v Hv. destruct (Hv12 i v Hv) as (v' & Hv' & ?).
    destruct (Hv23 i v' Hv') as (v'' & ? & ?). exists v''. split; [done|lia].
  - intros T p HT. auto.
Qed.

Lemma keeps_refl w : keeps w w.
Proof. split; [apply extends_refl|done]. Qed.

Lemma keeps_trans w1 w2 w3 : keeps w1 w2 → keeps w2 w3 → keeps w1 w3.
Proof.
  intros [He12 Hs12] [He23 Hs23]. split; [by eapply extends_trans|auto].
Qed.

(** Same versions, same registered types, same lengths of the bitsets and
    of the buffers: nothing to show. *)
Lemma keeps_same_storage w w' :
  m_versions w' = m_versions w →
  m_type_positions w' = m_type_positions w →
  (∀ tp, length <$> m_metabuffers w' !! tp = length <$> m_metabuffers w !! tp) →
  (∀ tp, length <$> m_buffers w' !! tp = length <$> m_buffers w !! tp) →
  keeps w w'.
Proof.
  intros Hver Htp Hmb Hbuf. split.
  - split; rewrite ?Hver, ?Htp; [|done].
    intros i v Hv. exists v. split; [done|lia].
  - intros [Hcover Hinj Hdense]. split; rewrite ?Htp; [|done..].
    intros tp mb' buf' Hmb' Hbuf'.
    specialize (Hmb tp). specialize (Hbuf tp).
    rewrite Hmb' in Hmb. rewrite Hbuf' in Hbuf.
    destruct (m_metabuffers w !! tp) as [mb|] eqn:Hmb0; [|done].
    destruct (m_buffers w !! tp) as [buf|] eqn:Hbuf0; [|done].
    simpl in Hmb, Hbuf. injection Hmb as Hmb. injection Hbuf as Hbuf.
    specialize (Hcover tp mb buf Hmb0 Hbuf0). lia.
Qed.

Lemma accommodate_keeps w T w' p :
  wf w → accommodate w T = Some (w', p) → keeps w w'.
Proof.
  intros Hwf Hacc. unfold accommodate in Hacc.
  destruct (m_type_positions w !! T) as [q|] eqn:HT.
  { injection Hacc as <- <-. apply keeps_refl. }
  apply cassert_bind_Some in Hacc as [_ Hacc].
  apply cassert_bind_Some in Hacc as [_ [= <- <-]].
  pose proof (wf_metabuffers_size w Hwf) as Hmbs.
  pose proof (wf_buffers_size w Hwf) as Hbufs.
  split.
  - split; fields.
    + intros i v Hv. exists v. split; [done|lia].
    + intros T' p' HT'. rewrite lookup_insert_ne; [done|congruence].
  - intros [Hcover Hinj Hdense]. split; fields.
    + intros tp mb buf Hmb Hbuf.
      destruct (decide (tp < length (m_metabuffers w))) as [Hlt|Hge].
      * rewrite lookup_app_l in Hmb by done.
        rewrite lookup_app_l in Hbuf by lia. eauto.
      * apply lookup_lt_Some in Hmb as Hlen. rewrite length_app in Hlen.
        simpl in Hlen. assert (tp = length (m_metabuffers w)) as -> by lia.
        rewrite list_lookup_middle in Hmb by done. injection Hmb as <-.
        simpl. lia.
    + intros T1 T2 q.
      destruct (decide (T = T1)) as [<-|H1]; destruct (decide (T = T2)) as [<-|H2];
        rewrite ?lookup_insert_eq, ?lookup_insert_ne by done; try done.
      * intros [= <-] Hq%(wf_positions w Hwf). lia.
      * intros Hq%(wf_positions w Hwf) [= <-]. lia.
      * apply Hinj.
    + intros q. rewrite map_size_insert_None by done. intros Hq.
      destruct (decide (q = size (m_type_positions w))) as [->|Hne].
      * exists T. apply lookup_insert_eq.
      * destruct (Hdense q) as [T' HT']; [lia|]. exists T'.
        rewrite lookup_insert_ne; [done|congruence].
Qed.

Lemma buffer_store_length (buffer : list V) idx v :
  length (buffer_store buffer idx v) = length buffer `max` (idx + 1).
Proof.
  unfold buffer_store. rewrite length_insert.
  case_bool_decide; [rewrite length_resize|]; lia.
Qed.

Lemma buffer_store_lookup (buffer : list V) idx v :
  buffer_store buffer idx v !! idx = Some v.
Proof.
  unfold buffer_store. apply list_lookup_insert_eq.
  case_bool_decide; [rewrite length_resize|]; lia.
Qed.

Lemma buffer_store_lookup_ne (buffer : list V) idx v i :
  i ≠ idx → i < length buffer → buffer_store buffer idx v !! i = buffer !! i.
Proof.
  intros Hne Hlt. unfold buffer_store. rewrite list_lookup_insert_ne by done.
  case_bool_decide; [|done]. by rewrite lookup_resize by lia.
Qed.

Lemma assign_keeps w T eid v w' :
  wf w → assign w T eid v = Some w' → keeps w w'.
Proof.
  intros Hwf (w1 & tp & mb & buffer & Hv & Hhas & Hacc & Hmbtp & Hbuftp
              & Hfree & Hver & Htp & Hmb & Hbuf & Hgr)%assign_fields.
  eapply keeps_trans; [by eapply accommodate_keeps|].
  split.
  - split; rewrite ?Hver, ?Htp; [|done].
    intros i x Hx. exists x. split; [done|lia].
  - intros [Hcover Hinj Hdense]. split; rewrite ?Htp; [|done..].
    intros tp' mb' buf'. rewrite Hmb, Hbuf.
    destruct (decide (tp' = tp)) as [->|Hne].
    + rewrite !list_lookup_insert_eq by (by eapply lookup_lt_Some).
      intros [= <-] [= <-].
      rewrite mark_slot_length, buffer_store_length.
      specialize (Hcover tp mb buffer Hmbtp Hbuftp). lia.
    + rewrite !list_lookup_insert_ne by done. apply Hcover.
Qed.

Lemma create_entity_keeps w w' entity :
  create_entity w = Some (w', entity) → keeps w w'.
Proof.
  unfold create_entity. destruct (m_free_list w) as [|idx free].
  - rewrite cassert_bind_Some. intros [_ [= <- <-]]. split.
    + split; fields; [|done]. intros i v Hv. exists v.
      split; [by apply lookup_app_l_Some|lia].
    + by intros [? ? ?].
  - intros (ver & _ & [= <- <-])%bind_Some. by apply keeps_same_storage.
Qed.

Lemma orphan_keeps w eid w' : orphan w eid = Some w' → keeps w w'.
Proof.
  intros (_ & _ & Hver & Htp & Hmb & Hbuf & _)%orphan_fields.
  apply keeps_same_storage; try done.
  - intros tp. rewrite Hmb, list_lookup_fmap.
    destruct (m_metabuffers w !! tp); [|done]. simpl.
    by rewrite clear_slot_length.
  - by rewrite Hbuf.
Qed.

Lemma destroy_keeps w eid w' : wf w → destroy w eid = Some w' → keeps w w'.
Proof.
  intros Hwf Hd.
  pose proof (destroy_result w eid w' Hwf Hd)
    as (Hv & _ & Hver & Htp & Hmb & Hbuf & _).
  apply valid_lookup in Hv. split.
  - split; rewrite ?Htp; [|done]. intros i v Hi. rewrite Hver.
    destruct (decide (i = slot eid)) as [->|Hne].
    + rewrite list_lookup_insert_eq by (by eapply lookup_lt_Some).
      eexists. split; [done|]. rewrite Hv in Hi. injection Hi as <-. lia.
    + rewrite list_lookup_insert_ne by done. exists v. split; [done|lia].
  - intros [Hcover Hinj Hdense]. split; rewrite ?Htp; [|done..].
    intros tp mb' buf'. rewrite Hmb, Hbuf, list_lookup_fmap.
    intros (mb & Hmb0 & ->)%fmap_Some Hbuf0. rewrite clear_slot_length. eauto.
Qed.

Lemma remove1_keeps w T eid w' : remove1 w T eid = Some w' → keeps w w'.
Proof.
  intros (tp & mb & _ & _ & Hmbtp & _ & _ & Hver & Htp & Hmb & Hbuf & _)
    %remove1_fields.
  apply keeps_same_storage; try done; [|by rewrite Hbuf].
  intros tp'. rewrite Hmb. destruct (decide (tp' = tp)) as [->|Hne].
  - rewrite list_lookup_insert_eq by (by eapply lookup_lt_Some).
    rewrite Hmbtp. simpl. unfold Bitset.reset. by rewrite length_insert.
  - by rewrite list_lookup_insert_ne.
Qed.

Lemma group_by_keeps w tps w' F : group_by w tps = Some (w', F) → keeps w w'.
Proof.
  intros (_ & _ & _ & Hver & Htp & Hmb & Hbuf & _)%group_by_fields.
  apply keeps_same_storage; by rewrite ?Hmb, ?Hbuf.
Qed.

Lemma accommodate_all_keeps w Ts w' tps :
  wf w → accommodate_all w Ts = Some (w', tps) → keeps w w'.
Proof.
  revert w w' tps. induction Ts as [|T Ts IH]; intros w w' tps Hwf; simpl.
  - intros [= <- <-]. apply keeps_refl.
  - intros ([w1 tp] & Hacc & Hrest)%bind_Some.
    apply bind_Some in Hrest as ([w2 tps'] & Hall & [= <- <-]).
    eapply keeps_trans; [by eapply accommodate_keeps|].
    eapply IH; [|done]. by eapply accommodate_wf.
Qed.

Lemma assign_defaults_keeps w Ts eid w' :
  wf w → assign_defaults w Ts eid = Some w' → keeps w w'.
Proof.
  revert w. induction Ts as [|T Ts IH]; intros w Hwf; simpl.
  - intros [= <-]. apply keeps_refl.
  - intros (w1 & Hassign & Hrest)%bind_Some.
    eapply keeps_trans; [by eapply assign_keeps|].
    eapply IH; [|done]. by eapply assign_wf.
Qed.

Lemma remove_each_keeps w Ts eid w' :
  remove_each w Ts eid = Some w' → keeps w w'.
Proof.
  revert w. induction Ts as [|T Ts IH]; intros w; simpl.
  - intros [= <-]. apply keeps_refl.
  - intros (w1 & Hrem & Hrest)%bind_Some.
    eapply keeps_trans; [by eapply remove1_keeps|by eapply IH].
Qed.

Lemma clone_each_keeps w Ts entity original w' :
  wf w → clone_each w Ts entity original = Some w' → keeps w w'.
Proof.
  revert w. induction Ts as [|T Ts IH]; intros w Hwf; simpl.
  - intros [= <-]. apply keeps_refl.
  - intros (v & _ & Hrest)%bind_Some.
    apply bind_Some in Hrest as (w1 & Hassign & Hrest).
    eapply keeps_trans; [by eapply assign_keeps|].
    eapply IH; [|done]. by eapply assign_wf.
Qed.

Lemma step_keeps w o w' : wf w → step w o = Some w' → keeps w w'.
Proof.
  intros Hwf. destruct o; simpl.
  - intros ([w2 e] & Hc & ->)%fmap_Some. unfold create in Hc.
    apply cassert_bind_Some in Hc as [_ Hc].
    apply bind_Some in Hc as ([w1 e1] & Hcreate & Hc).
    apply bind_Some in Hc as (w3 & Hassign & [= <- <-]).
    eapply keeps_trans; [by eapply create_entity_keeps|].
    eapply assign_defaults_keeps; [|done]. by eapply create_entity_wf.
  - by apply destroy_keeps.
  - by apply orphan_keeps.
  - by apply assign_keeps.
  - unfold assign_or_replace. rewrite cassert_bind_Some.
    intros [_ (b & Hhas & Hrest)%bind_Some]. destruct b; simpl in Hrest.
    + apply bind_Some in Hrest as (_ & _ & Hrest).
      apply bind_Some in Hrest as (tp & _ & Hrest).
      apply bind_Some in Hrest as (buffer & Hbuf & [= <-]).
      apply keeps_same_storage; fields; try done.
      intros tp'. destruct (decide (tp' = tp)) as [->|Hne].
      * rewrite list_lookup_insert_eq by (by eapply lookup_lt_Some).
        rewrite Hbuf. simpl. by rewrite length_insert.
      * by rewrite list_lookup_insert_ne.
    + by eapply assign_keeps.
  - unfold remove. destruct Ts as [|T [|T' Ts]]; [done|..].
    + by apply remove1_keeps.
    + rewrite cassert_bind_Some. intros [_ Hrem]. by eapply remove_each_keeps.
  - intros ([w2 h] & Hc & ->)%fmap_Some. unfold view in Hc.
    apply cassert_bind_Some in Hc as [_ Hc].
    apply bind_Some in Hc as ([w1 tps] & Hall & Hgroup).
    eapply keeps_trans; [by eapply accommodate_all_keeps|].
    by eapply group_by_keeps.
  - unfold reserve. rewrite cassert_bind_Some. intros [_ Hrest].
    apply fmap_Some in Hrest as ([w1 tps] & Hall & ->).
    by eapply accommodate_all_keeps.
  - intros ([w2 e] & Hc & ->)%fmap_Some. unfold clone in Hc.
    apply cassert_bind_Some in Hc as [_ Hc].
    apply bind_Some in Hc as ([w1 e1] & Hcreate & Hc).
    apply bind_Some in Hc as (w3 & Hclone & [= <- <-]).
    eapply keeps_trans; [by eapply create_entity_keeps|].
    eapply clone_each_keeps; [|done]. by eapply create_entity_wf.
Qed.

Lemma run_keeps w ops w' : wf w → run w ops = Some w' → keeps w w' ∧ wf w'.
Proof.
  unfold run. revert w. induction ops as [|o ops IH]; intros w Hwf; simpl.
  - intros [= <-]. split; [apply keeps_refl|done].
  - destruct (step w o) as [w1|] eqn:Hstep.
    + intros Hrun. pose proof (step_wf w o w1 Hwf Hstep) as Hwf1.
      destruct (IH w1 Hwf1 Hrun) as [Hk ?]. split; [|done].
      eapply keeps_trans; [by eapply step_keeps|done].
    + intros Hnone. exfalso. clear -Hnone.
      induction ops as [|o' ops IH']; simpl in *; [done|auto].
Qed.

Lemma empty_world_wf_storage : wf_storage (empty_world (V:=V)).
Proof.
  split; simpl.
  - intros tp mb buf Hmb. by rewrite lookup_nil in Hmb.
  - intros T1 T2 p HT. by rewrite lookup_empty in HT.
  - intros p. rewrite map_size_empty. lia.
Qed.

Lemma reachable_wf_storage w : reachable w → wf_storage w.
Proof.
  induction 1 as [|w o w' Hr IH Hstep]; [apply empty_world_wf_storage|].
  apply reachable_wf in Hr. by apply (step_keeps w o w' Hr Hstep).
Qed.

End Keeps.

(** ** Entities and components *)

Section Components.
Context {V : Type} `{!Inhabited V}.
Implicit Types (w : world V) (eid : Z) (T : type_index).

(** The presence bits after [assign<T>]: the bit of [T] at the slot of the
    entity is set, every other bit is as before. *)
Lemma assign_presence w T eid v w' :
  assign w T eid v = Some w' →
  ∃ tp, m_type_positions w' !! T = Some tp
        ∧ (m_type_positions w !! T = Some tp
           ∨ (m_type_positions w !! T = None
              ∧ tp = size (m_type_positions w)
              ∧ m_type_positions w' = <[T := tp]> (m_type_positions w)))
        ∧ m_versions w' = m_versions w
        ∧ m_free_list w' = m_free_list w
        ∧ ∀ t i, presence w' t i =
                 if decide (t = tp ∧ i = slot eid) then true else presence w t i.
Proof.
  intros (w1 & tp & mb & buffer & Hv & Hhas & Hacc & Hmbtp & Hbuftp
          & Hfree & Hver & Htp & Hmb & Hbuf & Hgr)%assign_fields.
  pose proof (accommodate_spec w T w1 tp Hacc)
    as (HT & Hver1 & Hfree1 & _ & Hat & _ & _).
  exists tp. split_and!; [by rewrite Htp| |congruence|congruence|].
  - unfold accommodate in Hacc.
    destruct (m_type_positions w !! T) as [q|] eqn:HTw.
    + left. by injection Hacc as <- <-.
    + right. apply cassert_bind_Some in Hacc as [_ Hacc].
      apply cassert_bind_Some in Hacc as [_ [= <- <-]]. by rewrite Htp.
  - intros t i. unfold presence. rewrite <- Hat.
    rewrite Hmb, (metabuffer_at_insert _ _ mb) by done.
    destruct (decide (t = tp)) as [->|Ht].
    + rewrite mark_slot_contains. unfold metabuffer_at. rewrite Hmbtp. simpl.
      repeat case_decide; naive_solver.
    + rewrite decide_False by naive_solver. done.
Qed.

Lemma assign_has_get w T e (v : V) w' :
  assign w T e v = Some w' →
  has w' T e = Some true ∧ get w' T e = Some v.
Proof.
  intros Hassign.
  pose proof (assign_fields w T e v w' Hassign)
    as (w1 & tp & mb & buffer & Hv & Hhas & Hacc & Hmbtp & Hbuftp
        & Hfree & Hver & Htp & Hmb & Hbuf & Hgr).
  pose proof (accommodate_spec w T w1 tp Hacc) as (HT & Hver1 & _).
  assert (has w' T e = Some true) as Hhas'.
  { apply has_true. split.
    - rewrite (valid_ext w1 w') by done. by rewrite (valid_ext w w1).
    - exists tp, (mark_slot (slot e) mb). split_and!.
      + by rewrite Htp.
      + rewrite Hmb. apply list_lookup_insert_eq. by eapply lookup_lt_Some.
      + rewrite mark_slot_contains. by rewrite decide_True. }
  split; [done|]. unfold get. rewrite Hhas'.
  cbn [cassert mbind option_bind]. rewrite Htp, HT.
  cbn [mbind option_bind]. rewrite Hbuf.
  rewrite list_lookup_insert_eq by (by eapply lookup_lt_Some).
  cbn [mbind option_bind]. apply buffer_store_lookup.
Qed.

(** X1 -- [assign<T>(e, args)] then [get<T>(e)].  The argument is an object
    of its own or a reference to a stored component.  When the call has a
    result, the entity has the component, [get] returns what the argument
    designated when the call was made, and the argument did not dangle:
    a call whose argument refers into the vector of [T] while that vector is
    reallocated has no result. *)
Theorem assign_then_get w T e capacity (a : argument V) w' :
  assign_forwarded w T e capacity a = Some w' →
  has w' T e = Some true
  ∧ get w' T e = argument_value w a
  ∧ dangles w T e capacity a = false.
Proof.
  unfold assign_forwarded. intros (v & Hv & Hrest)%bind_Some.
  apply cassert_bind_Some in Hrest as [Hsafe Hassign].
  destruct (assign_has_get w T e v w' Hassign) as [Hhas Hget].
  split_and!; [done|congruence|]. by apply negb_true_iff.
Qed.

Lemma get_total w T e :
  wf w → wf_storage w → has w T e = Some true → is_Some (get w T e).
Proof.
  intros Hwf Hst Hhas.
  unfold get. rewrite Hhas. cbn [cassert mbind option_bind].
  apply has_true in Hhas as (_ & tp & mb & HT & Hmb & Hc).
  rewrite HT. cbn [mbind option_bind].
  pose proof (lookup_lt_Some _ _ _ Hmb) as Hlt.
  rewrite (wf_metabuffers_size w Hwf), <- (wf_buffers_size w Hwf) in Hlt.
  apply lookup_lt_is_Some_2 in Hlt as [buf Hbuf]. rewrite Hbuf.
  cbn [mbind option_bind]. apply lookup_lt_is_Some_2.
  apply BitsetFacts.contains_lookup, lookup_lt_Some in Hc.
  pose proof (wfs_buffers_cover w Hst tp mb buf Hmb Hbuf). lia.
Qed.

(** X2 -- [get<T>] is safe wherever [has<T>] holds: in every reachable
    world, the buffer of the type is long enough for every slot whose
    presence bit is set, so [get] finds a stored value. *)
Theorem get_defined_where_has w T e :
  reachable w → has w T e = Some true → is_Some (get w T e).
Proof.
  intros Hr. apply get_total; [by apply reachable_wf|].
  by apply reachable_wf_storage.
Qed.

Lemma has_ext w w' T eid tp :
  wf w → wf w' →
  m_type_positions w !! T = Some tp → m_type_positions w' !! T = Some tp →
  valid w' eid = valid w eid →
  presence w' tp (slot eid) = presence w tp (slot eid) →
  has w' T eid = has w T eid.
Proof.
  intros Hwf Hwf' HT HT' Hv Hp.
  rewrite (has_presence w T eid tp), (has_presence w' T eid tp) by done.
  by rewrite Hv, Hp.
Qed.

Lemma create_entity_valid w w' entity :
  wf w → create_entity w = Some (w', entity) → valid w' entity = true.
Proof.
  intros Hwf. unfold create_entity.
  destruct (m_free_list w) as [|idx free] eqn:Hfree.
  - rewrite cassert_bind_Some, bool_decide_eq_true. intros [Hsize [= <- <-]].
    unfold Entity.u32_max in Hsize.
    pose proof (valid_make_entity
      (World [] (m_versions w ++ [0%Z]) (m_type_positions w) (m_metabuffers w)
             (m_buffers w) (m_groups w)) 0 (length (m_versions w))) as Hvalid.
    rewrite EntityFacts.make_entity_sum in Hvalid by lia.
    rewrite Z.mul_0_l, Z.add_0_l in Hvalid. apply Hvalid; [lia|].
    fields. by rewrite list_lookup_middle.
  - intros (ver & Hver & [= <- <-])%bind_Some.
    pose proof (wf_free_range w Hwf) as Hrange. rewrite Hfree in Hrange.
    apply Forall_cons in Hrange as [Hidx _].
    pose proof (wf_versions_length w Hwf) as Hlen. unfold Entity.u32_max in Hlen.
    apply valid_lookup. fields. unfold slot.
    rewrite EntityFacts.index_make_entity, EntityFacts.version_make_entity
      by lia. done.
Qed.

Lemma assign_defaults_has w Ts eid w' :
  wf w → assign_defaults w Ts eid = Some w' →
  valid w' eid = valid w eid
  ∧ (∀ T, has w T eid = Some true → has w' T eid = Some true)
  ∧ ∀ T, T ∈ Ts → has w' T eid = Some true.
Proof.
  revert w. induction Ts as [|T Ts IH]; intros w Hwf; simpl.
  - intros [= <-]. split_and!; [done..|]. by intros T []%elem_of_nil.
  - intros (w1 & Hassign & Hrest)%bind_Some.
    pose proof (assign_wf w T eid _ w1 Hwf Hassign) as Hwf1.
    destruct (IH w1 Hwf1 Hrest) as (Hv & Hmono & Hall).
    pose proof (assign_has_get w T eid _ w1 Hassign) as [Hhas1 _].
    pose proof (assign_presence w T eid _ w1 Hassign)
      as (tp & HT1 & _ & Hver & _ & Hbits).
    pose proof (assign_keeps w T eid _ w1 Hwf Hassign) as [[_ Hext] _].
    split_and!.
    + rewrite Hv. by apply valid_ext.
    + intros T' Hhas. apply Hmono.
      apply has_true in Hhas as (Hvalid & tp' & mb & HT' & Hmb & Hc).
      rewrite (has_presence w1 T' eid tp') by auto.
      rewrite (valid_ext w w1), Hvalid by done. rewrite Hbits.
      case_decide; [done|]. unfold presence, metabuffer_at.
      rewrite Hmb. simpl. by rewrite Hc.
    + intros T' [->|HT']%elem_of_cons; auto.
Qed.

(** X3 -- [create<Ts...>()] returns a valid identifier that has every
    component type of [Ts]. *)
Theorem create_valid_with_components w Ts w' e :
  reachable w →
  create w Ts = Some (w', e) →
  valid w' e = true ∧ ∀ T, T ∈ Ts → has w' T e = Some true.
Proof.
  intros Hwf%reachable_wf. unfold create. rewrite cassert_bind_Some.
  intros [_ Hrest].
  apply bind_Some in Hrest as ([w1 e1] & Hcreate & Hrest).
  apply bind_Some in Hrest as (w2 & Hassign & [= <- <-]).
  pose proof (create_entity_wf w w1 e1 Hwf Hcreate) as Hwf1.
  destruct (assign_defaults_has w1 Ts e1 w2 Hwf1 Hassign) as (Hv & _ & Hall).
  split; [|done]. rewrite Hv. exact (create_entity_valid w w1 e1 Hwf Hcreate).
Qed.

(** X4 -- [create()] fails in one case only: with an empty free list it
    asserts that fewer than [0xFFFFFFFF] slots exist; with a free index it
    always succeeds. *)
Theorem create_fails_only_when_full w :
  reachable w →
  is_Some (create w []) ↔
  m_free_list w ≠ [] ∨ (Z.of_nat (num_entities w) < Entity.u32_max)%Z.
Proof.
  intros Hwf%reachable_wf. rewrite create_no_components.
  unfold create_entity, num_entities.
  destruct (m_free_list w) as [|idx free] eqn:Hfree.
  - case_bool_decide as Hsize; cbn [cassert mbind option_bind].
    + split; [by auto|by eauto].
    + split; [by intros [? ?]|]. by intros [?|?].
  - pose proof (wf_free_range w Hwf) as Hrange. rewrite Hfree in Hrange.
    apply Forall_cons in Hrange as [Hidx _].
    destruct (lookup_lt_is_Some_2 (m_versions w) (Z.to_nat idx)) as [ver Hver];
      [lia|].
    rewrite Hver. cbn [mbind option_bind]. split; [by auto|by eauto].
Qed.

(** X5 -- A fresh slot owns nothing.  With an empty free list [create()]
    appends a slot: the identifier is the former number of entities, its
    version is 0, it has no component of any type and it is in no cached
    group. *)
Theorem create_fresh_slot w w' e :
  reachable w →
  m_free_list w = [] →
  create w [] = Some (w', e) →
  e = Z.of_nat (num_entities w)
  ∧ Entity.version_from_entity e = 0%Z
  ∧ num_entities w' = S (num_entities w)
  ∧ (∀ T, has w' T e = Some false)
  ∧ ∀ F g, m_groups w' !! F = Some g → e ∉ g.
Proof.
  intros Hr Hfree Hcreate. pose proof (reachable_wf w Hr) as Hwf.
  assert (reachable w') as Hr'.
  { apply (reachable_step w (OpCreate []) w' Hr). simpl. by rewrite Hcreate. }
  pose proof (reachable_wf w' Hr') as Hwf'.
  rewrite create_no_components in Hcreate. unfold create_entity in Hcreate.
  rewrite Hfree in Hcreate.
  apply cassert_bind_Some in Hcreate as [Hsize%bool_decide_eq_true [= <- <-]].
  unfold Entity.u32_max in Hsize. unfold num_entities.
  set (w' := World [] (m_versions w ++ [0%Z]) (m_type_positions w)
                   (m_metabuffers w) (m_buffers w) (m_groups w)) in *.
  set (n := length (m_versions w)) in *.
  assert (slot (Z.of_nat n) = n) as Hslot.
  { unfold slot. rewrite EntityFacts.index_from_entity_mod.
    rewrite Z.mod_small by lia. lia. }
  assert (∀ t, presence w' t n = false) as Hclear.
  { intros t. apply not_true_is_false. intros Hp.
    apply (presence_in_range w t n Hwf) in Hp. unfold n in Hp. lia. }
  split_and!.
  - done.
  - rewrite EntityFacts.version_from_entity_div. apply Z.div_small. lia.
  - unfold w'. fields. rewrite length_app. simpl. lia.
  - intros T. destruct (m_type_positions w' !! T) as [tp|] eqn:HT.
    + rewrite (has_presence w' T _ tp) by done. rewrite Hslot, Hclear.
      by rewrite andb_false_r.
    + by apply has_unregistered.
  - intros F g HF Hin.
    apply (wf_group_members w' Hwf' F g HF) in Hin as [_ Hm].
    destruct (wf_filter_nonempty w' Hwf' F g HF) as [t Ht].
    specialize (Hm t Ht). rewrite Hslot in Hm.
    specialize (Hclear t). unfold presence in Hclear. congruence.
Qed.

(** X6 -- A destroyed identifier stays dead: once [destroy(e)] has run, no
    sequence of operations makes [e] valid again (the version of its slot
    only grows). *)
Theorem destroyed_id_stays_invalid w e w1 ops w2 :
  reachable w →
  destroy w e = Some w1 →
  run w1 ops = Some w2 →
  valid w2 e = false.
Proof.
  intros Hwf%reachable_wf Hd Hrun.
  pose proof (destroy_wf w e w1 Hwf Hd) as Hwf1.
  pose proof (destroy_result w e w1 Hwf Hd) as (Hv & _ & Hver & _).
  destruct (run_keeps w1 ops w2 Hwf1 Hrun) as [[[Hvers _] _] _].
  apply valid_lookup in Hv. pose proof (lookup_lt_Some _ _ _ Hv) as Hlt.
  destruct (Hvers (slot e) (Entity.version_from_entity e + 1)%Z)
    as (v' & Hv' & Hle).
  { rewrite Hver. by apply list_lookup_insert_eq. }
  apply not_true_is_false. rewrite valid_lookup, Hv'. intros [= ->]. lia.
Qed.

(** X7 -- Nothing is taken back.  Along any run of operations the number
    of slots and the number of registered types do not decrease, every
    registered type keeps its position, and the version of every slot does
    not decrease. *)
Theorem run_never_takes_back w ops w' :
  reachable w →
  run w ops = Some w' →
  num_entities w ≤ num_entities w'
  ∧ num_contained_types w ≤ num_contained_types w'
  ∧ (∀ T p, m_type_positions w !! T = Some p →
            m_type_positions w' !! T = Some p)
  ∧ ∀ i v, m_versions w !! i = Some v →
           ∃ v', m_versions w' !! i = Some v' ∧ (v ≤ v')%Z.
Proof.
  intros Hwf%reachable_wf Hrun.
  destruct (run_keeps w ops w' Hwf Hrun) as [[[Hvers Htps] _] _].
  split_and!; [| |done|done].
  - unfold num_entities.
    destruct (decide (length (m_versions w) = 0)) as [->|Hne]; [lia|].
    destruct (lookup_lt_is_Some_2 (m_versions w) (length (m_versions w) - 1))
      as [v Hv]; [lia|].
    destruct (Hvers _ _ Hv) as (v' & Hv' & _).
    apply lookup_lt_Some in Hv'. lia.
  - unfold num_contained_types. apply map_subseteq_size.
    by apply map_subseteq_spec.
Qed.

(** X8 -- The registered types occupy the positions [0 .. n-1], one each:
    [num_contained_types] is the number of presence bitsets and of buffers,
    every position below it belongs to a type, and no two types share a
    position. *)
Theorem type_positions_are_dense w :
  reachable w →
  num_contained_types w = length (m_metabuffers w)
  ∧ num_contained_types w = length (m_buffers w)
  ∧ (∀ T p, m_type_positions w !! T = Some p → p < num_contained_types w)
  ∧ (∀ p, p < num_contained_types w → ∃ T, m_type_positions w !! T = Some p)
  ∧ ∀ T1 T2 p, m_type_positions w !! T1 = Some p →
               m_type_positions w !! T2 = Some p → T1 = T2.
Proof.
  intros Hr. pose proof (reachable_wf w Hr) as Hwf.
  pose proof (reachable_wf_storage w Hr) as [_ Hinj Hdense].
  unfold num_contained_types. split_and!; try done.
  - symmetry. apply (wf_metabuffers_size w Hwf).
  - symmetry. apply (wf_buffers_size w Hwf).
  - apply (wf_positions w Hwf).
Qed.

Lemma accommodate_buffers w T w1 tp t (buf : list V) :
  accommodate w T = Some (w1, tp) →
  m_buffers w !! t = Some buf → m_buffers w1 !! t = Some buf.
Proof.
  unfold accommodate. destruct (m_type_positions w !! T) as [q|].
  - by intros [= <- <-].
  - rewrite !cassert_bind_Some. intros (_ & _ & [= <- <-]). fields.
    apply lookup_app_l_Some.
Qed.

Lemma get_unfold w T eid :
  get w T eid =
  match has w T eid with
  | Some true =>
      tp ← m_type_positions w !! T;
      buffer ← m_buffers w !! tp;
      buffer !! slot eid
  | _ => None
  end.
Proof. unfold get. by destruct (has w T eid) as [[]|]. Qed.

(** X9 -- [assign<T>(e, v)] touches one component only: for every other
    pair of a type and an entity, [has] answers as before and [get] returns
    what it returned before. *)
Theorem assign_frame w T e (v : V) w' T' e' :
  reachable w →
  assign w T e v = Some w' →
  T' ≠ T ∨ slot e' ≠ slot e →
  has w' T' e' = has w T' e' ∧ get w' T' e' = get w T' e'.
Proof.
  intros Hr Hassign Hother.
  pose proof (reachable_wf w Hr) as Hwf.
  pose proof (reachable_wf_storage w Hr) as Hst.
  assert (reachable w') as Hr'
    by (by apply (reachable_step w (OpAssign T e v) w' Hr)).
  pose proof (reachable_wf w' Hr') as Hwf'.
  pose proof (reachable_wf_storage w' Hr') as Hst'.
  pose proof (assign_presence w T e v w' Hassign)
    as (tp & HT' & Hreg & Hver & _ & Hbits).
  pose proof (assign_keeps w T e v w' Hwf Hassign) as [[_ Hext] _].
  pose proof (assign_fields w T e v w' Hassign)
    as (w1 & tp1 & mb & buffer & _ & _ & Hacc & _ & Hbuftp & _ & _ & Htp
        & _ & Hbuf & _).
  pose proof (accommodate_spec w T w1 tp1 Hacc) as (HT1 & _ & _ & _ & _ & _ & Hne).
  assert (tp1 = tp) as -> by (rewrite Htp in HT'; congruence).
  assert (valid w' e' = valid w e') as Hvalid by (by apply valid_ext).
  assert (has w' T' e' = has w T' e') as Hhas.
  { destruct (m_type_positions w !! T') as [tp'|] eqn:HTw.
    - apply (has_ext w w' T' e' tp'); auto.
      rewrite Hbits. case_decide as Hsame; [|done].
      destruct Hsame as [-> Hslot].
      assert (T' = T) by (eapply (wfs_positions_inj w' Hst'); eauto).
      by destruct Hother.
    - rewrite (has_unregistered w T' e') by done.
      destruct (decide (T' = T)) as [->|HneT].
      + destruct Hother as [?|Hslot]; [done|].
        destruct Hreg as [?|(_ & -> & _)]; [congruence|].
        rewrite (has_presence w' T e' _ Hwf' HT'), Hbits.
        rewrite decide_False by naive_solver.
        unfold presence, metabuffer_at.
        rewrite lookup_ge_None_2 by (by rewrite (wf_metabuffers_size w Hwf)).
        by rewrite andb_false_r.
      + apply has_unregistered. rewrite Htp, Hne by done. done. }
  split; [done|]. rewrite !get_unfold, Hhas.
  destruct (has w T' e') as [[]|] eqn:Hhasw; [|done..].
  apply has_true in Hhasw as (_ & tp' & mb' & HTw & Hmb' & Hc).
  rewrite HTw, (Hext T' tp' HTw). cbn [mbind option_bind].
  pose proof (lookup_lt_Some _ _ _ Hmb') as Hlt.
  rewrite (wf_metabuffers_size w Hwf), <- (wf_buffers_size w Hwf) in Hlt.
  apply lookup_lt_is_Some_2 in Hlt as [buf' Hbuf'].
  pose proof (accommodate_buffers w T w1 tp tp' buf' Hacc Hbuf') as Hbuf1.
  rewrite Hbuf' , Hbuf. cbn [mbind option_bind].
  destruct (decide (tp' = tp)) as [->|Hnetp].
  - rewrite list_lookup_insert_eq by (by eapply lookup_lt_Some).
    cbn [mbind option_bind].
    assert (buffer = buf') as -> by congruence.
    assert (T' = T) as -> by (eapply (wfs_positions_inj w' Hst'); eauto).
    destruct Hother as [?|Hslot]; [done|].
    apply buffer_store_lookup_ne; [done|].
    apply BitsetFacts.contains_lookup, lookup_lt_Some in Hc.
    pose proof (wfs_buffers_cover w Hst tp mb' buf' Hmb' Hbuf'). lia.
  - rewrite list_lookup_insert_ne by done. by rewrite Hbuf1.
Qed.

Lemma erase_snoc s e : e ∉ s → SparseSet.erase (s ++ [e]) e = s.
Proof.
  induction s as [|x t IH]; simpl.
  - intros _. by rewrite bool_decide_true.
  - intros [Hx Ht]%not_elem_of_cons.
    rewrite bool_decide_false by congruence. by rewrite IH.
Qed.

Lemma remove1_presence w T eid w' :
  remove1 w T eid = Some w' →
  ∃ tp, m_type_positions w !! T = Some tp
        ∧ ∀ t i, presence w' t i =
                 if decide (t = tp ∧ i = slot eid) then false else presence w t i.
Proof.
  intros (tp & mb & _ & HT & Hmbtp & _ & _ & _ & _ & Hmb & _)%remove1_fields.
  exists tp. split; [done|]. intros t i. unfold presence.
  rewrite Hmb, (metabuffer_at_insert _ _ mb) by done.
  destruct (decide (t = tp)) as [->|Ht].
  - rewrite reset_contains. unfold metabuffer_at. rewrite Hmbtp. simpl.
    repeat case_decide; naive_solver.
  - rewrite decide_False by naive_solver. done.
Qed.

(** X10 -- [assign<T>(e)] followed by [remove<T>(e)] is a round trip for
    the bookkeeping: [remove] succeeds, and every cached group (contents and
    order), every presence bit, the versions and the free list are as they
    were before the assignment. *)
Theorem assign_then_remove w T e (v : V) w1 :
  reachable w →
  assign w T e v = Some w1 →
  ∃ w2, remove w1 [T] e = Some w2
        ∧ m_groups w2 = m_groups w
        ∧ (∀ t i, presence w2 t i = presence w t i)
        ∧ m_versions w2 = m_versions w
        ∧ m_free_list w2 = m_free_list w.
Proof.
  intros Hr Hassign. pose proof (reachable_wf w Hr) as Hwf.
  pose proof (assign_fields w T e v w1 Hassign)
    as (wa & tp & mb & buffer & Hv & Hhas & Hacc & Hmbtp & _ & Hfree1 & Hver1
        & Htp1 & Hmb1 & _ & Hgr1).
  pose proof (assign_bit_clear w T e wa tp Hwf Hhas Hv Hacc) as Hclear.
  pose proof (accommodate_spec w T wa tp Hacc)
    as (HTa & Hvera & Hfreea & Hgra & Hat & _).
  pose proof (assign_presence w T e v w1 Hassign)
    as (tp' & HT1 & _ & _ & _ & Hbits1).
  assert (tp' = tp) as -> by (rewrite Htp1 in HT1; congruence).
  assert (has w1 T e = Some true) as Hhas1.
  { rewrite (has_presence w1 T e tp) by eauto using assign_wf.
    rewrite Hbits1, decide_True by done.
    rewrite (valid_ext wa w1), (valid_ext w wa), Hv by done. done. }
  destruct (remove1_total w1 T e Hhas1) as [w2 Hrem]. exists w2.
  pose proof (remove1_presence w1 T e w2 Hrem) as (tp' & HT1' & Hbits2).
  assert (tp' = tp) as -> by congruence.
  pose proof (remove1_fields w1 T e w2 Hrem)
    as (tp' & mb2 & _ & HT1'' & _ & _ & Hfree2 & Hver2 & _ & _ & _ & Hgr2).
  assert (tp' = tp) as -> by congruence.
  split_and!; [done| | |congruence|congruence].
  - apply map_eq. intros F.
    rewrite Hgr2, map_lookup_imap, Hgr1, map_lookup_imap, Hgra.
    destruct (m_groups w !! F) as [g|] eqn:HF; [|done].
    cbn [mbind option_bind]. f_equal. unfold assign_group.
    destruct (contains F tp) eqn:HFtp.
    + assert (e ∉ g) as Hout.
      { intros [_ Hm]%(wf_group_members w Hwf F g HF).
        apply BitsetFacts.contains_lookup in HFtp. specialize (Hm tp HFtp).
        rewrite <- Hat in Hm. congruence. }
      assert (SparseSet.contains g e = false) as ->.
      { apply not_true_is_false. by intros ?%SparseSetFacts.contains_true. }
      cbn [negb]. destruct (filter_has_all _ F (slot e)).
      * unfold SparseSet.insert.
        assert (SparseSet.contains g e = false) as ->.
        { apply not_true_is_false. by intros ?%SparseSetFacts.contains_true. }
        by apply erase_snoc.
      * by apply SparseSetFacts.erase_absent.
    + cbn [negb]. by destruct (SparseSet.contains g e).
  - intros t i. rewrite Hbits2, Hbits1.
    case_decide as Hsame; [|done]. destruct Hsame as [-> ->].
    unfold presence. by rewrite <- Hat.
Qed.

(** X11 -- [orphan(e)] strips a valid entity and keeps it alive: it
    succeeds, the entity stays valid, has no component of any type and is
    in no cached group; versions, free list and buffers are untouched and
    so are the presence bits of every other slot. *)
Theorem orphan_strips_entity w e :
  reachable w →
  valid w e = true →
  ∃ w', orphan w e = Some w'
        ∧ valid w' e = true
        ∧ (∀ T, has w' T e = Some false)
        ∧ (∀ F g, m_groups w' !! F = Some g → e ∉ g)
        ∧ m_versions w' = m_versions w
        ∧ m_free_list w' = m_free_list w
        ∧ m_buffers w' = m_buffers w
        ∧ ∀ t i, i ≠ slot e → presence w' t i = presence w t i.
Proof.
  intros Hwf%reachable_wf Hv.
  assert (is_Some (orphan w e)) as [w' Ho].
  { unfold orphan. rewrite Hv. by eexists. }
  pose proof (orphan_wf w e w' Hwf Ho) as Hwf'.
  pose proof (λ t, orphan_presence w e w' t Ho) as Hclear.
  pose proof (orphan_fields w e w' Ho)
    as (_ & Hfree & Hver & Htp & Hmb & Hbuf & Hgr).
  exists w'. split_and!; try done.
  - by rewrite (valid_ext w w').
  - intros T. destruct (m_type_positions w' !! T) as [tp|] eqn:HT.
    + rewrite (has_presence w' T e tp) by done. rewrite Hclear.
      by rewrite andb_false_r.
    + by apply has_unregistered.
  - intros F g'. rewrite Hgr, lookup_fmap.
    intros (g & HF & ->)%fmap_Some.
    apply SparseSetFacts.not_elem_of_erase. exact (wf_group_nodup w Hwf F g HF).
  - intros t i Hi. unfold presence.
    rewrite Hmb, metabuffer_at_clear_slot, clear_slot_contains.
    by rewrite decide_False.
Qed.

(** X12 -- [destroy(e)] leaves every other entity alone: for an identifier
    of another slot, [valid], [has] and [get] answer as before. *)
Theorem destroy_frame w e w' e' :
  reachable w →
  destroy w e = Some w' →
  slot e' ≠ slot e →
  valid w' e' = valid w e'
  ∧ ∀ T, has w' T e' = has w T e' ∧ get w' T e' = get w T e'.
Proof.
  intros Hwf%reachable_wf Hd Hslot.
  pose proof (destroy_wf w e w' Hwf Hd) as Hwf'.
  pose proof (destroy_result w e w' Hwf Hd)
    as (_ & _ & Hver & Htp & Hmb & Hbuf & _).
  assert (valid w' e' = valid w e') as Hvalid.
  { unfold valid. rewrite Hver, length_insert. fold (slot e').
    by rewrite list_lookup_insert_ne. }
  split; [done|]. intros T.
  assert (has w' T e' = has w T e') as Hhas.
  { destruct (m_type_positions w !! T) as [tp|] eqn:HT.
    - apply (has_ext w w' T e' tp); try done; [by rewrite Htp|].
      unfold presence.
      rewrite Hmb, metabuffer_at_clear_slot, clear_slot_contains.
      by rewrite decide_False.
    - rewrite !has_unregistered; by rewrite ?Htp. }
  split; [done|]. by rewrite !get_unfold, Hhas, Htp, Hbuf.
Qed.

(** X13 -- Destroying a freed slot again duplicates its identifier.  After
    [destroy(e)] the identifier of the same index and the next version is
    valid, so [destroy] accepts it too; the index is then twice on the free
    list and the next two [create()] calls return one and the same
    identifier. *)
Theorem double_destroy_duplicates_identifier w e :
  reachable w →
  valid w e = true →
  (Entity.version_from_entity e + 1 < Entity.u32_max)%Z →
  ∃ w1 w2 w3 w4 id,
    destroy w e = Some w1
    ∧ destroy w1 (Entity.make_entity (Entity.version_from_entity e + 1)
                                     (Entity.index_from_entity e)) = Some w2
    ∧ m_free_list w2 =
        Entity.index_from_entity e :: Entity.index_from_entity e
          :: m_free_list w
    ∧ create w2 [] = Some (w3, id)
    ∧ create w3 [] = Some (w4, id)
    ∧ valid w4 id = true.
Proof.
  intros Hwf%reachable_wf Hv Hlt.
  pose proof (EntityFacts.index_from_entity_range e) as Hidx.
  set (idx := Entity.index_from_entity e) in *.
  set (ver := Entity.version_from_entity e) in *.
  destruct (destroy_total w e) as [w1 Hd1]; [done|fold ver; lia|].
  pose proof (destroy_wf w e w1 Hwf Hd1) as Hwf1.
  pose proof (destroy_result w e w1 Hwf Hd1) as (_ & Hfree1 & Hver1 & _).
  apply valid_lookup in Hv. pose proof (lookup_lt_Some _ _ _ Hv) as Hlen.
  set (e1 := Entity.make_entity (ver + 1) idx).
  assert (slot e1 = slot e) as Hs1.
  { unfold slot, e1. by rewrite EntityFacts.index_make_entity. }
  assert (Entity.version_from_entity e1 = (ver + 1)%Z) as Hv1
    by (by apply EntityFacts.version_make_entity).
  assert (Entity.index_from_entity e1 = idx) as Hi1
    by (by apply EntityFacts.index_make_entity).
  assert (valid w1 e1 = true) as Hvalid1.
  { apply valid_lookup. rewrite Hs1, Hv1, Hver1.
    by apply list_lookup_insert_eq. }
  destruct (destroy_total w1 e1) as [w2 Hd2]; [done|rewrite Hv1; lia|].
  pose proof (destroy_result w1 e1 w2 Hwf1 Hd2) as (_ & Hfree2 & Hver2 & _).
  rewrite Hi1, Hfree1 in Hfree2. rewrite Hs1, Hv1 in Hver2.
  assert (m_versions w2 !! Z.to_nat idx = Some (ver + 1 + 1)%Z) as Hnew.
  { rewrite Hver2. apply list_lookup_insert_eq.
    by rewrite Hver1, length_insert. }
  eexists w1, w2, _, _, _. split_and!; [done|done|done|..].
  - rewrite create_no_components. by eapply create_entity_pop.
  - rewrite create_no_components. by eapply create_entity_pop.
  - apply valid_lookup. fields. unfold slot.
    by rewrite EntityFacts.index_make_entity, EntityFacts.version_make_entity.
Qed.

(** X14 -- [num_alive] and its assertion.  In a reachable world whose free
    list holds no index twice, the free list is not longer than the slot
    table: the assertion of [num_alive] holds and it returns the number of
    slots that are not on the free list. *)
Theorem num_alive_defined w :
  reachable w →
  NoDup (m_free_list w) →
  num_reusable w ≤ num_entities w
  ∧ num_alive w = Some (num_entities w - num_reusable w).
Proof.
  intros Hwf%reachable_wf Hnd.
  assert (num_reusable w ≤ num_entities w) as Hle.
  { unfold num_reusable, num_entities.
    pose proof (wf_free_range w Hwf) as Hrange.
    rewrite Forall_forall in Hrange.
    assert (length (Z.to_nat <$> m_free_list w)
            ≤ length (seq 0 (length (m_versions w)))) as Hlen.
    { apply submseteq_length, NoDup_submseteq.
      - apply NoDup_fmap_2_strong; [|done].
        intros x y Hx%Hrange Hy%Hrange Heq. lia.
      - intros i (x & -> & Hx%Hrange)%list_elem_of_fmap.
        apply elem_of_seq. lia. }
    by rewrite length_fmap, length_seq in Hlen. }
  split; [done|]. unfold num_alive. by rewrite bool_decide_true.
Qed.

Lemma assign_total w T e (v : V) :
  wf w → valid w e = true → has w T e = Some false → is_Some (assign w T e v).
Proof.
  intros Hwf Hv Hhas. unfold assign. rewrite Hv, Hhas.
  cbn [cassert negb mbind option_bind].
  destruct (accommodate_total w T Hwf) as (w1 & tp & Hacc). rewrite Hacc.
  cbn [mbind option_bind].
  pose proof (accommodate_wf w T w1 tp Hwf Hacc) as Hwf1.
  apply accommodate_spec in Hacc as (HT & _).
  pose proof (wf_positions w1 Hwf1 T tp HT) as Hlt.
  destruct (lookup_lt_is_Some_2 (m_metabuffers w1) tp) as [mb ->];
    [by rewrite (wf_metabuffers_size w1 Hwf1)|].
  cbn [mbind option_bind].
  destruct (lookup_lt_is_Some_2 (m_buffers w1) tp) as [buf ->];
    [by rewrite (wf_buffers_size w1 Hwf1)|].
  cbn [mbind option_bind]. by eexists.
Qed.


Lemma assign_or_replace_sets w T e (v : V) :
  wf w → wf_storage w →
  valid w e = true →
  ∃ w', assign_or_replace w T e v = Some w'
        ∧ has w' T e = Some true
        ∧ get w' T e = Some v
        ∧ (has w T e = Some true →
           m_groups w' = m_groups w
           ∧ m_metabuffers w' = m_metabuffers w
           ∧ m_versions w' = m_versions w
           ∧ m_free_list w' = m_free_list w).
Proof.
  intros Hwf Hst Hv.
  unfold assign_or_replace. rewrite Hv. cbn [cassert mbind option_bind].
  destruct (has_total w T e Hwf) as [[] Hhas]; rewrite Hhas;
    cbn [negb mbind option_bind].
  - destruct (get_total w T e Hwf Hst Hhas) as [old Hget]. rewrite Hget.
    cbn [mbind option_bind]. rewrite get_unfold, Hhas in Hget.
    apply bind_Some in Hget as (tp & HT & Hget).
    apply bind_Some in Hget as (buffer & Hbuf & Hold).
    rewrite HT. cbn [mbind option_bind]. rewrite Hbuf. cbn [mbind option_bind].
    eexists. split; [done|].
    set (w' := World _ _ _ _ _ _).
    assert (has w' T e = Some true) as Hhas'.
    { apply has_true in Hhas as (_ & tp' & mb & HT' & Hmb & Hc).
      apply has_true. split; [done|]. by exists tp', mb. }
    split_and!; [done| |done].
    rewrite get_unfold, Hhas'. unfold w'. fields. rewrite HT.
    cbn [mbind option_bind].
    rewrite list_lookup_insert_eq by (by eapply lookup_lt_Some).
    cbn [mbind option_bind].
    apply list_lookup_insert_eq. by eapply lookup_lt_Some.
  - destruct (assign_total w T e v Hwf Hv Hhas) as [w' Hassign].
    exists w'. split; [done|].
    destruct (assign_has_get w T e v w' Hassign) as [Hhas' Hget'].
    split_and!; [done..|]. intros [=].
Qed.

(** X27 -- [assign_or_replace<T>(e, args)] on a valid entity, with an
    argument that designates the value [v] when the call is made.  The call
    has no result in one case only: the entity lacks the component, so the
    argument is forwarded to [assign], and the argument refers into the
    vector of [T] while that vector is reallocated.  In every other case it
    succeeds, and afterwards [e] has the component with the value [v]; when
    [e] had the component already, only the buffer is written: groups,
    presence bits, versions and free list stay as they are. *)
Theorem assign_or_replace_upserts w T e capacity (a : argument V) (v : V) :
  reachable w →
  valid w e = true →
  argument_value w a = Some v →
  (has w T e = Some false → dangles w T e capacity a = true →
   assign_or_replace_forwarded w T e capacity a = None)
  ∧ (has w T e = Some true ∨ dangles w T e capacity a = false →
     ∃ w', assign_or_replace_forwarded w T e capacity a = Some w'
           ∧ has w' T e = Some true
           ∧ get w' T e = Some v
           ∧ (has w T e = Some true →
              m_groups w' = m_groups w
              ∧ m_metabuffers w' = m_metabuffers w
              ∧ m_versions w' = m_versions w
              ∧ m_free_list w' = m_free_list w)).
Proof.
  intros Hr Hv Ha. pose proof (reachable_wf w Hr) as Hwf.
  pose proof (reachable_wf_storage w Hr) as Hst.
  unfold assign_or_replace_forwarded, assign_forwarded.
  rewrite Ha, Hv. cbn [cassert mbind option_bind]. split.
  - intros -> ->. done.
  - intros Hok.
    destruct (assign_or_replace_sets w T e v Hwf Hst Hv)
      as (w' & Hrun & Hhas' & Hget' & Hsame).
    exists w'. split; [|done].
    destruct (has_total w T e Hwf) as [[] Hhas]; rewrite Hhas;
      cbn [negb mbind option_bind]; [done|].
    destruct Hok as [?| ->]; [congruence|]. cbn [negb cassert mbind option_bind].
    unfold assign_or_replace in Hrun. rewrite Hv, Hhas in Hrun. done.
Qed.

End Components.

(** ** Views *)

Section Views.
Context {V : Type} `{!Inhabited V}.
Implicit Types (w : world V) (eid : Z) (T : type_index).

(** Cached groups are never evicted. *)
Lemma step_groups_persist w o w' F :
  step w o = Some w' → is_Some (m_groups w !! F) → is_Some (m_groups w' !! F).
Proof.
  assert (∀ w T w1 p, accommodate w T = Some (w1, p) → m_groups w1 = m_groups w)
    as Hacc.
  { intros ???? (_ & _ & _ & ? & _)%accommodate_spec. done. }
  assert (∀ w Ts w1 tps, accommodate_all w Ts = Some (w1, tps) →
                         m_groups w1 = m_groups w) as Hall.
  { intros w0 Ts. revert w0. induction Ts as [|T Ts IH]; intros w0 w1 tps; simpl.
    - by intros [= <- <-].
    - intros ([wa tp] & Ha & Hrest)%bind_Some.
      apply bind_Some in Hrest as ([wb tps'] & Hb & [= <- <-]).
      rewrite (IH _ _ _ Hb). eauto. }
  assert (∀ w T e v w1, assign w T e v = Some w1 →
            is_Some (m_groups w !! F) → is_Some (m_groups w1 !! F)) as Hassign.
  { intros w0 T e v w1
      (wa & tp & mb & buffer & _ & _ & Ha & _ & _ & _ & _ & _ & _ & _ & Hgr)
      %assign_fields [g Hg].
    rewrite Hgr, map_lookup_imap, (Hacc _ _ _ _ Ha), Hg. by eexists. }
  assert (∀ w w1 e, create_entity w = Some (w1, e) → m_groups w1 = m_groups w)
    as Hcreate.
  { intros w0 w1 e. unfold create_entity. destruct (m_free_list w0).
    - rewrite cassert_bind_Some. by intros [_ [= <- <-]].
    - by intros (ver & _ & [= <- <-])%bind_Some. }
  assert (∀ w e w1, orphan w e = Some w1 →
            is_Some (m_groups w !! F) → is_Some (m_groups w1 !! F)) as Horphan.
  { intros w0 e w1 (_ & _ & _ & _ & _ & _ & Hgr)%orphan_fields [g Hg].
    rewrite Hgr, lookup_fmap, Hg. by eexists. }
  assert (∀ w T e w1, remove1 w T e = Some w1 →
            is_Some (m_groups w !! F) → is_Some (m_groups w1 !! F)) as Hremove.
  { intros w0 T e w1
      (tp & mb & _ & _ & _ & _ & _ & _ & _ & _ & _ & Hgr)%remove1_fields [g Hg].
    rewrite Hgr, map_lookup_imap, Hg. by eexists. }
  destruct o; simpl.
  - intros ([w2 e] & Hc & ->)%fmap_Some. unfold create in Hc.
    apply cassert_bind_Some in Hc as [_ Hc].
    apply bind_Some in Hc as ([w1 e1] & Hc1 & Hc).
    apply bind_Some in Hc as (w3 & Hdef & [= <- <-]).
    rewrite <- (Hcreate _ _ _ Hc1). clear Hc1. revert w1 Hdef.
    induction Ts as [|T Ts IH]; intros w1; simpl.
    + by intros [= <-].
    + intros (wa & Ha & Hrest)%bind_Some HF. eauto.
  - unfold destroy. intros (w1 & Ho & Hrest)%bind_Some HF.
    apply cassert_bind_Some in Hrest as [_ [= <-]]. fields. eauto.
  - eauto.
  - eauto.
  - unfold assign_or_replace. rewrite cassert_bind_Some.
    intros [_ (b & _ & Hrest)%bind_Some]. destruct b; simpl in Hrest; [|eauto].
    apply bind_Some in Hrest as (_ & _ & Hrest).
    apply bind_Some in Hrest as (tp & _ & Hrest).
    by apply bind_Some in Hrest as (buffer & _ & [= <-]).
  - unfold remove. destruct Ts as [|T [|T' Ts]]; [done|eauto|].
    rewrite cassert_bind_Some. intros [_ Hrem]. revert w Hrem.
    generalize (T :: T' :: Ts) as Us.
    induction Us as [|U Us IH]; intros w0; simpl.
    + by intros [= <-].
    + intros (wa & Ha & Hrest)%bind_Some HF. eauto.
  - intros ([w2 h] & Hc & ->)%fmap_Some. cbn [fst]. unfold view in Hc.
    apply cassert_bind_Some in Hc as [_ Hc].
    apply bind_Some in Hc as ([w1 tps] & Ha & Hg).
    rewrite <- (Hall _ _ _ _ Ha).
    apply group_by_fields in Hg as (_ & _ & _ & _ & _ & _ & _ & Hcase).
    destruct Hcase as [[_ ->]|[_ ->]]; [done|].
    intros HF. destruct (decide (h = F)) as [->|Hne].
    + rewrite lookup_insert_eq. by eexists.
    + by rewrite lookup_insert_ne.
  - unfold reserve. rewrite cassert_bind_Some. intros [_ Hrest].
    apply fmap_Some in Hrest as ([w1 tps] & Ha & ->). simpl.
    by rewrite (Hall _ _ _ _ Ha).
  - intros ([w2 e] & Hc & ->)%fmap_Some. unfold clone in Hc.
    apply cassert_bind_Some in Hc as [_ Hc].
    apply bind_Some in Hc as ([w1 e1] & Hc1 & Hc).
    apply bind_Some in Hc as (w3 & Hcl & [= <- <-]).
    rewrite <- (Hcreate _ _ _ Hc1). clear Hc1. revert w1 Hcl.
    induction Ts as [|T Ts IH]; intros w1; simpl.
    + by intros [= <-].
    + intros (v & _ & Hrest)%bind_Some.
      apply bind_Some in Hrest as (wa & Ha & Hrest). eauto.
Qed.

Lemma run_groups_persist w ops w' F :
  run w ops = Some w' → is_Some (m_groups w !! F) → is_Some (m_groups w' !! F).
Proof.
  unfold run. revert w. induction ops as [|o ops IH]; intros w; simpl.
  - by intros [= <-].
  - destruct (step w o) as [w1|] eqn:Hstep.
    + intros Hrun HF. apply (IH w1 Hrun). by eapply step_groups_persist.
    + intros Hnone. exfalso. clear -Hnone.
      induction ops as [|o' ops IH']; simpl in *; [done|auto].
Qed.

(** The positions that [view<Ts...>] hands to [group_by]. *)
Lemma accommodate_all_positions w Ts w' tps :
  wf w → accommodate_all w Ts = Some (w', tps) →
  Forall2 (λ T p, m_type_positions w' !! T = Some p) Ts tps.
Proof.
  revert w w' tps. induction Ts as [|T Ts IH]; intros w w' tps Hwf; simpl.
  - intros [= <- <-]. constructor.
  - intros ([w1 tp] & Hacc & Hrest)%bind_Some.
    apply bind_Some in Hrest as ([w2 tps'] & Hall & [= <- <-]).
    pose proof (accommodate_wf w T w1 tp Hwf Hacc) as Hwf1.
    pose proof (accommodate_spec w T w1 tp Hacc) as (HT & _).
    pose proof (accommodate_all_keeps w1 Ts w2 tps' Hwf1 Hall) as [[_ Hext] _].
    constructor; [by apply Hext|]. by eapply IH.
Qed.

Lemma has_each_spec w Ts eid :
  wf w →
  ∃ b, has_each w Ts eid = Some b
       ∧ (b = true ↔ ∀ T, T ∈ Ts → has w T eid = Some true).
Proof.
  intros Hwf. induction Ts as [|T Ts (b & Hb & Hspec)]; simpl.
  - exists true. split; [done|]. split; [|done]. by intros _ T []%elem_of_nil.
  - destruct (has_total w T eid Hwf) as [[] Hhas]; rewrite Hhas.
    + exists b. split; [done|]. rewrite Hspec. split.
      * intros Hall T' [->|?]%elem_of_cons; auto.
      * intros Hall T' HT'. apply Hall. by right.
    + exists false. split; [done|]. split; [done|].
      intros Hall. specialize (Hall T). rewrite Hhas in Hall.
      discriminate Hall. by left.
Qed.

Lemma has_all_spec w Ts eid :
  wf w → Ts ≠ [] → NoDup Ts →
  ∃ b, has_all w Ts eid = Some b
       ∧ (b = true ↔ ∀ T, T ∈ Ts → has w T eid = Some true).
Proof.
  intros Hwf Hne Hnd. destruct (has_each_spec w Ts eid Hwf) as (b & Hb & Hspec).
  exists b. split; [|done]. unfold has_all.
  destruct Ts as [|T [|T' Ts]]; [done| |].
  - simpl in Hb. by destruct (has w T eid) as [[]|].
  - by rewrite bool_decide_true.
Qed.

(** Membership in the group of [Ts], in terms of [has]. *)
Lemma group_members_have_all w Ts tps g eid :
  wf w → Ts ≠ [] →
  Forall2 (λ T p, m_type_positions w !! T = Some p) Ts tps →
  m_groups w !! make_filter tps = Some g →
  eid ∈ g ↔ ∀ T, T ∈ Ts → has w T eid = Some true.
Proof.
  intros Hwf Hne Hpos Hg.
  rewrite (wf_group_members w Hwf _ g Hg eid). unfold filter_matches. split.
  - intros [Hv Hm] T HT.
    apply list_elem_of_lookup in HT as [i Hi].
    destruct (Forall2_lookup_l _ _ _ _ _ Hpos Hi) as (p & Hp & HTp).
    rewrite (has_presence w T eid p Hwf HTp), Hv. simpl. f_equal.
    apply Hm, make_filter_lookup. by eapply list_elem_of_lookup_2.
  - intros Hall. split.
    + destruct Ts as [|T Ts]; [done|].
      destruct (has_true w T eid) as [Hh _].
      apply Hh, Hall. by left.
    + intros t Ht%make_filter_lookup.
      apply list_elem_of_lookup in Ht as [i Hi].
      destruct (Forall2_lookup_r _ _ _ _ _ Hpos Hi) as (T & HT & HTp).
      assert (has w T eid = Some true) as Hhas
        by (apply Hall; by eapply list_elem_of_lookup_2).
      rewrite (has_presence w T eid t Hwf HTp) in Hhas.
      injection Hhas as Hhas. by apply andb_true_iff in Hhas as [_ ?].
Qed.

(** X15 -- A view stays in sync.  After [view<Ts...>()], and after any
    further operations on the world, [view::contains(e)] holds exactly when
    [has<Ts...>(e)] does. *)
Theorem view_stays_in_sync w0 Ts w1 handle ops w e :
  reachable w0 →
  view w0 Ts = Some (w1, handle) →
  run w1 ops = Some w →
  view_contains w handle e = true ↔ has_all w Ts e = Some true.
Proof.
  intros Hr0 Hview Hrun. pose proof (reachable_wf w0 Hr0) as Hwf0.
  pose proof (view_wf w0 Ts w1 handle Hwf0 Hview) as Hwf1.
  destruct (run_keeps w1 ops w Hwf1 Hrun) as [[[_ Hext] _] Hwf].
  unfold view in Hview.
  apply cassert_bind_Some in Hview as [[HTs Hnd]%bool_decide_eq_true Hview].
  apply bind_Some in Hview as ([wa tps] & Hall & Hgroup).
  destruct (accommodate_all_wf w0 Ts wa tps Hwf0 Hall) as [Hwfa _].
  pose proof (accommodate_all_positions w0 Ts wa tps Hwf0 Hall) as Hpos.
  pose proof (group_by_fields wa tps w1 handle Hgroup)
    as (-> & _ & _ & _ & Htp1 & _ & _ & Hcase).
  assert (is_Some (m_groups w1 !! make_filter tps)) as Hsome.
  { destruct Hcase as [[? ->]|[_ ->]]; [done|].
    rewrite lookup_insert_eq. by eexists. }
  destruct (run_groups_persist w1 ops w _ Hrun Hsome) as [g Hg].
  assert (Forall2 (λ T p, m_type_positions w !! T = Some p) Ts tps) as Hpos'.
  { eapply Forall2_impl; [exact Hpos|]. intros T p HT. apply Hext.
    by rewrite Htp1. }
  unfold view_contains, view_entities. rewrite Hg. simpl.
  rewrite SparseSetFacts.contains_true.
  rewrite (group_members_have_all w Ts tps g e Hwf HTs Hpos' Hg).
  destruct (has_all_spec w Ts e Hwf HTs Hnd) as (b & -> & Hspec).
  rewrite <- Hspec. split; [by intros ->|by intros [= ->]].
Qed.

(** What is known of a view after further operations. *)
Lemma view_run_group w0 Ts w1 handle ops w :
  wf w0 →
  view w0 Ts = Some (w1, handle) →
  run w1 ops = Some w →
  wf w ∧ Ts ≠ [] ∧ NoDup Ts
  ∧ ∃ tps g, handle = make_filter tps
             ∧ Forall2 (λ T p, m_type_positions w !! T = Some p) Ts tps
             ∧ m_groups w !! handle = Some g.
Proof.
  intros Hwf0 Hview Hrun.
  pose proof (view_wf w0 Ts w1 handle Hwf0 Hview) as Hwf1.
  destruct (run_keeps w1 ops w Hwf1 Hrun) as [[[_ Hext] _] Hwf].
  unfold view in Hview.
  apply cassert_bind_Some in Hview as [[HTs Hnd]%bool_decide_eq_true Hview].
  apply bind_Some in Hview as ([wa tps] & Hall & Hgroup).
  pose proof (accommodate_all_positions w0 Ts wa tps Hwf0 Hall) as Hpos.
  pose proof (group_by_fields wa tps w1 handle Hgroup)
    as (-> & _ & _ & _ & Htp1 & _ & _ & Hcase).
  assert (is_Some (m_groups w1 !! make_filter tps)) as Hsome.
  { destruct Hcase as [[? ->]|[_ ->]]; [done|].
    rewrite lookup_insert_eq. by eexists. }
  destruct (run_groups_persist w1 ops w _ Hrun Hsome) as [g Hg].
  split_and!; try done. exists tps, g. split_and!; try done.
  eapply Forall2_impl; [exact Hpos|]. intros T p HT. apply Hext.
  by rewrite Htp1.
Qed.

Lemma elem_of_slot_entities vs (k : nat) id :
  id ∈ slot_entities vs k ↔
  ∃ j v, vs !! j = Some v ∧ id = Entity.make_entity v (Z.of_nat (k + j)).
Proof.
  revert k. induction vs as [|v vs IH]; intros k; simpl.
  - rewrite elem_of_nil. split; [done|]. by intros (j & ? & ? & _).
  - rewrite elem_of_cons, IH. split.
    + intros [->|(j & v' & Hj & ->)].
      * exists 0, v. by rewrite Nat.add_0_r.
      * exists (S j), v'. by replace (k + S j) with (S k + j) by lia.
    + intros ([|j] & v' & Hj & ->); simpl in Hj.
      * left. injection Hj as <-. by rewrite Nat.add_0_r.
      * right. exists j, v'. by replace (S k + j) with (k + S j) by lia.
Qed.

Lemma NoDup_slot_entities vs (k : nat) :
  (Z.of_nat (k + length vs) ≤ 2 ^ 32)%Z → NoDup (slot_entities vs k).
Proof.
  revert k. induction vs as [|v vs IH]; intros k Hk; simpl; [constructor|].
  simpl in Hk. apply NoDup_cons. split; [|apply IH; lia].
  intros (j & v' & Hj & Heq)%elem_of_slot_entities.
  apply lookup_lt_Some in Hj.
  apply (f_equal slot) in Heq. rewrite !slot_make_entity in Heq by lia. lia.
Qed.

Lemma count_from_spec w Ts vs (k : nat) :
  wf w → Ts ≠ [] → NoDup Ts →
  (Z.of_nat (k + length vs) ≤ int_max)%Z →
  count_from w Ts vs (Z.of_nat k) =
  Some (length (filter (λ id, has_all w Ts id = Some true) (slot_entities vs k))).
Proof.
  intros Hwf HTs Hnd. revert k.
  induction vs as [|v vs IH]; intros k Hk; simpl; [done|].
  simpl in Hk. rewrite bool_decide_true by lia.
  cbn [cassert mbind option_bind].
  destruct (has_all_spec w Ts (Entity.make_entity v (Z.of_nat k)) Hwf HTs Hnd)
    as (b & Hb & _).
  rewrite Hb. cbn [mbind option_bind].
  replace (Z.of_nat k + 1)%Z with (Z.of_nat (S k)) by lia.
  rewrite IH by lia. cbn [mbind option_bind]. f_equal.
  rewrite filter_cons. rewrite Hb.
  destruct b; [by rewrite decide_True|by rewrite decide_False].
Qed.

(** X16 -- [count<Ts...>()] agrees with the view.  After [view<Ts...>()]
    and any further operations, while the world has at most [INT_MAX] slots
    (the counter of [count] is an [int]), [count<Ts...>()] returns the size
    of the view. *)
Theorem count_is_view_size w0 Ts w1 handle ops w :
  reachable w0 →
  view w0 Ts = Some (w1, handle) →
  run w1 ops = Some w →
  (Z.of_nat (num_entities w) ≤ int_max)%Z →
  count w Ts = Some (view_size w handle).
Proof.
  intros Hwf0%reachable_wf Hview Hrun Hsize.
  destruct (view_run_group w0 Ts w1 handle ops w Hwf0 Hview Hrun)
    as (Hwf & HTs & Hnd & tps & g & -> & Hpos & Hg).
  unfold count, view_size, view_entities, SparseSet.size. rewrite Hg. simpl.
  unfold num_entities in Hsize.
  change 0%Z with (Z.of_nat 0).
  rewrite (count_from_spec w Ts (m_versions w) 0) by done.
  f_equal. apply Permutation_length, NoDup_Permutation.
  - apply NoDup_filter, NoDup_slot_entities. unfold int_max in Hsize. simpl. lia.
  - exact (wf_group_nodup w Hwf _ g Hg).
  - intros id. rewrite list_elem_of_filter, elem_of_slot_entities.
    rewrite (group_members_have_all w Ts tps g id Hwf HTs Hpos Hg).
    destruct (has_all_spec w Ts id Hwf HTs Hnd) as (b & Hb & Hspec).
    rewrite Hb, <- Hspec. split.
    + by intros [[= ->] _].
    + intros ->. split; [done|].
      assert (valid w id = true) as Hv.
      { destruct Ts as [|T Ts]; [done|].
        destruct (has_true w T id) as [Hh _]. apply Hh, Hspec; [done|by left]. }
      apply valid_lookup in Hv.
      exists (slot id), (Entity.version_from_entity id). split; [done|].
      simpl. by rewrite slot_index, EntityFacts.make_entity_split.
Qed.

Lemma accommodate_all_spec w Ts w' tps :
  accommodate_all w Ts = Some (w', tps) →
  m_versions w' = m_versions w
  ∧ m_free_list w' = m_free_list w
  ∧ m_groups w' = m_groups w
  ∧ (∀ t, metabuffer_at (m_metabuffers w') t = metabuffer_at (m_metabuffers w) t)
  ∧ ∀ t (buf : list V), m_buffers w !! t = Some buf → m_buffers w' !! t = Some buf.
Proof.
  revert w w' tps. induction Ts as [|T Ts IH]; intros w w' tps; simpl.
  - by intros [= <- <-].
  - intros ([w1 tp] & Hacc & Hrest)%bind_Some.
    apply bind_Some in Hrest as ([w2 tps'] & Hall & [= <- <-]).
    destruct (IH _ _ _ Hall) as (Hv & Hf & Hg & Hat & Hb).
    pose proof (accommodate_spec w T w1 tp Hacc)
      as (_ & Hv1 & Hf1 & Hg1 & Hat1 & _).
    split_and!; [congruence..| |].
    + intros t. by rewrite Hat.
    + intros t buf Hbuf. eapply Hb, accommodate_buffers; eauto.
Qed.

(** X17 -- Requesting a view changes nothing that can be observed of the
    entities: the groups that were cached keep their entities and order, and
    [valid], [has<T>] and [get<T>] answer as before for every identifier
    and every type, also for the types the request registers. *)
Theorem view_frame w Ts w' handle e T :
  reachable w →
  view w Ts = Some (w', handle) →
  (∀ F g, m_groups w !! F = Some g → m_groups w' !! F = Some g)
  ∧ is_Some (m_groups w' !! handle)
  ∧ valid w' e = valid w e
  ∧ has w' T e = has w T e
  ∧ get w' T e = get w T e.
Proof.
  intros Hr Hview. pose proof (reachable_wf w Hr) as Hwf.
  pose proof (reachable_wf_storage w Hr) as Hst.
  assert (reachable w') as Hr'.
  { apply (reachable_step w (OpView Ts) w' Hr). simpl. by rewrite Hview. }
  pose proof (reachable_wf w' Hr') as Hwf'.
  pose proof (reachable_wf_storage w' Hr') as Hst'.
  assert (extends w w') as [_ Hext].
  { apply (step_keeps w (OpView Ts) w' Hwf). simpl. by rewrite Hview. }
  unfold view in Hview. apply cassert_bind_Some in Hview as [_ Hview].
  apply bind_Some in Hview as ([wa tps] & Hall & Hgroup).
  pose proof (accommodate_all_spec w Ts wa tps Hall)
    as (Hva & _ & Hga & Hata & Hba).
  pose proof (group_by_fields wa tps w' handle Hgroup)
    as (-> & _ & _ & Hv' & _ & Hmb' & Hbuf' & Hcase).
  assert (valid w' e = valid w e) as Hvalid
    by (apply valid_ext; congruence).
  assert (∀ t i, presence w' t i = presence w t i) as Hpres.
  { intros t i. unfold presence. by rewrite Hmb', Hata. }
  assert (has w' T e = has w T e) as Hhas.
  { destruct (m_type_positions w !! T) as [tp|] eqn:HT.
    - apply (has_ext w w' T e tp); auto.
    - rewrite (has_unregistered w T e HT).
      destruct (m_type_positions w' !! T) as [tp|] eqn:HT';
        [|by apply has_unregistered].
      rewrite (has_presence w' T e tp Hwf' HT'), Hpres.
      assert (size (m_type_positions w) ≤ tp) as Hge.
      { apply Nat.le_ngt. intros Hlt.
        destruct (wfs_positions_dense w Hst tp Hlt) as [T0 HT0].
        pose proof (Hext T0 tp HT0) as HT0'.
        assert (T0 = T) as -> by (eapply (wfs_positions_inj w' Hst'); eauto).
        congruence. }
      unfold presence, metabuffer_at.
      rewrite lookup_ge_None_2 by (by rewrite (wf_metabuffers_size w Hwf)).
      by rewrite andb_false_r. }
  split_and!; try done.
  - intros F g HF. rewrite <- Hga in HF.
    destruct Hcase as [[_ ->]|[Hnone ->]]; [done|].
    rewrite lookup_insert_ne; [done|]. intros <-. congruence.
  - destruct Hcase as [[? ->]|[_ ->]]; [done|].
    rewrite lookup_insert_eq. by eexists.
  - rewrite !get_unfold, Hhas.
    destruct (has w T e) as [[]|] eqn:Hhasw; [|done..].
    apply has_true in Hhasw as (_ & tp & mb & HT & Hmb & _).
    rewrite HT, (Hext T tp HT). cbn [mbind option_bind].
    pose proof (lookup_lt_Some _ _ _ Hmb) as Hlt.
    rewrite (wf_metabuffers_size w Hwf), <- (wf_buffers_size w Hwf) in Hlt.
    apply lookup_lt_is_Some_2 in Hlt as [buf Hbuf].
    by rewrite Hbuf', (Hba tp buf Hbuf), Hbuf.
Qed.

Lemma destroy_range_dead w es w' e :
  wf w →
  (∃ v, m_versions w !! slot e = Some v ∧ (Entity.version_from_entity e < v)%Z) →
  destroy_range w es = Some w' →
  (e ∉ es)
  ∧ ∃ v, m_versions w' !! slot e = Some v ∧ (Entity.version_from_entity e < v)%Z.
Proof.
  revert w. induction es as [|x es IH]; intros w Hwf Hdead; simpl.
  - intros [= <-]. split; [apply not_elem_of_nil|done].
  - intros (w1 & Hd & Hrest)%bind_Some.
    pose proof (destroy_wf w x w1 Hwf Hd) as Hwf1.
    pose proof (destroy_keeps w x w1 Hwf Hd) as [[Hvers _] _].
    pose proof (destroy_result w x w1 Hwf Hd) as (Hvx & _).
    destruct Hdead as (v & Hv & Hlt).
    destruct (Hvers _ _ Hv) as (v' & Hv' & Hle).
    destruct (IH w1 Hwf1) as [Hout Hdead']; [exists v'; split; [done|lia]|done|].
    split; [|done]. apply not_elem_of_cons. split; [|done].
    intros ->. apply valid_lookup in Hvx. rewrite Hv in Hvx.
    injection Hvx as ->. lia.
Qed.

(** X18 -- [destroy(first, last)] destroys each entity once.  When the call
    goes through, the range lists no identifier twice (a repeated identifier
    fails the assertion of [destroy] at its second occurrence) and every
    identifier of the range is invalid afterwards. *)
Theorem destroy_range_once w es w' :
  reachable w →
  destroy_range w es = Some w' →
  NoDup es ∧ ∀ e, e ∈ es → valid w' e = false.
Proof.
  intros Hwf%reachable_wf. revert w Hwf.
  induction es as [|x es IH]; intros w Hwf; simpl.
  - intros [= <-]. split; [constructor|]. by intros e []%elem_of_nil.
  - intros (w1 & Hd & Hrest)%bind_Some.
    pose proof (destroy_wf w x w1 Hwf Hd) as Hwf1.
    pose proof (destroy_result w x w1 Hwf Hd) as (Hvx & _ & Hver & _).
    apply valid_lookup in Hvx. pose proof (lookup_lt_Some _ _ _ Hvx) as Hlt.
    destruct (destroy_range_dead w1 es w' x Hwf1) as [Hout (v & Hv & Hdead)];
      [|done|].
    { eexists. split; [rewrite Hver; by apply list_lookup_insert_eq|lia]. }
    destruct (IH w1 Hwf1 Hrest) as [Hnd Hinv].
    split; [by apply NoDup_cons|].
    intros e [->|He]%elem_of_cons; [|by auto].
    apply not_true_is_false. rewrite valid_lookup, Hv. intros [= ->]. lia.
Qed.

Lemma valid_range_ext w w' es :
  m_versions w' = m_versions w → valid_range w' es = valid_range w es.
Proof.
  intros Hver. unfold valid_range. induction es as [|x es IH]; [done|].
  cbn [forallb]. by rewrite IH, (valid_ext w w').
Qed.

Lemma orphan_range_spec w es :
  wf w →
  (is_Some (orphan_range w es) ↔ valid_range w es = true)
  ∧ ∀ w', orphan_range w es = Some w' →
          wf w'
          ∧ m_versions w' = m_versions w
          ∧ (∀ t i, presence w t i = false → presence w' t i = false)
          ∧ ∀ e t, e ∈ es → presence w' t (slot e) = false.
Proof.
  revert w. induction es as [|x es IH]; intros w Hwf.
  - split; [split; [done|by eexists]|].
    intros w' [= <-]. split_and!; [done..|]. by intros e t ?%elem_of_nil.
  - cbn [orphan_range valid_range forallb].
    destruct (orphan w x) as [w1|] eqn:Ho; cbn [mbind option_bind].
    + pose proof (orphan_wf w x w1 Hwf Ho) as Hwf1.
      pose proof (orphan_presence w x w1) as Hclear.
      pose proof (orphan_fields w x w1 Ho) as (Hv & _ & Hver & _ & Hmb & _).
      destruct (IH w1 Hwf1) as [Hdef Hpost]. rewrite Hv, andb_true_l.
      assert (∀ t i, presence w t i = false → presence w1 t i = false) as Hmono.
      { intros t i. unfold presence.
        rewrite Hmb, metabuffer_at_clear_slot, clear_slot_contains.
        by case_decide. }
      split.
      * by rewrite Hdef, (valid_range_ext w w1).
      * intros w' Hrest.
        destruct (Hpost w' Hrest) as (Hwf' & Hver' & Hkeep & Hall).
        split_and!; [done|congruence|by auto|].
        intros e t [->|He]%elem_of_cons; [|by auto].
        apply Hkeep. by apply Hclear.
    + split; [|done]. split; [by intros [? ?]|].
      intros [Hv _]%andb_true_iff. unfold orphan in Ho. by rewrite Hv in Ho.
Qed.

(** X19 -- [orphan(first, last)] goes through exactly when [valid(first,
    last)] holds, repeated identifiers included; afterwards every entity of
    the range is still valid and has no component of any type, and no
    version has changed. *)
Theorem orphan_range_strips w es :
  reachable w →
  (is_Some (orphan_range w es) ↔ valid_range w es = true)
  ∧ ∀ w', orphan_range w es = Some w' →
          m_versions w' = m_versions w
          ∧ ∀ e, e ∈ es → valid w' e = true ∧ ∀ T, has w' T e = Some false.
Proof.
  intros Hwf%reachable_wf.
  destruct (orphan_range_spec w es Hwf) as [Hdef Hpost]. split; [done|].
  intros w' Hrun. destruct (Hpost w' Hrun) as (Hwf' & Hver & _ & Hall).
  split; [done|]. intros e He.
  assert (valid w' e = true) as Hv.
  { rewrite (valid_ext w w') by done.
    assert (valid_range w es = true) as Hvr by (apply Hdef; by eexists).
    unfold valid_range in Hvr. rewrite forallb_forall in Hvr.
    apply Hvr. by apply list_elem_of_In. }
  split; [done|]. intros T.
  destruct (m_type_positions w' !! T) as [tp|] eqn:HT.
  - rewrite (has_presence w' T e tp) by done.
    by rewrite (Hall e tp He), andb_false_r.
  - by apply has_unregistered.
Qed.

(** X20 -- [size<T>()] bounds the slots in use: in every reachable world,
    when an entity has a component of type [T], [size<T>()] is defined and
    greater than the index of the entity. *)
Theorem size_covers_components w T e :
  reachable w →
  has w T e = Some true →
  ∃ n, size_of w T = Some n ∧ slot e < n.
Proof.
  intros Hr Hhas. pose proof (reachable_wf w Hr) as Hwf.
  pose proof (reachable_wf_storage w Hr) as Hst.
  apply has_true in Hhas as (_ & tp & mb & HT & Hmb & Hc).
  unfold size_of, world_contains. rewrite HT.
  rewrite bool_decide_true by (by eexists). cbn [cassert mbind option_bind].
  pose proof (lookup_lt_Some _ _ _ Hmb) as Hlt.
  rewrite (wf_metabuffers_size w Hwf), <- (wf_buffers_size w Hwf) in Hlt.
  apply lookup_lt_is_Some_2 in Hlt as [buf Hbuf]. rewrite Hbuf.
  cbn [mbind option_bind]. eexists. split; [done|].
  apply BitsetFacts.contains_lookup, lookup_lt_Some in Hc.
  pose proof (wfs_buffers_cover w Hst tp mb buf Hmb Hbuf). lia.
Qed.

End Views.

(** ** [index_of] *)

Lemma drop_while_length {A} (p : A → bool) (l : list A) :
  length (drop_while p l) ≤ length l.
Proof.
  induction l as [|x r IH]; simpl; [lia|]. destruct (p x); simpl; lia.
Qed.

Lemma index_of_cons {A} `{EqDecision A} (x y : A) (r : list A) :
  index_of x (y :: r) = if decide (y = x) then 0 else S (index_of x r).
Proof.
  unfold index_of. simpl. case_decide as Hy.
  - rewrite bool_decide_true by done. simpl. lia.
  - rewrite bool_decide_false by done. simpl.
    pose proof (drop_while_length
      (λ z, negb (bool_decide (z = x))) r). lia.
Qed.

(** X21 -- [index_of(element, iterable)] is the position of the first
    occurrence: it is at most the length, the element is found there when it
    occurs at all, it does not occur at any smaller position, and the result
    is the length exactly when the element is absent. *)
Theorem index_of_first_occurrence {A} `{EqDecision A} (x : A) (l : list A) :
  index_of x l ≤ length l
  ∧ (x ∈ l → l !! index_of x l = Some x)
  ∧ (∀ j, j < index_of x l → l !! j ≠ Some x)
  ∧ (x ∉ l ↔ index_of x l = length l).
Proof.
  induction l as [|y r (Hle & Hin & Hbefore & Hout)].
  - split_and!; [done|by intros ?%elem_of_nil|intros j; unfold index_of; simpl; lia|].
    split; [done|]. intros _. apply not_elem_of_nil.
  - rewrite index_of_cons. case_decide as Hy.
    + subst y. split_and!; [simpl; lia|done|intros j; lia|].
      split; [intros Hnot; destruct Hnot; by left|done].
    + split_and!.
      * simpl. lia.
      * intros [?|Hr]%elem_of_cons; [congruence|]. simpl. auto.
      * intros [|j] Hj; simpl; [congruence|]. apply Hbefore. lia.
      * rewrite not_elem_of_cons, Hout. simpl. split; [intros [_ ->]; done|].
        intros [= ->]. split; [congruence|done].
Qed.

(** ** [chunked_buffer] *)

Module ChunkedBufferFacts.
Import ChunkedBuffer.

Lemma block_Some b index :
  (0 < m_chunk_size b)%Z → block b index = Some (index / m_chunk_size b)%Z.
Proof. intros Hcs. unfold block. by rewrite bool_decide_false by lia. Qed.

Lemma offset_Some b index :
  (0 < m_chunk_size b)%Z →
  offset b index =
  Some (Entity.wrap32 ((index mod m_chunk_size b) * m_object_size b)).
Proof. intros Hcs. unfold offset. by rewrite bool_decide_false by lia. Qed.

(** [data] succeeds exactly on the indices of an allocated block. *)
Lemma data_Some b index :
  (0 < m_chunk_size b)%Z → (0 ≤ index)%Z →
  is_Some (data b index) ↔
  ∃ sz, m_blocks b !! Z.to_nat (index / m_chunk_size b) = Some (Some sz).
Proof.
  intros Hcs Hidx. unfold data. rewrite block_Some, offset_Some by done.
  cbn [mbind option_bind].
  assert (0 ≤ index / m_chunk_size b)%Z by (apply Z.div_pos; lia).
  destruct (m_blocks b !! Z.to_nat (index / m_chunk_size b)) as [[sz|]|] eqn:Hl;
    cbn [mjoin option_join].
  - apply lookup_lt_Some in Hl as Hlt.
    rewrite bool_decide_true by lia. rewrite bool_decide_true by (by eexists).
    cbn [andb cassert mbind option_bind]. split; [by eauto|by eexists].
  - rewrite (bool_decide_false (is_Some None)) by (by intros [? ?]).
    rewrite andb_false_r. cbn [cassert mbind option_bind].
    split; [by intros [? ?]|]. by intros [? ?].
  - rewrite (bool_decide_false (is_Some None)) by (by intros [? ?]).
    rewrite andb_false_r. cbn [cassert mbind option_bind].
    split; [by intros [? ?]|]. by intros [? ?].
Qed.

(** The address depends on the buffer through its two sizes only. *)
Lemma data_ext b b' index :
  (0 < m_chunk_size b)%Z → (0 ≤ index)%Z →
  m_chunk_size b' = m_chunk_size b → m_object_size b' = m_object_size b →
  is_Some (data b index) → is_Some (data b' index) →
  data b' index = data b index.
Proof.
  intros Hcs Hidx Hcs' Hos' [a Ha] [a' Ha']. rewrite Ha, Ha'.
  unfold data in Ha, Ha'.
  rewrite block_Some, offset_Some in Ha by done.
  rewrite block_Some, offset_Some in Ha' by lia.
  cbn [mbind option_bind] in Ha, Ha'.
  apply cassert_bind_Some in Ha as [_ [= <-]].
  apply cassert_bind_Some in Ha' as [_ [= <-]].
  by rewrite Hcs', Hos'.
Qed.

(** X22 -- [accommodate(index)] makes the index accessible and keeps what
    was accessible.  With a chunk size above 0 and the block number of the
    index below [0xFFFFFFFF], [accommodate] succeeds, [data(index)] then
    succeeds, and every index that [data] accepted before gets the same
    address as before. *)
Theorem accommodate_makes_accessible b index :
  (0 < m_chunk_size b)%Z →
  (0 ≤ index)%Z →
  (index / m_chunk_size b < Entity.u32_max)%Z →
  ∃ b', accommodate b index = Some b'
        ∧ is_Some (data b' index)
        ∧ m_chunk_size b' = m_chunk_size b
        ∧ m_object_size b' = m_object_size b
        ∧ ∀ j, (0 ≤ j)%Z → is_Some (data b j) → data b' j = data b j.
Proof.
  intros Hcs Hidx Hblock. unfold accommodate. rewrite block_Some by done.
  cbn [mbind option_bind].
  set (bi := (index / m_chunk_size b)%Z) in *.
  assert (0 ≤ bi)%Z as Hbi by (apply Z.div_pos; lia).
  rewrite EntityFacts.wrap32_small by lia.
  set (blocks := if bool_decide (Z.of_nat (length (m_blocks b)) ≤ bi)%Z
                 then list.resize (Z.to_nat (bi + 1)) None (m_blocks b)
                 else m_blocks b).
  assert (Z.to_nat bi < length blocks) as Hlen.
  { unfold blocks. case_bool_decide; [rewrite length_resize|]; lia. }
  assert (∀ k sz, m_blocks b !! k = Some (Some sz) →
                  blocks !! k = Some (Some sz)) as Hkeep.
  { intros k sz Hk. unfold blocks. case_bool_decide; [|done].
    apply lookup_lt_Some in Hk as Hklt. by rewrite lookup_resize by lia. }
  destruct (lookup_lt_is_Some_2 blocks (Z.to_nat bi) Hlen) as [entry Hentry].
  rewrite Hentry. cbn [mbind option_bind].
  eexists. split; [done|].
  set (b' := Buffer _ _ _ _).
  assert (∀ k sz, m_blocks b !! k = Some (Some sz) →
                  m_blocks b' !! k = Some (Some sz)) as Hkeep'.
  { intros k sz Hk%Hkeep. unfold b'. cbn [m_blocks].
    destruct entry as [sz'|]; [done|].
    rewrite list_lookup_insert_ne; [done|]. intros <-. congruence. }
  split_and!; [|done|done|].
  - apply data_Some; [done..|]. unfold b'. cbn [m_blocks m_chunk_size].
    fold bi. destruct entry as [sz|]; [by eauto|].
    rewrite list_lookup_insert_eq by done. by eauto.
  - intros j Hj Hdata. apply data_ext; try done.
    apply data_Some; [done..|]. apply data_Some in Hdata as [sz Hsz]; [|done..].
    exists sz. by apply Hkeep'.
Qed.

Lemma allocate_below_length sz k blocks :
  length (allocate_below sz k blocks) = length blocks.
Proof.
  revert blocks. induction k as [|k IH]; intros [|entry rest]; simpl; auto.
Qed.

Lemma allocate_below_lookup sz k blocks i :
  allocate_below sz k blocks !! i =
  if decide (i < k)
  then (λ entry, Some (default sz entry)) <$> blocks !! i
  else blocks !! i.
Proof.
  revert blocks i. induction k as [|k IH]; intros [|entry rest] i.
  - by destruct (decide (i < 0)).
  - destruct (decide (i < 0)); [lia|done].
  - by destruct (decide (i < S k)).
  - destruct i as [|i]; cbn [allocate_below lookup list_lookup].
    + destruct (decide (0 < S k)); [|lia]. by destruct entry.
    + rewrite IH.
      destruct (decide (i < k)), (decide (S i < S k)); try lia; done.
Qed.

Lemma accommodate_sizes b index b' :
  accommodate b index = Some b' →
  m_object_size b' = m_object_size b
  ∧ m_chunk_size b' = m_chunk_size b
  ∧ ∀ k sz, m_blocks b' !! k = Some (Some sz) →
            m_blocks b !! k = Some (Some sz)
            ∨ sz = Entity.wrap32 (m_object_size b * m_chunk_size b).
Proof.
  unfold accommodate. intros (bi & _ & Hrest)%bind_Some.
  apply bind_Some in Hrest as (entry & Hentry & [= <-]).
  cbn [m_object_size m_chunk_size m_blocks]. split_and!; [done..|].
  assert (∀ k sz,
    (if bool_decide (Z.of_nat (length (m_blocks b)) ≤ bi)%Z
     then list.resize (Z.to_nat (Entity.wrap32 (bi + 1))) None (m_blocks b)
     else m_blocks b) !! k = Some (Some sz) →
    m_blocks b !! k = Some (Some sz)) as Hresize.
  { intros k sz. case_bool_decide; [|done]. intros Hk.
    apply lookup_lt_Some in Hk as Hlt. rewrite length_resize in Hlt.
    destruct (decide (k < length (m_blocks b))).
    - by rewrite lookup_resize in Hk by lia.
    - by rewrite lookup_resize_new in Hk by lia. }
  intros k sz Hk. destruct entry as [old|]; [left; by apply Hresize|].
  destruct (decide (k = Z.to_nat bi)) as [->|Hne].
  - rewrite list_lookup_insert_eq in Hk by (by eapply lookup_lt_Some).
    right. congruence.
  - rewrite list_lookup_insert_ne in Hk by done. left. by apply Hresize.
Qed.

Lemma reserve_sizes b n b' :
  reserve b n = Some b' →
  m_object_size b' = m_object_size b
  ∧ m_chunk_size b' = m_chunk_size b
  ∧ ∀ k sz, m_blocks b' !! k = Some (Some sz) →
            m_blocks b !! k = Some (Some sz)
            ∨ sz = Entity.wrap32 (m_object_size b * m_chunk_size b).
Proof.
  unfold reserve. intros (bn & _ & Hrest)%bind_Some.
  apply cassert_bind_Some in Hrest as [_ [= <-]].
  cbn [m_object_size m_chunk_size m_blocks]. split_and!; [done..|].
  intros k sz. rewrite allocate_below_lookup.
  assert (∀ entry,
    (if bool_decide (Z.of_nat (length (m_blocks b)) ≤ bn)%Z
     then list.resize (Z.to_nat (Entity.wrap32 (bn + 1))) None (m_blocks b)
     else m_blocks b) !! k = Some entry →
    entry = None ∨ m_blocks b !! k = Some entry) as Hresize.
  { intros entry. case_bool_decide; [|by auto]. intros Hk.
    apply lookup_lt_Some in Hk as Hlt. rewrite length_resize in Hlt.
    destruct (decide (k < length (m_blocks b))).
    - rewrite lookup_resize in Hk by lia. by auto.
    - rewrite lookup_resize_new in Hk by lia. left. congruence. }
  destruct (decide (k < Z.to_nat bn)).
  - intros (entry & Hentry & [= Hsz])%fmap_Some.
    destruct (Hresize entry Hentry) as [->|Hold].
    + right. exact Hsz.
    + destruct entry as [old|]; simpl in Hsz; [left; congruence|].
      right. done.
  - intros Hk. destruct (Hresize _ Hk) as [?|?]; [done|by left].
Qed.

(** Every block of a built buffer has room for one chunk of objects. *)
Lemma built_block_sizes b k sz :
  built b → m_blocks b !! k = Some (Some sz) →
  sz = Entity.wrap32 (m_object_size b * m_chunk_size b).
Proof.
  intros Hb. revert k sz.
  induction Hb as [os cs|b index b' Hb IH Hacc|b n b' Hb IH Hres]; intros k sz.
  - cbn [make m_blocks]. by rewrite lookup_nil.
  - destruct (accommodate_sizes b index b' Hacc) as (-> & -> & Hblocks).
    intros [Hold| ->]%Hblocks; [by eapply IH|done].
  - destruct (reserve_sizes b n b' Hres) as (-> & -> & Hblocks).
    intros [Hold| ->]%Hblocks; [by eapply IH|done].
Qed.

(** X23 -- Slots do not overlap.  In a buffer built by [accommodate] and
    [reserve], when the bytes of a chunk fit 32 bits, the address [data]
    returns lies in an allocated block and leaves room for one object before
    the end of the bytes allocated for that block, and two different indices
    get different blocks or byte ranges that do not intersect. *)
Theorem data_slots_disjoint b i j bi oi bj oj :
  built b →
  (0 < m_chunk_size b)%Z →
  (0 < m_object_size b)%Z →
  (m_object_size b * m_chunk_size b ≤ Entity.u32_max)%Z →
  (0 ≤ i)%Z → (0 ≤ j)%Z → i ≠ j →
  data b i = Some (bi, oi) →
  data b j = Some (bj, oj) →
  (∃ sz, m_blocks b !! Z.to_nat bi = Some (Some sz)
         ∧ (0 ≤ oi ∧ oi + m_object_size b ≤ sz)%Z)
  ∧ (bi ≠ bj
     ∨ (oi + m_object_size b ≤ oj)%Z
     ∨ (oj + m_object_size b ≤ oi)%Z).
Proof.
  intros Hb Hcs Hos Hfit Hi Hj Hne Hdi Hdj.
  assert (is_Some (data b i)) as Hsome by (by eexists).
  apply data_Some in Hsome as [sz Hsz]; [|done..].
  pose proof (built_block_sizes b _ sz Hb Hsz) as Hsize.
  unfold data in Hdi, Hdj.
  rewrite block_Some, offset_Some in Hdi, Hdj by done.
  cbn [mbind option_bind] in Hdi, Hdj.
  apply cassert_bind_Some in Hdi as [_ [= <- <-]].
  apply cassert_bind_Some in Hdj as [_ [= <- <-]].
  set (cs := m_chunk_size b) in *. set (os := m_object_size b) in *.
  pose proof (Z.mod_pos_bound i cs Hcs) as Hmi.
  pose proof (Z.mod_pos_bound j cs Hcs) as Hmj.
  rewrite EntityFacts.wrap32_small in Hsize by nia.
  rewrite !EntityFacts.wrap32_small by nia.
  split; [exists sz; split; [done|nia]|].
  destruct (decide (i / cs = j / cs)%Z) as [Heq|?]; [|by left]. right.
  assert (i mod cs ≠ j mod cs)%Z as Hmod.
  { intros Hm. apply Hne.
    rewrite (Z.div_mod i cs), (Z.div_mod j cs) by lia. congruence. }
  destruct (Z.lt_ge_cases (i mod cs) (j mod cs)); [left|right]; nia.
Qed.

(** X24 -- What [reserve(n)] allocates.  After a successful [reserve(n)]
    every index of a block below the block of [n] is accessible and every
    index accessible before keeps its address; the block of [n] itself is
    not allocated by the call: [data(n)] answers as it did before. *)
Theorem reserve_allocates_below b n b' :
  (0 < m_chunk_size b)%Z →
  (0 ≤ n)%Z →
  reserve b n = Some b' →
  (∀ j, (0 ≤ j)%Z → (j / m_chunk_size b < n / m_chunk_size b)%Z →
        is_Some (data b' j))
  ∧ (∀ j, (0 ≤ j)%Z → is_Some (data b j) → data b' j = data b j)
  ∧ (is_Some (data b' n) ↔ is_Some (data b n)).
Proof.
  intros Hcs Hn. unfold reserve. rewrite block_Some by done.
  cbn [mbind option_bind].
  set (bn := (n / m_chunk_size b)%Z) in *.
  assert (0 ≤ bn)%Z as Hbn by (apply Z.div_pos; lia).
  set (blocks := if bool_decide (Z.of_nat (length (m_blocks b)) ≤ bn)%Z
                 then list.resize (Z.to_nat (Entity.wrap32 (bn + 1))) None
                                  (m_blocks b)
                 else m_blocks b).
  set (sz := Entity.wrap32 (m_object_size b * m_chunk_size b)).
  rewrite cassert_bind_Some, bool_decide_eq_true. intros [Hlen [= <-]].
  assert (∀ k s, m_blocks b !! k = Some (Some s) →
                 blocks !! k = Some (Some s)) as Hkeep.
  { intros k s Hk. unfold blocks in *. case_bool_decide; [|done].
    apply lookup_lt_Some in Hk as Hklt. rewrite length_resize in Hlen.
    by rewrite lookup_resize by lia. }
  assert (blocks !! Z.to_nat bn = None ∨ blocks !! Z.to_nat bn = Some None
          ∨ blocks !! Z.to_nat bn = m_blocks b !! Z.to_nat bn) as Hat.
  { unfold blocks. case_bool_decide as Hcase; [|by auto].
    destruct (decide (Z.to_nat bn < Z.to_nat (Entity.wrap32 (bn + 1)))).
    - right. left. by rewrite lookup_resize_new by lia.
    - left. apply lookup_ge_None_2. rewrite length_resize. lia. }
  split_and!.
  - intros j Hj Hbelow. apply data_Some; [done..|]. cbn [m_blocks m_chunk_size].
    assert (0 ≤ j / m_chunk_size b)%Z by (apply Z.div_pos; lia).
    rewrite allocate_below_lookup, decide_True by lia.
    destruct (lookup_lt_is_Some_2 blocks (Z.to_nat (j / m_chunk_size b)))
      as [entry ->]; [lia|].
    simpl. by eauto.
  - intros j Hj Hdata. apply data_ext; try done.
    apply data_Some; [done..|]. apply data_Some in Hdata as [s Hs]; [|done..].
    cbn [m_blocks m_chunk_size]. rewrite allocate_below_lookup.
    exists s. rewrite (Hkeep _ _ Hs). by case_decide.
  - rewrite !data_Some by done. cbn [m_blocks m_chunk_size]. fold bn.
    rewrite allocate_below_lookup, decide_False by lia.
    split.
    + intros [s Hs]. destruct Hat as [Hat|[Hat|Hat]]; [congruence..|].
      exists s. congruence.
    + intros [s Hs]. exists s. by apply Hkeep.
Qed.

(** X25 -- Every accessible index is below [size()], as long as the number
    of blocks times the chunk size fits 32 bits. *)
Theorem data_below_size b j :
  (0 < m_chunk_size b)%Z →
  (0 ≤ j)%Z →
  (Z.of_nat (length (m_blocks b)) * m_chunk_size b ≤ Entity.u32_max)%Z →
  is_Some (data b j) →
  (j < size b)%Z.
Proof.
  intros Hcs Hj Hfit [s Hs]%data_Some; [|done..].
  apply lookup_lt_Some in Hs.
  assert (0 ≤ j / m_chunk_size b)%Z by (apply Z.div_pos; lia).
  unfold size. rewrite (EntityFacts.wrap32_small (Z.of_nat _)) by nia.
  rewrite EntityFacts.wrap32_small by nia.
  pose proof (Z.mod_pos_bound j (m_chunk_size b) Hcs).
  rewrite (Z.div_mod j (m_chunk_size b)) at 1 by lia. nia.
Qed.

End ChunkedBufferFacts.

(** ** Instances *)

(** The following lemmas apply the properties above in the demonstration
    world of [Scenario]: three entities 0, 1 and 2, all with [C0], the last
    two with [C1], and the views of [{C0}] and [{C0, C1}]. *)

(** Witness of X1: entity 0 gets [C1] from a reference to the [C1] of
    entity 1, which holds 5; the vector of [C1] has three elements and is
    not resized. *)
Lemma assign_then_get_witness :
  ∃ w', assign_forwarded Scenario.demo_world Scenario.C1 0%Z 3
          (ByReference Scenario.C1 1%Z) = Some w'
        ∧ has w' Scenario.C1 0%Z = Some true
        ∧ get w' Scenario.C1 0%Z
          = argument_value Scenario.demo_world (ByReference Scenario.C1 1%Z)
        ∧ dangles Scenario.demo_world Scenario.C1 0%Z 3
            (ByReference Scenario.C1 1%Z) = false.
Proof.
  eexists. split; [vm_compute; reflexivity|].
  apply (assign_then_get Scenario.demo_world Scenario.C1 0%Z 3
           (ByReference Scenario.C1 1%Z)).
  vm_compute. reflexivity.
Defined.

(** Witness of X2: at entity 1 and [C0]. *)
Lemma get_defined_where_has_witness :
  is_Some (get Scenario.demo_world Scenario.C0 1%Z).
Proof.
  apply (get_defined_where_has Scenario.demo_world Scenario.C0 1%Z).
  - apply demo_world_reachable.
  - vm_compute. reflexivity.
Defined.

(** Witness of X3: for [create<C0, C1>()]. *)
Lemma create_valid_with_components_witness :
  ∃ w' e,
    create Scenario.demo_world [Scenario.C0; Scenario.C1] = Some (w', e)
    ∧ valid w' e = true
    ∧ ∀ T, T ∈ [Scenario.C0; Scenario.C1] → has w' T e = Some true.
Proof.
  eexists _, _. split; [vm_compute; reflexivity|].
  apply (create_valid_with_components
           Scenario.demo_world [Scenario.C0; Scenario.C1]).
  - apply demo_world_reachable.
  - vm_compute. reflexivity.
Defined.

(** Witness of X4: in the demonstration world. *)
Lemma create_fails_only_when_full_witness :
  is_Some (create Scenario.demo_world []) ↔
  m_free_list Scenario.demo_world ≠ []
  ∨ (Z.of_nat (num_entities Scenario.demo_world) < Entity.u32_max)%Z.
Proof.
  apply (create_fails_only_when_full Scenario.demo_world).
  apply demo_world_reachable.
Defined.

(** Witness of X5: the fourth entity of the demonstration world. *)
Lemma create_fresh_slot_witness :
  ∃ w' e,
    create Scenario.demo_world [] = Some (w', e)
    ∧ e = Z.of_nat (num_entities Scenario.demo_world)
    ∧ Entity.version_from_entity e = 0%Z
    ∧ num_entities w' = S (num_entities Scenario.demo_world)
    ∧ (∀ T, has w' T e = Some false)
    ∧ ∀ F g, m_groups w' !! F = Some g → e ∉ g.
Proof.
  eexists _, _. split; [vm_compute; reflexivity|].
  apply (create_fresh_slot Scenario.demo_world).
  - apply demo_world_reachable.
  - vm_compute. reflexivity.
  - vm_compute. reflexivity.
Defined.

(** Witness of X6: entity 1 is destroyed, its slot is handed out again and gets a
    component. *)
Lemma destroyed_id_stays_invalid_witness :
  ∃ w1 w2,
    destroy Scenario.demo_world 1%Z = Some w1
    ∧ run w1 [OpCreate [Scenario.C0];
              OpAssign Scenario.C1 (Entity.make_entity 1 1) 3%Z] = Some w2
    ∧ valid w2 1%Z = false.
Proof.
  eexists _, _. split; [vm_compute; reflexivity|].
  split; [vm_compute; reflexivity|].
  eapply (destroyed_id_stays_invalid Scenario.demo_world 1%Z _
           [OpCreate [Scenario.C0];
            OpAssign Scenario.C1 (Entity.make_entity 1 1) 3%Z]).
  - apply demo_world_reachable.
  - vm_compute. reflexivity.
  - vm_compute. reflexivity.
Defined.

(** Witness of X7: along a destruction, a creation with a component and a view. *)
Lemma run_never_takes_back_witness :
  ∃ w',
    run Scenario.demo_world
        [OpDestroy 1%Z; OpCreate [Scenario.C1]; OpView [Scenario.C1]] = Some w'
    ∧ num_entities Scenario.demo_world ≤ num_entities w'
    ∧ num_contained_types Scenario.demo_world ≤ num_contained_types w'
    ∧ (∀ T p, m_type_positions Scenario.demo_world !! T = Some p →
              m_type_positions w' !! T = Some p)
    ∧ ∀ i v, m_versions Scenario.demo_world !! i = Some v →
             ∃ v', m_versions w' !! i = Some v' ∧ (v ≤ v')%Z.
Proof.
  eexists. split; [vm_compute; reflexivity|].
  apply (run_never_takes_back Scenario.demo_world
           [OpDestroy 1%Z; OpCreate [Scenario.C1]; OpView [Scenario.C1]]).
  - apply demo_world_reachable.
  - vm_compute. reflexivity.
Defined.

(** Witness of X8: in the demonstration world. *)
Lemma type_positions_are_dense_witness :
  num_contained_types Scenario.demo_world
  = length (m_metabuffers Scenario.demo_world)
  ∧ num_contained_types Scenario.demo_world
    = length (m_buffers Scenario.demo_world)
  ∧ (∀ T p, m_type_positions Scenario.demo_world !! T = Some p →
            p < num_contained_types Scenario.demo_world)
  ∧ (∀ p, p < num_contained_types Scenario.demo_world →
          ∃ T, m_type_positions Scenario.demo_world !! T = Some p)
  ∧ ∀ T1 T2 p, m_type_positions Scenario.demo_world !! T1 = Some p →
               m_type_positions Scenario.demo_world !! T2 = Some p → T1 = T2.
Proof.
  apply (type_positions_are_dense Scenario.demo_world).
  apply demo_world_reachable.
Defined.

(** Witness of X9: entity 0 gets [C1]; [C0] of entity 1 is looked at. *)
Lemma assign_frame_witness :
  ∃ w', assign Scenario.demo_world Scenario.C1 0%Z 9%Z = Some w'
        ∧ has w' Scenario.C0 1%Z = has Scenario.demo_world Scenario.C0 1%Z
        ∧ get w' Scenario.C0 1%Z = get Scenario.demo_world Scenario.C0 1%Z.
Proof.
  eexists. split; [vm_compute; reflexivity|].
  apply (assign_frame Scenario.demo_world Scenario.C1 0%Z 9%Z).
  - apply demo_world_reachable.
  - vm_compute. reflexivity.
  - left. vm_compute. discriminate.
Defined.

(** Witness of X10: entity 0 gets [C1] and loses it again. *)
Lemma assign_then_remove_witness :
  ∃ w1, assign Scenario.demo_world Scenario.C1 0%Z 9%Z = Some w1
  ∧ ∃ w2, remove w1 [Scenario.C1] 0%Z = Some w2
          ∧ m_groups w2 = m_groups Scenario.demo_world
          ∧ (∀ t i, presence w2 t i = presence Scenario.demo_world t i)
          ∧ m_versions w2 = m_versions Scenario.demo_world
          ∧ m_free_list w2 = m_free_list Scenario.demo_world.
Proof.
  eexists. split; [vm_compute; reflexivity|].
  apply (assign_then_remove Scenario.demo_world Scenario.C1 0%Z 9%Z).
  - apply demo_world_reachable.
  - vm_compute. reflexivity.
Defined.

(** Witness of X11: at entity 1. *)
Lemma orphan_strips_entity_witness :
  ∃ w', orphan Scenario.demo_world 1%Z = Some w'
        ∧ valid w' 1%Z = true
        ∧ (∀ T, has w' T 1%Z = Some false)
        ∧ (∀ F g, m_groups w' !! F = Some g → 1%Z ∉ g)
        ∧ m_versions w' = m_versions Scenario.demo_world
        ∧ m_free_list w' = m_free_list Scenario.demo_world
        ∧ m_buffers w' = m_buffers Scenario.demo_world
        ∧ ∀ t i, i ≠ slot 1%Z →
                 presence w' t i = presence Scenario.demo_world t i.
Proof.
  apply (orphan_strips_entity Scenario.demo_world 1%Z).
  - apply demo_world_reachable.
  - vm_compute. reflexivity.
Defined.

(** Witness of X12: entity 1 is destroyed, entity 2 is looked at. *)
Lemma destroy_frame_witness :
  ∃ w', destroy Scenario.demo_world 1%Z = Some w'
        ∧ valid w' 2%Z = valid Scenario.demo_world 2%Z
        ∧ ∀ T, has w' T 2%Z = has Scenario.demo_world T 2%Z
               ∧ get w' T 2%Z = get Scenario.demo_world T 2%Z.
Proof.
  eexists. split; [vm_compute; reflexivity|].
  apply (destroy_frame Scenario.demo_world 1%Z).
  - apply demo_world_reachable.
  - vm_compute. reflexivity.
  - vm_compute. discriminate.
Defined.

(** Witness of X13: at entity 1. *)
Lemma double_destroy_duplicates_identifier_witness :
  ∃ w1 w2 w3 w4 id,
    destroy Scenario.demo_world 1%Z = Some w1
    ∧ destroy w1 (Entity.make_entity (Entity.version_from_entity 1 + 1)
                                     (Entity.index_from_entity 1)) = Some w2
    ∧ m_free_list w2 =
        Entity.index_from_entity 1 :: Entity.index_from_entity 1
          :: m_free_list Scenario.demo_world
    ∧ create w2 [] = Some (w3, id)
    ∧ create w3 [] = Some (w4, id)
    ∧ valid w4 id = true.
Proof.
  apply (double_destroy_duplicates_identifier Scenario.demo_world 1%Z).
  - apply demo_world_reachable.
  - vm_compute. reflexivity.
  - vm_compute. reflexivity.
Defined.

(** Witness of X14: the demonstration world after [destroy] of entity 1,
    with three slots and index 1 on the free list. *)
Lemma num_alive_defined_witness :
  num_reusable (default empty_world (destroy Scenario.demo_world 1%Z))
  ≤ num_entities (default empty_world (destroy Scenario.demo_world 1%Z))
  ∧ num_alive (default empty_world (destroy Scenario.demo_world 1%Z))
    = Some (num_entities (default empty_world (destroy Scenario.demo_world 1%Z))
            - num_reusable
                (default empty_world (destroy Scenario.demo_world 1%Z))).
Proof.
  apply (num_alive_defined
           (default empty_world (destroy Scenario.demo_world 1%Z))).
  - apply (reachable_step Scenario.demo_world (OpDestroy 1%Z)).
    + apply demo_world_reachable.
    + vm_compute. reflexivity.
  - vm_compute. apply NoDup_singleton.
Defined.

(** Witness of X15: the view of [{C0, C1}]; entity 2 loses [C1], entity 0 gets it. *)
Lemma view_stays_in_sync_witness :
  ∃ w1 handle w,
    view Scenario.demo_world [Scenario.C0; Scenario.C1] = Some (w1, handle)
    ∧ run w1 [OpRemove [Scenario.C1] 2%Z; OpAssign Scenario.C1 0%Z 3%Z]
      = Some w
    ∧ (view_contains w handle 0%Z = true
       ↔ has_all w [Scenario.C0; Scenario.C1] 0%Z = Some true).
Proof.
  eexists _, _, _. split; [vm_compute; reflexivity|].
  split; [vm_compute; reflexivity|].
  eapply (view_stays_in_sync Scenario.demo_world [Scenario.C0; Scenario.C1] _ _
           [OpRemove [Scenario.C1] 2%Z; OpAssign Scenario.C1 0%Z 3%Z]).
  - apply demo_world_reachable.
  - vm_compute. reflexivity.
  - vm_compute. reflexivity.
Defined.

(** Witness of X16: for the same view and operations. *)
Lemma count_is_view_size_witness :
  ∃ w1 handle w,
    view Scenario.demo_world [Scenario.C0; Scenario.C1] = Some (w1, handle)
    ∧ run w1 [OpRemove [Scenario.C1] 2%Z; OpAssign Scenario.C1 0%Z 3%Z]
      = Some w
    ∧ count w [Scenario.C0; Scenario.C1] = Some (view_size w handle).
Proof.
  eexists _, _, _. split; [vm_compute; reflexivity|].
  split; [vm_compute; reflexivity|].
  eapply (count_is_view_size Scenario.demo_world [Scenario.C0; Scenario.C1] _ _
           [OpRemove [Scenario.C1] 2%Z; OpAssign Scenario.C1 0%Z 3%Z]).
  - apply demo_world_reachable.
  - vm_compute. reflexivity.
  - vm_compute. reflexivity.
  - vm_compute. discriminate.
Defined.

(** Witness of X17: the view of [{C1}], which the demonstration world has not cached;
    entity 1 and [C1] are looked at. *)
Lemma view_frame_witness :
  ∃ w' handle,
    view Scenario.demo_world [Scenario.C1] = Some (w', handle)
    ∧ (∀ F g, m_groups Scenario.demo_world !! F = Some g →
              m_groups w' !! F = Some g)
    ∧ is_Some (m_groups w' !! handle)
    ∧ valid w' 1%Z = valid Scenario.demo_world 1%Z
    ∧ has w' Scenario.C1 1%Z = has Scenario.demo_world Scenario.C1 1%Z
    ∧ get w' Scenario.C1 1%Z = get Scenario.demo_world Scenario.C1 1%Z.
Proof.
  eexists _, _. split; [vm_compute; reflexivity|].
  apply (view_frame Scenario.demo_world [Scenario.C1]).
  - apply demo_world_reachable.
  - vm_compute. reflexivity.
Defined.

(** Witness of X18: entities 0 and 2 are destroyed in one call. *)
Lemma destroy_range_once_witness :
  ∃ w', destroy_range Scenario.demo_world [0%Z; 2%Z] = Some w'
        ∧ NoDup [0%Z; 2%Z]
        ∧ ∀ e, e ∈ [0%Z; 2%Z] → valid w' e = false.
Proof.
  eexists. split; [vm_compute; reflexivity|].
  apply (destroy_range_once Scenario.demo_world [0%Z; 2%Z]).
  - apply demo_world_reachable.
  - vm_compute. reflexivity.
Defined.

(** Witness of X19: entity 1 twice in the range. *)
Lemma orphan_range_strips_witness :
  (is_Some (orphan_range Scenario.demo_world [1%Z; 1%Z])
   ↔ valid_range Scenario.demo_world [1%Z; 1%Z] = true)
  ∧ ∀ w', orphan_range Scenario.demo_world [1%Z; 1%Z] = Some w' →
          m_versions w' = m_versions Scenario.demo_world
          ∧ ∀ e, e ∈ [1%Z; 1%Z] →
                 valid w' e = true ∧ ∀ T, has w' T e = Some false.
Proof.
  apply (orphan_range_strips Scenario.demo_world [1%Z; 1%Z]).
  apply demo_world_reachable.
Defined.

(** Witness of X20: at entity 2 and [C1]. *)
Lemma size_covers_components_witness :
  ∃ n, size_of Scenario.demo_world Scenario.C1 = Some n ∧ slot 2%Z < n.
Proof.
  apply (size_covers_components Scenario.demo_world Scenario.C1 2%Z).
  - apply demo_world_reachable.
  - vm_compute. reflexivity.
Defined.

(** Witness of X22: index 19 in an empty buffer of 4-byte objects in chunks of 8. *)
Lemma accommodate_makes_accessible_witness :
  ∃ b', ChunkedBuffer.accommodate (ChunkedBuffer.make 4 8) 19 = Some b'
        ∧ is_Some (ChunkedBuffer.data b' 19)
        ∧ ChunkedBuffer.m_chunk_size b'
          = ChunkedBuffer.m_chunk_size (ChunkedBuffer.make 4 8)
        ∧ ChunkedBuffer.m_object_size b'
          = ChunkedBuffer.m_object_size (ChunkedBuffer.make 4 8)
        ∧ ∀ j, (0 ≤ j)%Z → is_Some (ChunkedBuffer.data (ChunkedBuffer.make 4 8) j) →
               ChunkedBuffer.data b' j
               = ChunkedBuffer.data (ChunkedBuffer.make 4 8) j.
Proof.
  apply (ChunkedBufferFacts.accommodate_makes_accessible
           (ChunkedBuffer.make 4 8) 19).
  - vm_compute. reflexivity.
  - vm_compute. discriminate.
  - vm_compute. reflexivity.
Defined.

(** Witness of X23: indices 3 and 5 of a buffer of 4-byte objects in chunks
    of 8, after [accommodate(3)] and [accommodate(19)]: blocks 0 and 2 are
    allocated with 32 bytes each. *)
Lemma data_slots_disjoint_witness :
  (∃ sz, ChunkedBuffer.m_blocks
           (ChunkedBuffer.Buffer [Some 32; None; Some 32]%Z true 4 8)
         !! Z.to_nat 0 = Some (Some sz)
         ∧ (0 ≤ 12
            ∧ 12 + ChunkedBuffer.m_object_size
                     (ChunkedBuffer.Buffer [Some 32; None; Some 32] true 4 8)
              ≤ sz)%Z)
  ∧ (0%Z ≠ 0%Z
     ∨ (12 + ChunkedBuffer.m_object_size
               (ChunkedBuffer.Buffer [Some 32; None; Some 32] true 4 8)
        ≤ 20)%Z
     ∨ (20 + ChunkedBuffer.m_object_size
               (ChunkedBuffer.Buffer [Some 32; None; Some 32] true 4 8)
        ≤ 12)%Z).
Proof.
  apply (ChunkedBufferFacts.data_slots_disjoint
           (ChunkedBuffer.Buffer [Some 32; None; Some 32]%Z true 4 8) 3 5).
  - apply (ChunkedBuffer.built_accommodate
             (ChunkedBuffer.Buffer [Some 32%Z] true 4 8) 19).
    + apply (ChunkedBuffer.built_accommodate (ChunkedBuffer.make 4 8) 3).
      * apply ChunkedBuffer.built_make.
      * vm_compute. reflexivity.
    + vm_compute. reflexivity.
  - vm_compute. reflexivity.
  - vm_compute. reflexivity.
  - vm_compute. discriminate.
  - vm_compute. discriminate.
  - vm_compute. discriminate.
  - discriminate.
  - vm_compute. reflexivity.
  - vm_compute. reflexivity.
Defined.

(** Witness of X24: [reserve(20)] on an empty buffer of 4-byte objects in chunks of 8
    allocates the blocks 0 and 1 and leaves block 2, the block of index 20,
    null. *)
Lemma reserve_allocates_below_witness :
  ∃ b', ChunkedBuffer.reserve (ChunkedBuffer.make 4 8) 20 = Some b'
  ∧ (∀ j, (0 ≤ j)%Z →
          (j / ChunkedBuffer.m_chunk_size (ChunkedBuffer.make 4 8)
           < 20 / ChunkedBuffer.m_chunk_size (ChunkedBuffer.make 4 8))%Z →
          is_Some (ChunkedBuffer.data b' j))
  ∧ (∀ j, (0 ≤ j)%Z → is_Some (ChunkedBuffer.data (ChunkedBuffer.make 4 8) j) →
          ChunkedBuffer.data b' j = ChunkedBuffer.data (ChunkedBuffer.make 4 8) j)
  ∧ (is_Some (ChunkedBuffer.data b' 20)
     ↔ is_Some (ChunkedBuffer.data (ChunkedBuffer.make 4 8) 20)).
Proof.
  eexists. split; [vm_compute; reflexivity|].
  apply (ChunkedBufferFacts.reserve_allocates_below
           (ChunkedBuffer.make 4 8) 20).
  - vm_compute. reflexivity.
  - vm_compute. discriminate.
  - vm_compute. reflexivity.
Defined.

(** Witness of X25: index 19 of a buffer whose blocks 0 and 2 are allocated. *)
Lemma data_below_size_witness :
  (19 < ChunkedBuffer.size
          (ChunkedBuffer.Buffer [Some 32; None; Some 32]%Z true 4 8))%Z.
Proof.
  apply (ChunkedBufferFacts.data_below_size
           (ChunkedBuffer.Buffer [Some 32; None; Some 32]%Z true 4 8) 19).
  - vm_compute. reflexivity.
  - vm_compute. discriminate.
  - vm_compute. discriminate.
  - vm_compute. by eexists.
Defined.


(** Witness of X27: entity 0, which lacks [C1], gets it from a reference to
    the [C1] of entity 2, which holds 1; the vector of [C1] has three
    elements and is not resized. *)
Lemma assign_or_replace_upserts_witness :
  ∃ w', assign_or_replace_forwarded Scenario.demo_world Scenario.C1 0%Z 3
          (ByReference Scenario.C1 2%Z) = Some w'
        ∧ has w' Scenario.C1 0%Z = Some true
        ∧ get w' Scenario.C1 0%Z = Some 1%Z
        ∧ (has Scenario.demo_world Scenario.C1 0%Z = Some true →
           m_groups w' = m_groups Scenario.demo_world
           ∧ m_metabuffers w' = m_metabuffers Scenario.demo_world
           ∧ m_versions w' = m_versions Scenario.demo_world
           ∧ m_free_list w' = m_free_list Scenario.demo_world).
Proof.
  apply (assign_or_replace_upserts Scenario.demo_world Scenario.C1 0%Z 3
           (ByReference Scenario.C1 2%Z) 1%Z).
  - apply demo_world_reachable.
  - vm_compute. reflexivity.
  - vm_compute. reflexivity.
  - right. vm_compute. reflexivity.
Defined.

(** The hazard of a reference argument, in the demonstration world: a
    fourth entity is created and gets [C1] from a reference to the [C1] of
    entity 1.  The vector of [C1] has three elements and must grow: with a
    capacity of three it is reallocated under the reference and the call has
    no result, with a capacity of four it is not and the call goes
    through. *)
Lemma assign_forwarded_dangling :
  ∃ w e,
    create Scenario.demo_world [] = Some (w, e)
    ∧ has w Scenario.C1 e = Some false
    ∧ argument_value w (ByReference Scenario.C1 1%Z) = Some 5%Z
    ∧ assign_forwarded w Scenario.C1 e 3 (ByReference Scenario.C1 1%Z) = None
    ∧ ∃ w', assign_forwarded w Scenario.C1 e 4 (ByReference Scenario.C1 1%Z)
            = Some w'
            ∧ get w' Scenario.C1 e = Some 5%Z.
Proof.
  eexists _, _. split; [vm_compute; reflexivity|].
  do 3 (split; [vm_compute; reflexivity|]).
  eexists. split; vm_compute; reflexivity.
Qed.
